(** * The wedding gallery: image pipeline, manifest reader, variant selector

    A shallow embedding of the offline image pipeline
    ([scripts/optimize-images.ts], [scripts/upload-images.ts]), of the
    server-side manifest reader ([lib/gallery.server.ts]), of the responsive
    variant selector ([lib/gallery.ts]) and of the client-side load-state
    cache ([lib/image-cache.ts]), of the components that use the selector
    and the cache, of the gallery page and view and of the optimizer's tree
    walker, followed by the properties proved of them.

    Conventions of the embedding:
    - a JavaScript [number] that holds a pixel count is a [Z];
    - an optional field ([url?: string]) and a value that may be [undefined]
      or [null] is an [option];
    - a plain JavaScript object used as a record of named properties is an
      association list in insertion order ([JsObject.t]);
    - code that may throw returns a [result];
    - the remote upload service, the file system and the [sharp] image
      library are parameters of the sections that use them. *)

From Stdlib Require Import ZArith List Ascii Sorted.
From Stdlib.Strings Require Import Byte.
From stdpp Require Import base decidable option list sorting strings gmap.
From Equations Require Import Equations.
Import ListNotations.

Local Open Scope string_scope.
Local Open Scope Z_scope.

(** ** JavaScript values used by the program *)

(** Truthiness of an optional string, as tested by [if (s)]: [undefined],
    [null] and the empty string are falsy. *)
Definition truthy (s : option string) : bool :=
  match s with
  | Some u => negb (bool_decide (u = ""))
  | None => false
  end.

(** Exceptions: the only ones the modelled code can raise are [TypeError]s
    (a property read on [undefined], a non-string path argument), the
    [SyntaxError] of [JSON.parse] and the errors of a collaborator (file
    system, image library, upload service). *)
Inductive JsError := TypeError | SyntaxError | IOError.

Inductive result (A : Type) :=
| Ok (a : A)
| Throw (e : JsError).
Arguments Ok {A} a.
Arguments Throw {A} e.

(** Sequencing of code that may throw; written [x ← r; k]. *)
#[export] Instance result_bind : MBind result := λ A B k r,
  match r with
  | Ok a => k a
  | Throw e => Throw e
  end.

(** [o[k]] followed by a property read: a [TypeError] when [o[k]] is
    [undefined]. *)
Definition defined {A} (o : option A) : result A :=
  match o with
  | Some a => Ok a
  | None => Throw TypeError
  end.

(** [xs.forEach(f)] for a callback that updates an accumulator and may throw. *)
Fixpoint forEach {A St} (f : St -> A -> result St) (xs : list A) (st : St)
  : result St :=
  match xs with
  | [] => Ok st
  | x :: xs' => st' ← f st x; forEach f xs' st'
  end.

(** Plain objects with string property names, in insertion order.  The model
    is exact for property names that are neither array indices nor members
    of [Object.prototype]; the variant names of this program are such. *)
Module JsObject.

Definition t (V : Type) := list (string * V).

(** [o[k]] *)
Fixpoint get {V} (o : t V) (k : string) : option V :=
  match o with
  | [] => None
  | (k', v) :: o' => if decide (k' = k) then Some v else get o' k
  end.

(** [o[k] = v]: an existing property keeps its position, a new one is
    appended. *)
Fixpoint set {V} (o : t V) (k : string) (v : V) : t V :=
  match o with
  | [] => [(k, v)]
  | (k', v') :: o' =>
      if decide (k' = k) then (k', v) :: o' else (k', v') :: set o' k v
  end.

(** [Object.keys(o)] *)
Definition keys {V} (o : t V) : list string := map fst o.

(** [Object.entries(o)] *)
Definition entries {V} (o : t V) : list (string * V) := o.

End JsObject.

(** ** [types/index.ts] *)

Module ImageVariant.
Record t := mk {
  width : Z;
  height : Z;
  relativePath : option string;   (* used in local metadata *)
  url : option string             (* used in remote manifest *)
}.
End ImageVariant.

Module ImageMetadata.
Record t := mk {
  originalName : string;
  relativePathBase : string;
  variants : JsObject.t ImageVariant.t;
  blurDataUrl : string
}.
End ImageMetadata.

Module PhotoManifest.
Record t := mk {
  id : string;
  category : string;
  timeOfDay : string;
  blurDataUrl : string;
  variants : JsObject.t ImageVariant.t;
  url : string;
  width : Z;
  height : Z
}.
End PhotoManifest.

(** The property names the two [variants] types declare. *)
Definition VARIANT_NAMES : list string := ["mobile"; "tablet"; "desktop"; "full"].

(** ** [lib/gallery.ts]: responsive variant selector *)

Module Gallery.

Definition BREAKPOINTS_mobile : Z := 640.
Definition BREAKPOINTS_tablet : Z := 1280.
Definition BREAKPOINTS_desktop : Z := 1920.

(** The value the selector returns. *)
Record Rendition := mkRendition {
  r_url : string;
  r_width : Z;
  r_height : Z
}.

(** [photo.variants.X?.url] tested for truthiness, and the object literal
    built from that variant in the branch where the test succeeds. *)
Definition with_url (v : option ImageVariant.t) : option Rendition :=
  match v with
  | Some iv =>
      match ImageVariant.url iv with
      | Some u =>
          if truthy (Some u)
          then Some (mkRendition u (ImageVariant.width iv) (ImageVariant.height iv))
          else None
      | None => None
      end
  | None => None
  end.

Definition top_level (photo : PhotoManifest.t) : Rendition :=
  mkRendition (PhotoManifest.url photo) (PhotoManifest.width photo)
              (PhotoManifest.height photo).

Definition getResponsiveVariant (photo : PhotoManifest.t) (width : Z)
  : Rendition :=
  let variants := PhotoManifest.variants photo in
  match (if width <=? BREAKPOINTS_tablet
         then with_url (JsObject.get variants "tablet") else None) with
  | Some r => r
  | None =>
      match (if width <=? BREAKPOINTS_desktop
             then with_url (JsObject.get variants "desktop") else None) with
      | Some r => r
      | None =>
          match with_url (JsObject.get variants "full") with
          | Some r => r
          | None => top_level photo
          end
      end
  end.

(** A walk over a preference list of variant names: the first variant
    that is present with a non-empty url, else the entry's top-level url,
    width and height. *)
Fixpoint first_usable (prefs : list string) (photo : PhotoManifest.t)
  : Rendition :=
  match prefs with
  | [] => top_level photo
  | name :: rest =>
      match with_url (JsObject.get (PhotoManifest.variants photo) name) with
      | Some r => r
      | None => first_usable rest photo
      end
  end.

(** The preference list the specification states for widths above the
    desktop breakpoint: full, then desktop. *)
Definition stated_preference_above_desktop : list string := ["full"; "desktop"].

End Gallery.

(** ** [lib/image-cache.ts]: load-state cache *)

Module ImageCache.

(** The module-level [Set<string>]; [new Set()] is [∅]. *)
Definition loadedImages_init : gset string := ∅.

Definition isImageLoaded (loadedImages : gset string) (url : string) : bool :=
  bool_decide (url ∈ loadedImages).

Definition markImageLoaded (loadedImages : gset string) (url : string)
  : gset string :=
  {[ url ]} ∪ loadedImages.

Inductive Placeholder := blur | empty.

Definition getPlaceholderProps (loadedImages : gset string) (url : string)
    (blurDataUrl : option string) : Placeholder * option string :=
  if isImageLoaded loadedImages url then (empty, None)
  else (blur, blurDataUrl).

(** The calls a session can make on the module; the cache is reachable
    through these three exported functions only. *)
Inductive call :=
| IsImageLoaded (url : string)
| MarkImageLoaded (url : string)
| GetPlaceholderProps (url : string) (blurDataUrl : option string).

Definition step (loadedImages : gset string) (c : call) : gset string :=
  match c with
  | IsImageLoaded _ => loadedImages
  | MarkImageLoaded url => markImageLoaded loadedImages url
  | GetPlaceholderProps _ _ => loadedImages
  end.

(** The cache after a sequence of calls. *)
Definition run (calls : list call) (loadedImages : gset string) : gset string :=
  fold_left step calls loadedImages.

End ImageCache.

(** ** [lib/gallery.server.ts]: manifest reader *)

Module GalleryServer.

Record GetImagesOptions := mkOptions {
  opt_category : option string;
  opt_id : option string
}.

(** [PhotoManifest[] | PhotoManifest | null] *)
Inductive GetImagesResult :=
| Many (photos : list PhotoManifest.t)
| One (photo : PhotoManifest.t)
| Null.

Section Reader.

(** [fs.readFile(manifestPath, "utf-8")] and [JSON.parse], each of which
    may throw. *)
Variable readFile : result string.
Variable JSON_parse : string -> result (list PhotoManifest.t).

Definition readManifest : list PhotoManifest.t :=
  match (data ← readFile; JSON_parse data) with
  | Ok manifest => manifest
  | Throw _ => []
  end.

Definition getImages (options : option GetImagesOptions) : GetImagesResult :=
  let manifest := readManifest in
  let id := options ≫= opt_id in
  let category := options ≫= opt_category in
  if truthy id then
    match find (fun photo => bool_decide (Some (PhotoManifest.id photo) = id)) manifest with
    | Some photo => One photo
    | None => Null
    end
  else if truthy category then
    Many (filter (fun photo => Some (PhotoManifest.category photo) = category) manifest)
  else Many manifest.

Definition getImageById (id : string) : GetImagesResult :=
  getImages (Some (mkOptions None (Some id))).

Definition getImagesByCategory (category : string) : GetImagesResult :=
  getImages (Some (mkOptions (Some category) None)).

Definition getAllImages : GetImagesResult :=
  getImages None.

(** The manifest file is missing, or its content does not parse. *)
Definition manifest_unavailable : Prop :=
  (exists e, readFile = Throw e) \/
  (exists data e, readFile = Ok data /\ JSON_parse data = Throw e).

End Reader.

(** [lib/thanks-to.server.ts], the sibling lookup by id. *)
Definition getBridalPartyPhoto (readFile : result string)
    (JSON_parse : string -> result (list PhotoManifest.t)) (photoId : string)
  : option PhotoManifest.t :=
  match (data ← readFile; JSON_parse data) with
  | Ok manifest =>
      find (fun photo => bool_decide (PhotoManifest.id photo = photoId)) manifest
  | Throw _ => None
  end.

End GalleryServer.

(** ** [scripts/upload-images.ts]: upload batcher and manifest assembler *)

Module UploadImages.

Local Open Scope nat_scope.
Local Open Scope list_scope.

(** [path.sep] on POSIX. *)
Definition path_sep : ascii := "/"%char.

(** [s.split(sep)] for a one-character separator. *)
Fixpoint split (s : string) (sep : ascii) : list string :=
  match s with
  | EmptyString => [EmptyString]
  | String c s' =>
      if decide (c = sep) then EmptyString :: split s' sep
      else match split s' sep with
           | [] => [String c EmptyString]
           | part :: parts => String c part :: parts
           end
  end.

(** [arr.slice(a, b)] for [0 <= a <= b]. *)
Definition slice {A} (arr : list A) (a b : nat) : list A :=
  take (b - a) (drop a arr).

(** [metadataList.forEach((meta, idx) => ...)] visits these pairs. *)
Definition indexed {A} (xs : list A) : list (nat * A) :=
  imap (λ idx x, (idx, x)) xs.

(** [new File([fileBuffer], name)] *)
Record File := mkFile {
  file_bytes : list Byte.byte;
  file_name : string
}.

(** An element of [uploadQueue]. *)
Record Job := mkJob {
  path : string;
  file : File;
  metaIndex : nat;
  sizeName : string
}.

(** The fields of [res.data] the script reads. *)
Record UploadedFileData := mkData {
  url : string;
  key : string
}.

(** One element of the array [utapi.uploadFiles] resolves to. *)
Record UploadFileResult := mkResult {
  data : option UploadedFileData;
  error : option string
}.

(** What the run shows to an observer, in order: console output and the
    calls made to the upload service. *)
Inductive Event :=
| LogUploadingBatch (number files : nat)
| UploadFilesCalled (files : list File)
| UploadFilesSettled (resolved : bool)
| LogUploaded (sizeName url : string)
| LogFailedToUpload (path : string)
| LogBatchUploadFailed.

Definition BATCH_SIZE : nat := 5.

(** Top-level [category]/[timeOfDay] of a manifest entry, from the folder
    structure. *)
Definition folder_metadata (relativePathBase : string) : string * string :=
  let parts := split relativePathBase path_sep in
  let category := "Uncategorized"%string in
  let timeOfDay := "Day"%string in
  let category :=
    if bool_decide (1 ≤ length parts) then nth 0 parts category else category in
  let timeOfDay :=
    if bool_decide (2 ≤ length parts) then nth 1 parts timeOfDay else timeOfDay in
  (category, timeOfDay).

(** [uploadedVariants['desktop'] ? 'desktop' :
     uploadedVariants['tablet'] ? 'tablet' : Object.keys(uploadedVariants)[0]] *)
Definition defaultVariantKey (uploadedVariants : JsObject.t UploadedFileData)
  : option string :=
  if JsObject.get uploadedVariants "desktop" is Some _ then Some "desktop"%string
  else if JsObject.get uploadedVariants "tablet" is Some _ then Some "tablet"%string
  else head (JsObject.keys uploadedVariants).

(** The body of [Object.keys(meta.variants).forEach(size => ...)]. *)
Definition add_manifest_variant (meta : ImageMetadata.t)
    (uploadedVariants : JsObject.t UploadedFileData)
    (manifestVariants : JsObject.t ImageVariant.t) (size : string)
  : result (JsObject.t ImageVariant.t) :=
  match JsObject.get uploadedVariants size with
  | Some uploaded =>
      variant ← defined (JsObject.get (ImageMetadata.variants meta) size);
      Ok (JsObject.set manifestVariants size
            (ImageVariant.mk (ImageVariant.width variant)
                             (ImageVariant.height variant)
                             None
                             (Some (url uploaded))))
  | None => Ok manifestVariants
  end.

(** The body of the second [metadataList.forEach((meta, idx) => ...)]; the
    entry is pushed under [if (defaultVariantKey)], a truthiness test. *)
Definition construct_entry (uploadedUrls : gmap nat (JsObject.t UploadedFileData))
    (manifest : list PhotoManifest.t) (im : nat * ImageMetadata.t)
  : result (list PhotoManifest.t) :=
  let '(idx, meta) := im in
  match uploadedUrls !! idx with
  | None => Ok manifest
  | Some uploadedVariants =>
      let '(category, timeOfDay) :=
        folder_metadata (ImageMetadata.relativePathBase meta) in
      manifestVariants ←
        forEach (add_manifest_variant meta uploadedVariants)
                (JsObject.keys (ImageMetadata.variants meta)) [];
      let defaultVariantKey := defaultVariantKey uploadedVariants in
      match defaultVariantKey with
      | Some k =>
          if truthy defaultVariantKey then
            uploaded ← defined (JsObject.get uploadedVariants k);
            variant ← defined (JsObject.get (ImageMetadata.variants meta) k);
            Ok (manifest ++
                [PhotoManifest.mk (key uploaded) category timeOfDay
                   (ImageMetadata.blurDataUrl meta) manifestVariants
                   (url uploaded)
                   (ImageVariant.width variant) (ImageVariant.height variant)])
          else Ok manifest
      | None => Ok manifest
      end
  end.

Definition construct_manifest (metadataList : list ImageMetadata.t)
    (uploadedUrls : gmap nat (JsObject.t UploadedFileData))
  : result (list PhotoManifest.t) :=
  forEach (construct_entry uploadedUrls) (indexed metadataList) [].

(** The body of [responses.forEach((res, idx) => ...)], on the job
    [batch[idx]] and the response [res]. *)
Definition record_response
    (st : gmap nat (JsObject.t UploadedFileData) * list Event)
    (jr : Job * UploadFileResult)
  : gmap nat (JsObject.t UploadedFileData) * list Event :=
  let '(uploadedUrls, console) := st in
  let '(job, res) := jr in
  match data res with
  | Some d =>
      let uploadedVariants := default [] (uploadedUrls !! metaIndex job) in
      (<[metaIndex job := JsObject.set uploadedVariants (sizeName job)
                            (mkData (url d) (key d))]> uploadedUrls,
       console ++ [LogUploaded (sizeName job) (url d)])
  | None => (uploadedUrls, console ++ [LogFailedToUpload (path job)])
  end.

(** *** Predicates and observations used to state the properties *)

(** What [variants[size]] of a manifest entry is made of: the recorded
    upload and the local metadata of the same variant name. *)
Definition variant_from (meta : ImageMetadata.t)
    (uploadedVariants : JsObject.t UploadedFileData)
    (size : string) (v : ImageVariant.t) : Prop :=
  exists uploaded variant,
    JsObject.get uploadedVariants size = Some uploaded /\
    JsObject.get (ImageMetadata.variants meta) size = Some variant /\
    v = ImageVariant.mk (ImageVariant.width variant) (ImageVariant.height variant)
                        None (Some (url uploaded)).

(** Every queued job stands for a variant of the photo at its index. *)
Definition job_of_metadata (metadataList : list ImageMetadata.t) (job : Job) : Prop :=
  exists meta, metadataList !! metaIndex job = Some meta /\
               sizeName job ∈ JsObject.keys (ImageMetadata.variants meta).

(** Every recorded upload is the upload of a queued job, and an index is
    recorded only with at least one upload. *)
Definition recorded_from_queue (uploadQueue : list Job)
    (uploaded : gmap nat (JsObject.t UploadedFileData)) : Prop :=
  forall idx uploadedVariants,
    uploaded !! idx = Some uploadedVariants ->
    uploadedVariants <> [] /\
    forall k, k ∈ JsObject.keys uploadedVariants ->
      exists job, job ∈ uploadQueue /\ metaIndex job = idx /\ sizeName job = k.

(** The default key of a non-empty upload record: desktop when uploaded,
    else tablet when uploaded, else the first key in insertion order. *)
Definition default_choice (uploadedVariants : JsObject.t UploadedFileData)
    (k : string) : Prop :=
  (is_Some (JsObject.get uploadedVariants "desktop") /\ k = "desktop"%string) \/
  (JsObject.get uploadedVariants "desktop" = None /\
   is_Some (JsObject.get uploadedVariants "tablet") /\ k = "tablet"%string) \/
  (JsObject.get uploadedVariants "desktop" = None /\
   JsObject.get uploadedVariants "tablet" = None /\
   head (JsObject.keys uploadedVariants) = Some k).

(** The calls to the upload service and their settlements, as they appear
    in the trace of a run. *)
Definition is_service_event (e : Event) : bool :=
  match e with
  | UploadFilesCalled _ | UploadFilesSettled _ => true
  | _ => false
  end.

Definition service_events (trace : list Event) : list Event :=
  List.filter is_service_event trace.

(** The [k]-th contiguous block of [BATCH_SIZE] jobs, the number of blocks
    needed for [n] jobs, and the blocks of a queue. *)
Definition batch_of (uploadQueue : list Job) (k : nat) : list Job :=
  slice uploadQueue (k * BATCH_SIZE) (k * BATCH_SIZE + BATCH_SIZE).

Definition batch_count (n : nat) : nat := (n + (BATCH_SIZE - 1)) / BATCH_SIZE.

Definition batches (uploadQueue : list Job) : list (list Job) :=
  map (batch_of uploadQueue) (seq 0 (batch_count (length uploadQueue))).

(** The service events of one batch: the call, then its settlement. *)
Definition batch_events (br : list Job * bool) : list Event :=
  [UploadFilesCalled (map file br.1); UploadFilesSettled br.2].

Section Pipeline.

(** The environment of the script. *)
Variable inputDir : string.
Variable path_join : string -> string -> string.
Variable path_basename : string -> string.
Variable existsSync : string -> bool.
Variable readFileSync : string -> result (list Byte.byte).

(** The upload service: a call takes the service from one state to the
    next and either resolves to a list of results (by the service's
    contract one per file, in order) or rejects. *)
Variable ServiceState : Type.
Variable uploadFiles :
  ServiceState -> list File -> ServiceState * result (list UploadFileResult).

(** The body of [Object.entries(meta.variants).forEach(...)]. *)
Definition enqueue_variant (idx : nat) (uploadQueue : list Job)
    (entry : string * ImageVariant.t) : result (list Job) :=
  let '(sizeName, variant) := entry in
  relativePath ← defined (ImageVariant.relativePath variant);
  let fullPath := path_join inputDir relativePath in
  if existsSync fullPath then
    fileBuffer ← readFileSync fullPath;
    Ok (uploadQueue ++
        [mkJob fullPath (mkFile fileBuffer (path_basename fullPath)) idx sizeName])
  else Ok uploadQueue.

Definition enqueue_photo (uploadQueue : list Job) (im : nat * ImageMetadata.t)
  : result (list Job) :=
  forEach (enqueue_variant (fst im))
          (JsObject.entries (ImageMetadata.variants (snd im))) uploadQueue.

Definition build_queue (metadataList : list ImageMetadata.t) : result (list Job) :=
  forEach enqueue_photo (indexed metadataList) [].

Record LoopState := mkLoop {
  service : ServiceState;
  uploadedUrls : gmap nat (JsObject.t UploadedFileData);
  console : list Event
}.

(** One iteration of the batch loop: the [try] block and its [catch].
    A response beyond the end of the batch makes the callback read a
    property of [undefined]; the [catch] logs it and the batch ends. *)
Definition upload_batch (i : nat) (batch : list Job) (st : LoopState) : LoopState :=
  let console :=
    console st ++ [LogUploadingBatch (i / BATCH_SIZE + 1) (length batch);
                   UploadFilesCalled (map file batch)] in
  let '(service', outcome) := uploadFiles (service st) (map file batch) in
  match outcome with
  | Ok responses =>
      let '(uploadedUrls', console') :=
        fold_left record_response (combine batch responses)
                  (uploadedUrls st, console ++ [UploadFilesSettled true]) in
      mkLoop service' uploadedUrls'
             (if bool_decide (length batch < length responses)
              then console' ++ [LogBatchUploadFailed] else console')
  | Throw _ =>
      mkLoop service' (uploadedUrls st)
             (console ++ [UploadFilesSettled false; LogBatchUploadFailed])
  end.

(** [for (let i = ...; i < uploadQueue.length; i += BATCH_SIZE)] *)
Equations? upload_from (uploadQueue : list Job) (i : nat) (st : LoopState)
  : LoopState by wf (length uploadQueue - i) lt :=
  upload_from uploadQueue i st with decide (i < length uploadQueue) => {
    | left _ =>
        upload_from uploadQueue (i + BATCH_SIZE)
          (upload_batch i (slice uploadQueue i (i + BATCH_SIZE)) st);
    | right _ => st }.
Proof. unfold BATCH_SIZE. lia. Qed.

Definition upload_all (uploadQueue : list Job) (s0 : ServiceState) : LoopState :=
  upload_from uploadQueue 0 (mkLoop s0 ∅ []).

(** [main]: the manifest handed to [fs.writeFileSync], or the exception
    that ends the script. *)
Definition main (metadataList : list ImageMetadata.t) (s0 : ServiceState)
  : result (list PhotoManifest.t) :=
  uploadQueue ← build_queue metadataList;
  construct_manifest metadataList (uploadedUrls (upload_all uploadQueue s0)).

End Pipeline.

End UploadImages.

(** ** [scripts/optimize-images.ts]: variant generator *)

Module OptimizeImages.

Local Open Scope Z_scope.

(** Target sizes, in the order [Object.entries(SIZES)] visits them. *)
Definition SIZES : JsObject.t Z :=
  [("mobile", 640); ("tablet", 1280); ("desktop", 1920); ("full", 3840)]%string.

(** The options object passed to [.resize(...)]. *)
Record ResizeOptions := mkResize {
  resize_width : Z;
  withoutEnlargement : bool
}.

(** What [sharp(path).metadata()] resolves to, as far as the script reads it. *)
Record Metadata := mkMetadata {
  meta_width : option Z;
  meta_height : option Z
}.

(** [n || 0] on an optional number. *)
Definition or_zero (n : option Z) : Z :=
  match n with
  | Some z => if z =? 0 then 0 else z
  | None => 0
  end.

Section Sharp.

(** The [sharp] library and the file system, as the script uses them:
    decoded images with their pixel size, the resize and re-encode
    operations, and paths. *)
Variable Image : Type.
Variable image_width image_height : Image -> Z.
Variable decode : list byte -> result Image.
Variable resize : ResizeOptions -> Image -> Image.
Variable webp : Z -> Image -> Image.
Variable generatePlaceholder : list byte -> result string.
Variable readFileSync : string -> result (list byte).
Variable outputDir : string.
Variable path_join : string -> string -> string.
Variable path_relative : string -> string -> string.
Variable path_dirname : string -> string.
Variable path_basename : string -> string.
Variable path_parse_name : string -> string.

(** Image files on disk, by path, are a [gmap string Image]. *)

(** [sharp(outputPath).metadata()] *)
Definition metadata (files : gmap string Image) (outputPath : string) : result Metadata :=
  match files !! outputPath with
  | Some img => Ok (mkMetadata (Some (image_width img)) (Some (image_height img)))
  | None => Throw IOError
  end.

(** The loop [for (const [sizeName, width] of Object.entries(SIZES))]. *)
Fixpoint generate_sizes (inputBuffer : list byte)
    (relativePath outputSubDir fileNameNoExt : string)
    (sizes : list (string * Z)) (files : gmap string Image)
    (variants : JsObject.t ImageVariant.t)
  : gmap string Image * result (JsObject.t ImageVariant.t) :=
  match sizes with
  | [] => (files, Ok variants)
  | (sizeName, width) :: rest =>
      let outFileName := (fileNameNoExt ++ "-" ++ sizeName ++ ".webp")%string in
      let outputPath := path_join outputSubDir outFileName in
      match decode inputBuffer with
      | Throw e => (files, Throw e)
      | Ok img =>
          let files :=
            <[outputPath := webp 100 (resize (mkResize width true) img)]> files in
          match metadata files outputPath with
          | Throw e => (files, Throw e)
          | Ok meta =>
              generate_sizes inputBuffer relativePath outputSubDir fileNameNoExt
                rest files
                (JsObject.set variants sizeName
                   (ImageVariant.mk (or_zero (meta_width meta))
                                    (or_zero (meta_height meta))
                                    (Some (path_join relativePath outFileName))
                                    None))
          end
      end
  end.

(** The file written for one size, and the variant recorded for it. *)
Definition written (img : Image) (width : Z) : Image :=
  webp 100 (resize (mkResize width true) img).

Definition recorded (img : Image) (relativePath fileNameNoExt sizeName : string)
    (width : Z) : ImageVariant.t :=
  ImageVariant.mk (image_width (written img width)) (image_height (written img width))
    (Some (path_join relativePath (fileNameNoExt ++ "-" ++ sizeName ++ ".webp")%string))
    None.

Record State := mkState {
  files : gmap string Image;
  metadataList : list ImageMetadata.t
}.

(** [processSingleFile]: any exception is caught and logged, and the file
    then contributes no metadata record. *)
Definition processSingleFile (fullPath baseDir : string) (st : State) : State :=
  let relativePath := path_relative baseDir (path_dirname fullPath) in
  let outputSubDir := path_join outputDir relativePath in
  let fileName := path_basename fullPath in
  let fileNameNoExt := path_parse_name fileName in
  match (inputBuffer ← readFileSync fullPath;
         blurDataUrl ← generatePlaceholder inputBuffer;
         Ok (inputBuffer, blurDataUrl)) with
  | Throw _ => st
  | Ok (inputBuffer, blurDataUrl) =>
      match generate_sizes inputBuffer relativePath outputSubDir fileNameNoExt
              (JsObject.entries SIZES) (files st) [] with
      | (files', Ok variants) =>
          mkState files'
            (metadataList st ++
             [ImageMetadata.mk fileName relativePath variants blurDataUrl])
      | (files', Throw _) => mkState files' (metadataList st)
      end
  end.

End Sharp.

End OptimizeImages.

(** ** [lib/gallery.ts], earlier snapshot: selector with a mobile branch *)

Module GallerySnapshot.

Import Gallery.

Definition getResponsiveVariant (photo : PhotoManifest.t) (width : Z)
  : Rendition :=
  let variants := PhotoManifest.variants photo in
  match (if width <=? BREAKPOINTS_mobile
         then with_url (JsObject.get variants "mobile") else None) with
  | Some r => r
  | None =>
      match (if width <=? BREAKPOINTS_tablet
             then with_url (JsObject.get variants "tablet") else None) with
      | Some r => r
      | None =>
          match (if width <=? BREAKPOINTS_desktop
                 then with_url (JsObject.get variants "desktop") else None) with
          | Some r => r
          | None =>
              match with_url (JsObject.get variants "full") with
              | Some r => r
              | None => top_level photo
              end
          end
      end
  end.

End GallerySnapshot.

(** ** Components that use the selector and the cache
    ([components/hero/HeroImage.tsx], [components/gallery/GalleryItem.tsx],
    [components/gallery/Lightbox.tsx]) *)

Module Components.

Import Gallery ImageCache.

(** [a || b] for an optional string [a] and a string [b]. *)
Definition or_else (a : option string) (b : string) : string :=
  match a with
  | Some u => if truthy a then u else b
  | None => b
  end.

(** [photo.variants.X?.url] *)
Definition variant_url (photo : PhotoManifest.t) (name : string) : option string :=
  JsObject.get (PhotoManifest.variants photo) name ≫= ImageVariant.url.

(** GalleryItem: [photo.variants.mobile?.url || photo.url]. *)
Definition thumbnailUrl (photo : PhotoManifest.t) : string :=
  or_else (variant_url photo "mobile") (PhotoManifest.url photo).

(** Lightbox: [photo.variants.desktop?.url || photo.variants.full?.url || photo.url]. *)
Definition fullUrl (photo : PhotoManifest.t) : string :=
  or_else (variant_url photo "desktop")
          (or_else (variant_url photo "full") (PhotoManifest.url photo)).

(** HeroImage: the loop of [findCachedVariant] over [variantKeys]. *)
Fixpoint findCachedVariant_loop (loadedImages : gset string)
    (photo : PhotoManifest.t) (variantKeys : list string) : option Rendition :=
  match variantKeys with
  | [] => None
  | key :: rest =>
      match with_url (JsObject.get (PhotoManifest.variants photo) key) with
      | Some r =>
          if isImageLoaded loadedImages (r_url r) then Some r
          else findCachedVariant_loop loadedImages photo rest
      | None => findCachedVariant_loop loadedImages photo rest
      end
  end.

Definition findCachedVariant (loadedImages : gset string) (photo : PhotoManifest.t)
  : option Rendition :=
  match findCachedVariant_loop loadedImages photo
          ["mobile"; "tablet"; "desktop"; "full"] with
  | Some r => Some r
  | None =>
      if isImageLoaded loadedImages (PhotoManifest.url photo)
      then Some (top_level photo)
      else None
  end.

(** The state of one mounted HeroImage: its ref and its two state variables. *)
Record HeroState := mkHero {
  lockedVariantRef : option Rendition;
  hasMounted : bool;
  viewportWidth : Z
}.

(** [useRef(null)], [useState(false)], [useState(1920)]. *)
Definition hero_init : HeroState := mkHero None false 1920.

(** The variant shown before mount (server render): the full url, or the
    top-level url, with the top-level width and height. *)
Definition initial_variant (photo : PhotoManifest.t) : Rendition :=
  mkRendition (or_else (variant_url photo "full") (PhotoManifest.url photo))
              (PhotoManifest.width photo) (PhotoManifest.height photo).

(** One render of HeroImage for a non-null photo: the variant, [isCached],
    and the state with the ref as the render leaves it. *)
Definition render (loadedImages : gset string) (photo : PhotoManifest.t)
    (st : HeroState) : Rendition * bool * HeroState :=
  match lockedVariantRef st with
  | Some variant => (variant, isImageLoaded loadedImages (r_url variant), st)
  | None =>
      match findCachedVariant loadedImages photo with
      | Some cachedVariant =>
          (cachedVariant, true,
           mkHero (Some cachedVariant) (hasMounted st) (viewportWidth st))
      | None =>
          if hasMounted st then
            let variant := getResponsiveVariant photo (viewportWidth st) in
            (variant, false, mkHero (Some variant) (hasMounted st) (viewportWidth st))
          else (initial_variant photo, false, st)
      end
  end.

(** [isCached ? variant.url : photo.blurDataUrl] *)
Definition backgroundUrl (photo : PhotoManifest.t) (variant : Rendition)
    (isCached : bool) : string :=
  if isCached then r_url variant else PhotoManifest.blurDataUrl photo.

(** What can happen to a page that shows one HeroImage: the mount effect
    and the resize listener set the state, the image's [onLoad] runs
    [handleLoad] of the latest render, another component marks a url in the
    shared cache, and the component renders. *)
Inductive HeroEvent :=
| Mounted (innerWidth : Z)
| Resized (innerWidth : Z)
| ImageLoaded
| MarkedElsewhere (url : string)
| Rendered.

(** The page: the shared cache, the component's state, and the variant of
    its latest render (none before the first). *)
Record Page := mkPage {
  loadedImages : gset string;
  hero : HeroState;
  shown : option Rendition
}.

Definition page_init : Page := mkPage loadedImages_init hero_init None.

Definition page_step (photo : PhotoManifest.t) (p : Page) (e : HeroEvent) : Page :=
  match e with
  | Mounted w =>
      mkPage (loadedImages p) (mkHero (lockedVariantRef (hero p)) true w) (shown p)
  | Resized w =>
      mkPage (loadedImages p)
             (mkHero (lockedVariantRef (hero p)) (hasMounted (hero p)) w) (shown p)
  | ImageLoaded =>
      match shown p with
      | Some variant =>
          mkPage (markImageLoaded (loadedImages p) (r_url variant))
                 (mkHero (Some variant) (hasMounted (hero p)) (viewportWidth (hero p)))
                 (shown p)
      | None => p
      end
  | MarkedElsewhere url =>
      mkPage (markImageLoaded (loadedImages p) url) (hero p) (shown p)
  | Rendered =>
      let '(variant, _, st) := render (loadedImages p) photo (hero p) in
      mkPage (loadedImages p) st (Some variant)
  end.

Definition page_run (photo : PhotoManifest.t) (events : list HeroEvent) (p : Page)
  : Page :=
  fold_left (page_step photo) events p.

End Components.

(** ** [app/gallery/page.tsx]: chronological order of photos and categories *)

Module GalleryPage.

Local Open Scope Z_scope.

Definition is_digit (c : ascii) : bool :=
  (("0" <=? c) && (c <=? "9"))%char.

(** A letter of the pattern under the [i] flag. *)
Definition is_letter (upper lower c : ascii) : bool :=
  bool_decide (c = upper) || bool_decide (c = lower).

(** [category.match(/(\d{1,2})(AM|PM)$/i)]: the digits of group 1 and whether
    group 2 is PM in some letter case.  The pattern is anchored at the end
    of the string, so a match ends with A or P, then M, preceded by a
    digit; the search takes the leftmost start, which is two digits back
    when the character before that digit is a digit too.  The string is
    read from its end. *)
Definition match_time (category : string) : option (list ascii * bool) :=
  match rev (String.list_ascii_of_string category) with
  | m :: ap :: d1 :: before =>
      if is_letter "M" "m" m
         && (is_letter "A" "a" ap || is_letter "P" "p" ap)
         && is_digit d1
      then
        let digits :=
          match before with
          | d2 :: _ => if is_digit d2 then [d2; d1] else [d1]
          | [] => [d1]
          end in
        Some (digits, is_letter "P" "p" ap)
      else None
  | _ => None
  end.

(** [parseInt(digits, 10)] on a string of decimal digits. *)
Definition parseInt (digits : list ascii) : Z :=
  fold_left (fun n c => 10 * n + (Z.of_nat (nat_of_ascii c) - 48)) digits 0.

Definition getCategoryTimeValue (category : string) : Z :=
  match match_time category with
  | None => 0
  | Some (digits, isPM) =>
      let hour := parseInt digits in
      let hour := if isPM && negb (hour =? 12) then hour + 12 else hour in
      let hour := if negb isPM && (hour =? 12) then 0 else hour in
      hour
  end.

(** [arr.sort(comparefn)]: the sort is stable, and for a comparator that
    orders by an integer key its result is the one stable ordering, which
    insertion from the right computes. *)
Fixpoint sort_insert {A} (comparefn : A -> A -> Z) (x : A) (sorted : list A)
  : list A :=
  match sorted with
  | [] => [x]
  | y :: rest =>
      if comparefn x y <=? 0 then x :: y :: rest
      else y :: sort_insert comparefn x rest
  end.

Definition sort {A} (comparefn : A -> A -> Z) (arr : list A) : list A :=
  foldr (sort_insert comparefn) [] arr.

(** [Array.from(new Set(values))]: the values without repeats, each at its
    first occurrence. *)
Definition unique (values : list string) : list string :=
  fold_left (fun seen v => if bool_decide (v ∈ seen) then seen else (seen ++ [v])%list)
            values [].

Definition byTime (a b : string) : Z :=
  getCategoryTimeValue a - getCategoryTimeValue b.

(** What [GalleryPage] hands to [GalleryView], from the photos
    [getAllImages] resolved to. *)
Definition categories (photos : list PhotoManifest.t) : list string :=
  sort byTime (unique (map PhotoManifest.category photos)).

Definition sortedPhotos (photos : list PhotoManifest.t) : list PhotoManifest.t :=
  sort (fun a b => byTime (PhotoManifest.category a) (PhotoManifest.category b))
       photos.

End GalleryPage.

(** ** [components/gallery/GalleryView.tsx]: filter, paging and category
    boundaries *)

Module GalleryView.

Local Open Scope nat_scope.

Definition BATCH_SIZE : nat := 30.











(** The callback of [visiblePhotos.forEach((photo, index) => ...)] on the
    pair of [currentCategory] and [boundaries]. *)
Definition boundary_step (st : string * list (string * nat))
    (ip : nat * PhotoManifest.t) : string * list (string * nat) :=
  let '(currentCategory, boundaries) := st in
  let '(index, photo) := ip in
  if bool_decide (PhotoManifest.category photo <> currentCategory)
  then (PhotoManifest.category photo,
        (boundaries ++ [(PhotoManifest.category photo, index)])%list)
  else (currentCategory, boundaries).

Definition categoryBoundaries (selectedCategory : option string)
    (visible : list PhotoManifest.t) : list (string * nat) :=
  if truthy selectedCategory then []
  else (fold_left boundary_step (UploadImages.indexed visible) (""%string, [])).2.

End GalleryView.

(** ** [app/gallery/[photoId]/page.tsx]: the page of one photo *)

Module PhotoPage.

(** The metadata object, as far as [generateMetadata] sets it. *)
Record Metadata := mkMetadata {
  title : string;
  description : option string;
  openGraph_image : option string
}.

(** What the page component does: [notFound()], or the gallery view with
    its two props. *)
Inductive PageResult :=
| NotFound
| View (photos : list PhotoManifest.t) (categories : list string).

Section Page.

Variable readFile : result string.
Variable JSON_parse : string -> result (list PhotoManifest.t).

(** An array in place of the photo is truthy, and reading
    [photo.variants.desktop] on it throws. *)
Definition generateMetadata (photoId : string) : result Metadata :=
  match GalleryServer.getImageById readFile JSON_parse photoId with
  | GalleryServer.Null => Ok (mkMetadata "Photo Not Found | The Wedding" None None)
  | GalleryServer.One photo =>
      Ok (mkMetadata
            (PhotoManifest.category photo ++ " | Gallery | The Wedding")
            (Some ("Wedding photo from " ++ PhotoManifest.category photo))
            (Some (Components.or_else (Components.variant_url photo "desktop")
                                      (PhotoManifest.url photo))))
  | GalleryServer.Many _ => Throw TypeError
  end.

(** [photos.find] on a value that is not an array throws. *)
Definition PhotoPage (photoId : string) : result PageResult :=
  match GalleryServer.getAllImages readFile JSON_parse with
  | GalleryServer.Many photos =>
      match find (fun p => bool_decide (PhotoManifest.id p = photoId)) photos with
      | None => Ok NotFound
      | Some _ =>
          Ok (View (GalleryPage.sortedPhotos photos) (GalleryPage.categories photos))
      end
  | _ => Throw TypeError
  end.

End Page.

End PhotoPage.

(** ** [scripts/optimize-images.ts]: tree walker *)

Module TreeWalker.

(** What the walker sees of the file system: named entries, a directory
    with its entries in the order [fs.readdirSync] returns them. *)
#[local] Unset Elimination Schemes.
Inductive Node :=
| FileNode (file : string)
| DirNode (file : string) (entries : list Node).
#[local] Set Elimination Schemes.

Definition to_lower (c : ascii) : ascii :=
  if (("A" <=? c) && (c <=? "Z"))%char
  then ascii_of_nat (nat_of_ascii c + 32)
  else c.

Fixpoint starts_with (prefix s : list ascii) : bool :=
  match prefix, s with
  | [], _ => true
  | p :: prefix', c :: s' => bool_decide (p = c) && starts_with prefix' s'
  | _ :: _, [] => false
  end.

Definition ends_with (suffix s : list ascii) : bool :=
  starts_with (rev suffix) (rev s).

(** [/\.(jpg|jpeg|png|webp|avif)$/i.test(file)] *)
Definition is_image (file : string) : bool :=
  let name := map to_lower (String.list_ascii_of_string file) in
  existsb (fun ext => ends_with (String.list_ascii_of_string ext) name)
          [".jpg"; ".jpeg"; ".png"; ".webp"; ".avif"]%string.

Section Walk.

Variable path_join : string -> string -> string.

(** The body of the loop [for (const file of files)] on one entry of [dir]. *)
Fixpoint visit (dir : string) (node : Node) (fileList : list string)
  : list string :=
  match node with
  | DirNode file entries =>
      fold_left (fun fileList entry => visit (path_join dir file) entry fileList)
                entries fileList
  | FileNode file =>
      if is_image file then (fileList ++ [path_join dir file])%list else fileList
  end.

(** [getAllFiles(dir, fileList)] on the entries of [dir]. *)
Definition getAllFiles (dir : string) (files : list Node) (fileList : list string)
  : list string :=
  fold_left (fun fileList entry => visit dir entry fileList) files fileList.

End Walk.

End TreeWalker.

(** ** Predicates used to state the properties of the scripts, components and pages *)

Module Statements.

(** Every file that exists can be read. *)
Definition reads_succeed (existsSync : string -> bool)
    (readFileSync : string -> result (list Byte.byte)) : Prop :=
  forall p, existsSync p = true -> exists buffer, readFileSync p = Ok buffer.

(** Every variant of the metadata names its local file. *)
Definition paths_present (metadataList : list ImageMetadata.t) : Prop :=
  forall meta size variant,
    meta ∈ metadataList ->
    (size, variant) ∈ ImageMetadata.variants meta ->
    is_Some (ImageVariant.relativePath variant).

(** The photo index and variant name a queued job stands for. *)
Definition job_key (job : UploadImages.Job) : nat * string :=
  (UploadImages.metaIndex job, UploadImages.sizeName job).

(** The variant names of one photo whose local files are on disk, in the
    order of the metadata. *)
Definition sizes_on_disk (inputDir : string)
    (path_join : string -> string -> string) (existsSync : string -> bool)
    (meta : ImageMetadata.t) : list string :=
  omap (fun entry : string * ImageVariant.t =>
          match ImageVariant.relativePath entry.2 with
          | Some rel =>
              if existsSync (path_join inputDir rel) then Some entry.1 else None
          | None => None
          end)
       (ImageMetadata.variants meta).

(** An upload service on which no upload succeeds: every call rejects, or
    resolves to results without data. *)
Definition service_never_stores {S : Type}
    (uploadFiles : S -> list UploadImages.File ->
                   S * result (list UploadImages.UploadFileResult)) : Prop :=
  forall s files s' responses,
    uploadFiles s files = (s', Ok responses) ->
    Forall (fun res => UploadImages.data res = None) responses.

(** An upload service that stores every file: every call resolves to one
    result with data per file. *)
Definition service_stores_all {S : Type}
    (uploadFiles : S -> list UploadImages.File ->
                   S * result (list UploadImages.UploadFileResult)) : Prop :=
  forall s files, exists s' responses,
    uploadFiles s files = (s', Ok responses) /\
    length responses = length files /\
    Forall (fun res => is_Some (UploadImages.data res)) responses.

(** The upload of a job is recorded in the upload map. *)
Definition recorded
    (uploaded : gmap nat (JsObject.t UploadImages.UploadedFileData))
    (job : UploadImages.Job) : Prop :=
  exists uploadedVariants d,
    uploaded !! UploadImages.metaIndex job = Some uploadedVariants /\
    JsObject.get uploadedVariants (UploadImages.sizeName job) = Some d.

(** The metadata is typed as [ImageMetadata]: its variant names are among
    mobile, tablet, desktop and full. *)
Definition typed_metadata (metadataList : list ImageMetadata.t) : Prop :=
  forall meta k, meta ∈ metadataList ->
    k ∈ JsObject.keys (ImageMetadata.variants meta) -> k ∈ VARIANT_NAMES.

(** What a manifest entry takes over from the photo's metadata unchanged. *)
Definition entry_summary (entry : PhotoManifest.t) : string * string * string :=
  (PhotoManifest.blurDataUrl entry, PhotoManifest.category entry,
   PhotoManifest.timeOfDay entry).

Definition photo_summary (meta : ImageMetadata.t) : string * string * string :=
  (ImageMetadata.blurDataUrl meta,
   (UploadImages.folder_metadata (ImageMetadata.relativePathBase meta)).1,
   (UploadImages.folder_metadata (ImageMetadata.relativePathBase meta)).2).

(** The recorded urls of an upload map are non-empty. *)
Definition urls_nonempty
    (uploaded : gmap nat (JsObject.t UploadImages.UploadedFileData)) : Prop :=
  forall idx uploadedVariants k d,
    uploaded !! idx = Some uploadedVariants ->
    JsObject.get uploadedVariants k = Some d -> UploadImages.url d <> "".


(** A rendition the entry offers: one of its four named variants that has a
    non-empty url, or its top-level url, width and height. *)
Definition offers (photo : PhotoManifest.t) (r : Gallery.Rendition) : Prop :=
  r = Gallery.top_level photo \/
  exists key,
    key ∈ VARIANT_NAMES /\
    Gallery.with_url (JsObject.get (PhotoManifest.variants photo) key) = Some r.

(** The variant of the latest render is the locked one, when one is locked. *)
Definition lock_shown (p : Components.Page) : Prop :=
  forall v,
    Components.lockedVariantRef (Components.hero p) = Some v ->
    Components.shown p = Some v.


(** The decimal digits of an hour from 1 to 12, as a category name writes it. *)
Definition hour_digits (h : Z) : string :=
  if (h <? 10)%Z
  then String (ascii_of_nat (Z.to_nat (48 + h))) ""
  else String "1" (String (ascii_of_nat (Z.to_nat (38 + h))) "").

(** The last character of a string is a decimal digit. *)
Definition ends_with_digit (s : string) : bool :=
  match rev (String.list_ascii_of_string s) with
  | c :: _ => GalleryPage.is_digit c
  | [] => false
  end.

(** The time value of a photo's category. *)
Definition photo_time (photo : PhotoManifest.t) : Z :=
  GalleryPage.getCategoryTimeValue (PhotoManifest.category photo).


(** The category of the photo before position [i] in the grid, and the
    empty string before the first photo. *)
Definition prev_category (visible : list PhotoManifest.t) (i : nat) : string :=
  match i with
  | O => ""
  | S j => from_option PhotoManifest.category "" (visible !! j)
  end.


(** The files below an entry of [dir], each with the directory it is in:
    depth first, in the order of the directory listings. *)
Fixpoint leaves (path_join : string -> string -> string) (dir : string)
    (node : TreeWalker.Node) : list (string * string) :=
  match node with
  | TreeWalker.FileNode file => [(dir, file)]
  | TreeWalker.DirNode file entries =>
      flat_map (leaves path_join (path_join dir file)) entries
  end.

(** A metadata record as the uploader reads it: the four variant names in
    the order of [SIZES], each variant with a local path and no url. *)
Definition optimizer_record (meta : ImageMetadata.t) : Prop :=
  JsObject.keys (ImageMetadata.variants meta) = VARIANT_NAMES /\
  forall size variant,
    (size, variant) ∈ ImageMetadata.variants meta ->
    is_Some (ImageVariant.relativePath variant) /\ ImageVariant.url variant = None.




(** The upload service called on the blocks of the queue one after the
    other: the call for a block starts from the state in which the call for
    the block before it left the service, and its outcome is what the
    service answered (a list of results, or a rejection). *)
Fixpoint sequential_calls {S : Type}
    (uploadFiles : S -> list UploadImages.File ->
                   S * result (list UploadImages.UploadFileResult))
    (blocks : list (list UploadImages.Job)) (s : S)
  : S * list (result (list UploadImages.UploadFileResult)) :=
  match blocks with
  | [] => (s, [])
  | block :: rest =>
      let '(s', outcome) := uploadFiles s (map UploadImages.file block) in
      let '(s'', outcomes) := sequential_calls uploadFiles rest s' in
      (s'', outcome :: outcomes)
  end.

(** A call resolved, rather than rejected. *)
Definition resolved {A : Type} (outcome : result A) : bool :=
  match outcome with
  | Ok _ => true
  | Throw _ => false
  end.

(** The upload map after the outcome of the call for one block: the results
    of a resolved call are recorded job by job, a rejected call records
    nothing. *)
Definition record_outcome
    (uploaded : gmap nat (JsObject.t UploadImages.UploadedFileData))
    (bo : list UploadImages.Job * result (list UploadImages.UploadFileResult))
  : gmap nat (JsObject.t UploadImages.UploadedFileData) :=
  match bo.2 with
  | Ok responses =>
      (fold_left UploadImages.record_response (combine bo.1 responses)
                 (uploaded, [])).1
  | Throw _ => uploaded
  end.


(** The position of the first occurrence of a value in a list (the length
    of the list when it does not occur). *)
Definition first_position (values : list string) (v : string) : nat :=
  match list_find (fun x => x = v) values with
  | Some (i, _) => i
  | None => length values
  end.

(** One category comes before another in the tabs: its time value is
    smaller, or the time values are equal and its first photo comes earlier
    in the manifest. *)
Definition category_before (values : list string) (a b : string) : Prop :=
  (GalleryPage.getCategoryTimeValue a < GalleryPage.getCategoryTimeValue b)%Z \/
  (GalleryPage.getCategoryTimeValue a = GalleryPage.getCategoryTimeValue b /\
   (first_position values a < first_position values b)%nat).


(** A manifest entry is the entry of a photo: its id and url are the key
    and url of the default upload recorded under the photo's own index, its
    width and height are those of the photo's variant of that name, and its
    blur placeholder, category and time of day are the photo's. *)
Definition entry_of_photo
    (uploaded : gmap nat (JsObject.t UploadImages.UploadedFileData))
    (entry : PhotoManifest.t) (im : nat * ImageMetadata.t) : Prop :=
  exists uploadedVariants k up variant,
    uploaded !! im.1 = Some uploadedVariants /\
    UploadImages.default_choice uploadedVariants k /\
    JsObject.get uploadedVariants k = Some up /\
    JsObject.get (ImageMetadata.variants im.2) k = Some variant /\
    PhotoManifest.id entry = UploadImages.key up /\
    PhotoManifest.url entry = UploadImages.url up /\
    PhotoManifest.width entry = ImageVariant.width variant /\
    PhotoManifest.height entry = ImageVariant.height variant /\
    entry_summary entry = photo_summary im.2.


(** The url, width and height of a variant of a manifest entry. *)
Definition rendition_of (variant : ImageVariant.t) : Gallery.Rendition :=
  Gallery.mkRendition (default ""%string (ImageVariant.url variant))
    (ImageVariant.width variant) (ImageVariant.height variant).

(** The selection policy as the specification words it: the first variant
    of a preference list that the entry has, else the entry's top-level
    url, width and height. *)
Fixpoint first_present (prefs : list string) (photo : PhotoManifest.t)
  : Gallery.Rendition :=
  match prefs with
  | [] => Gallery.top_level photo
  | name :: rest =>
      match JsObject.get (PhotoManifest.variants photo) name with
      | Some variant => rendition_of variant
      | None => first_present rest photo
      end
  end.

End Statements.

(** * Sample data *)

Module Samples.

Local Open Scope Z_scope.

Definition remote (u : string) (w h : Z) : ImageVariant.t :=
  ImageVariant.mk w h None (Some u).

Definition photo_a : PhotoManifest.t :=
  PhotoManifest.mk "key-a" "Ceremony" "Afternoon" "data:image/jpeg;base64,AA"
    [("desktop", remote "https://cdn.example/a.webp" 1920 1280)]
    "https://cdn.example/a.webp" 1920 1280.

Definition photo_b : PhotoManifest.t :=
  PhotoManifest.mk "key-b" "Reception" "Evening" "data:image/jpeg;base64,BB"
    [("desktop", remote "https://cdn.example/b.webp" 1920 1280)]
    "https://cdn.example/b.webp" 1920 1280.

(** A manifest file that parses to [photo_a; photo_b]. *)
Definition manifest_file : result string := Ok "[a, b]".
Definition manifest_parse (data : string) : result (list PhotoManifest.t) :=
  Ok [photo_a; photo_b].

(** Local metadata of one photo: four variants named as in [SIZES]. *)
Definition local (rel : string) (w h : Z) : ImageVariant.t :=
  ImageVariant.mk w h (Some rel) None.

Definition meta_a : ImageMetadata.t :=
  ImageMetadata.mk "a.jpg" "Ceremony/Afternoon"
    [("mobile", local "Ceremony/Afternoon/a-mobile.webp" 640 427);
     ("tablet", local "Ceremony/Afternoon/a-tablet.webp" 1280 853);
     ("desktop", local "Ceremony/Afternoon/a-desktop.webp" 1920 1280);
     ("full", local "Ceremony/Afternoon/a-full.webp" 3000 2000)]
    "data:image/jpeg;base64,AA".

(** A photo directly under the source root, whose files are not on disk. *)
Definition meta_root : ImageMetadata.t :=
  ImageMetadata.mk "r.jpg" ""
    [("mobile", local "r-mobile.webp" 640 427);
     ("tablet", local "r-tablet.webp" 1280 853);
     ("desktop", local "r-desktop.webp" 1920 1280);
     ("full", local "r-full.webp" 3000 2000)]
    "data:image/jpeg;base64,RR".

Definition metadataList : list ImageMetadata.t := [meta_a; meta_root].

(** An environment for the upload script: the files of [meta_a] exist, and
    the service stores every file except the desktop variant. *)
Definition inputDir : string := "photos-optimized".
Definition path_join (a b : string) : string := a ++ "/" ++ b.
Definition path_basename (p : string) : string := p.
Definition existsSync (p : string) : bool :=
  bool_decide (p ∈ map (path_join inputDir)
                 ["Ceremony/Afternoon/a-mobile.webp"; "Ceremony/Afternoon/a-tablet.webp";
                  "Ceremony/Afternoon/a-desktop.webp"; "Ceremony/Afternoon/a-full.webp"]).
Definition readFileSync (p : string) : result (list Byte.byte) := Ok [].

Definition respond (f : UploadImages.File) : UploadImages.UploadFileResult :=
  if bool_decide (UploadImages.file_name f
                  = "photos-optimized/Ceremony/Afternoon/a-desktop.webp")
  then UploadImages.mkResult None (Some "upload failed")
  else UploadImages.mkResult
         (Some (UploadImages.mkData ("https://cdn.example/f/" ++ UploadImages.file_name f)
                                    ("key:" ++ UploadImages.file_name f)))
         None.

Definition uploadFiles (calls : nat) (files : list UploadImages.File)
  : nat * result (list UploadImages.UploadFileResult) :=
  (S calls, Ok (map respond files)).

(** The queue and the upload record of [meta_a] in that environment. *)
Definition uploadQueue : list UploadImages.Job :=
  let job size :=
    let p := path_join inputDir ("Ceremony/Afternoon/a-" ++ size ++ ".webp") in
    UploadImages.mkJob p (UploadImages.mkFile [] p) 0 size in
  [job "mobile"; job "tablet"; job "desktop"; job "full"].

Definition uploaded_a : JsObject.t UploadImages.UploadedFileData :=
  let up size :=
    let p := path_join inputDir ("Ceremony/Afternoon/a-" ++ size ++ ".webp") in
    (size, UploadImages.mkData ("https://cdn.example/f/" ++ p) ("key:" ++ p)) in
  [up "mobile"; up "tablet"; up "full"].

Definition uploadedUrls : gmap nat (JsObject.t UploadImages.UploadedFileData) :=
  {[ 0%nat := uploaded_a ]}.

(** A stand-in for [sharp]: an image is its pixel size; resizing to a width
    keeps the aspect ratio and, with [withoutEnlargement], leaves an image
    that is already narrow enough as it is; re-encoding keeps the size. *)
Definition Image : Type := Z * Z.
Definition image_width (img : Image) : Z := img.1.
Definition image_height (img : Image) : Z := img.2.
Definition decode (buffer : list Byte.byte) : result Image := Ok (3000, 2000).
Definition resize (opts : OptimizeImages.ResizeOptions) (img : Image) : Image :=
  if OptimizeImages.withoutEnlargement opts
     && (image_width img <=? OptimizeImages.resize_width opts)
  then img
  else (OptimizeImages.resize_width opts,
        image_height img * OptimizeImages.resize_width opts / image_width img).
Definition webp (quality : Z) (img : Image) : Image := img.
Definition generatePlaceholder (buffer : list Byte.byte) : result string :=
  Ok "data:image/jpeg;base64,AA".
Definition path_relative (from to : string) : string := "Reception/Evening".
Definition path_dirname (p : string) : string := "raw/Reception/Evening".
Definition path_parse_name (fileName : string) : string := "a".

(** Two more upload services: one on which every upload fails, and one that
    stores every file. *)
Definition uploadFiles_failing (calls : nat) (files : list UploadImages.File)
  : nat * result (list UploadImages.UploadFileResult) :=
  (S calls,
   Ok (map (fun _ => UploadImages.mkResult None (Some "upload failed")) files)).

Definition respond_all (f : UploadImages.File) : UploadImages.UploadFileResult :=
  UploadImages.mkResult
    (Some (UploadImages.mkData ("https://cdn.example/f/" ++ UploadImages.file_name f)
                               ("key:" ++ UploadImages.file_name f)))
    None.

Definition uploadFiles_storing (calls : nat) (files : list UploadImages.File)
  : nat * result (list UploadImages.UploadFileResult) :=
  (S calls, Ok (map respond_all files)).

(** The manifest assembled from the sample metadata and upload record, and
    its entry. *)
Definition assembled : list PhotoManifest.t :=
  Eval vm_compute in
    match UploadImages.construct_manifest metadataList uploadedUrls with
    | Ok manifest => manifest
    | Throw _ => []
    end.

Definition entry_a : PhotoManifest.t := hd photo_a assembled.

(** An upload record without the full variant, and the entry assembled
    from it. *)
Definition uploadedUrls_without_full
  : gmap nat (JsObject.t UploadImages.UploadedFileData) :=
  let up size :=
    let p := path_join inputDir ("Ceremony/Afternoon/a-" ++ size ++ ".webp") in
    (size, UploadImages.mkData ("https://cdn.example/f/" ++ p) ("key:" ++ p)) in
  {[ 0%nat := [up "tablet"; up "desktop"] ]}.

Definition assembled_without_full : list PhotoManifest.t :=
  Eval vm_compute in
    match UploadImages.construct_manifest metadataList uploadedUrls_without_full with
    | Ok manifest => manifest
    | Throw _ => []
    end.

Definition entry_without_full : PhotoManifest.t := hd photo_a assembled_without_full.

(** A manifest entry with a mobile and a full variant. *)
Definition photo_with_mobile : PhotoManifest.t :=
  PhotoManifest.mk "key-m" "Bridal Party 2PM" "Afternoon" "data:image/jpeg;base64,MM"
    [("mobile", remote "https://cdn.example/m-mobile.webp" 640 427);
     ("full", remote "https://cdn.example/m-full.webp" 3000 2000)]
    "https://cdn.example/m-full.webp" 3000 2000.

End Samples.

(** * Responsive variant selector *)

Section GalleryFacts.

Import Gallery.
Local Open Scope Z_scope.

Lemma with_url_some_iff (v : option ImageVariant.t) (r : Rendition) :
  with_url v = Some r <->
  exists iv, v = Some iv /\ ImageVariant.url iv = Some (r_url r) /\
             r_url r <> "" /\
             r_width r = ImageVariant.width iv /\
             r_height r = ImageVariant.height iv.
Proof.
  unfold with_url, truthy. split.
  - destruct v as [iv|]; [|discriminate].
    destruct (ImageVariant.url iv) as [u|] eqn:Hu; [|discriminate].
    case_bool_decide; simpl; [discriminate|].
    intros [= <-]. exists iv. simpl. auto.
  - intros (iv & -> & Hu & Hne & Hw & Hh). rewrite Hu.
    rewrite bool_decide_eq_false_2 by assumption. simpl.
    destruct r; simpl in *; congruence.
Qed.

(** The selector on any photo: up to the tablet breakpoint (1280) it
    returns the first of tablet, desktop, full that is present with a
    non-empty url; between the tablet and the desktop breakpoint (1920) the
    first of desktop, full; above the desktop breakpoint the full variant
    only; when none qualifies, the photo's top-level url, width and height. *)
Lemma getResponsiveVariant_policy (photo : PhotoManifest.t) (w : Z) :
  (w <= BREAKPOINTS_tablet ->
     getResponsiveVariant photo w = first_usable ["tablet"; "desktop"; "full"] photo) /\
  (BREAKPOINTS_tablet < w <= BREAKPOINTS_desktop ->
     getResponsiveVariant photo w = first_usable ["desktop"; "full"] photo) /\
  (BREAKPOINTS_desktop < w ->
     getResponsiveVariant photo w = first_usable ["full"] photo).
Proof.
  unfold getResponsiveVariant, BREAKPOINTS_tablet, BREAKPOINTS_desktop.
  repeat split; intros Hw; simpl.
  - assert ((w <=? 1280) = true) as -> by lia.
    assert ((w <=? 1920) = true) as -> by lia.
    reflexivity.
  - assert ((w <=? 1280) = false) as -> by lia.
    assert ((w <=? 1920) = true) as -> by lia.
    reflexivity.
  - assert ((w <=? 1280) = false) as -> by lia.
    assert ((w <=? 1920) = false) as -> by lia.
    reflexivity.
Qed.

End GalleryFacts.

(** * Load-state cache *)

Section ImageCacheFacts.

Import ImageCache.

Lemma run_app (calls1 calls2 : list call) (s : gset string) :
  run (calls1 ++ calls2) s = run calls2 (run calls1 s).
Proof. apply fold_left_app. Qed.

(** Marks are never undone: the cache only grows along a session. *)
Lemma run_mono (calls : list call) (s : gset string) : s ⊆ run calls s.
Proof.
  revert s. induction calls as [|c calls IH]; intros s; simpl; [done|].
  etransitivity; [|apply IH].
  destruct c; simpl; unfold markImageLoaded; [done| |done].
  apply union_subseteq_r.
Qed.

(** A url is in the cache after a session exactly when it was there
    before or the session marked it. *)
Lemma elem_of_run (calls : list call) (s : gset string) (u : string) :
  u ∈ run calls s <-> u ∈ s \/ MarkImageLoaded u ∈ calls.
Proof.
  revert s. induction calls as [|c calls IH]; intros s; simpl.
  - rewrite elem_of_nil. tauto.
  - unfold run in IH. rewrite IH, elem_of_cons.
    destruct c as [v|v|v b]; simpl; unfold markImageLoaded.
    + split; [intros [?|?]; auto | intros [?|[?|?]]; auto; discriminate].
    + rewrite elem_of_union, elem_of_singleton.
      split; [intros [[->|?]|?]; auto | intros [?|[Heq|?]]; auto].
      injection Heq as ->. auto.
    + split; [intros [?|?]; auto | intros [?|[?|?]]; auto; discriminate].
Qed.

(** C7.  Marking a url twice leaves the cache as marking it once does;
    starting from the empty cache of a new session, a url that no call
    marked is reported not loaded; and once a url is marked it is reported
    loaded after any further sequence of calls. *)
Theorem image_cache_idempotent_membership
    (u : string) (loadedImages : gset string) (calls : list call) :
  markImageLoaded (markImageLoaded loadedImages u) u
    = markImageLoaded loadedImages u /\
  (MarkImageLoaded u ∉ calls ->
     isImageLoaded (run calls loadedImages_init) u = false) /\
  isImageLoaded (run calls (markImageLoaded loadedImages u)) u = true.
Proof.
  unfold isImageLoaded, loadedImages_init. repeat split.
  - unfold markImageLoaded.
    by rewrite (assoc_L (∪)), (idemp_L (∪)).
  - intros Hnever. apply bool_decide_eq_false_2.
    rewrite elem_of_run. intros [Hin|Hin]; [|done].
    by apply not_elem_of_empty in Hin.
  - apply bool_decide_eq_true_2. apply elem_of_run. left.
    unfold markImageLoaded. apply elem_of_union_l. by apply elem_of_singleton.
Qed.

End ImageCacheFacts.

(** * Manifest reader *)

Section GalleryServerFacts.

Import GalleryServer.

Variable readFile : result string.
Variable JSON_parse : string -> result (list PhotoManifest.t).

Lemma readManifest_unavailable :
  manifest_unavailable readFile JSON_parse -> readManifest readFile JSON_parse = [].
Proof.
  unfold readManifest.
  intros [[e ->] | (data & e & -> & Hparse)]; simpl; [done|].
  unfold mbind, result_bind. by rewrite Hparse.
Qed.

(** C6.  Soft fail of the manifest reader: when the manifest file is
    missing or its content does not parse, no lookup raises an error;
    [getAllImages] and [getImagesByCategory] return the empty list and
    [getImageById], for the non-empty ids its callers pass, returns null. *)
Theorem reader_soft_fail (category id : string) :
  manifest_unavailable readFile JSON_parse ->
  getAllImages readFile JSON_parse = Many [] /\
  getImagesByCategory readFile JSON_parse category = Many [] /\
  (id <> "" -> getImageById readFile JSON_parse id = Null).
Proof.
  intros Hbad.
  unfold getAllImages, getImagesByCategory, getImageById, getImages.
  rewrite (readManifest_unavailable Hbad). simpl. repeat split.
  - by destruct (negb _).
  - intros Hid. by rewrite bool_decide_eq_false_2.
Qed.

(** C10.  When the id option is set (a non-empty string), [getImages]
    answers as the id-only lookup does, whatever the category option is:
    the first entry of the manifest with that id, or null when there is
    none; the category is not consulted. *)
Theorem getImages_id_precedence (id category : string) :
  id <> "" ->
  getImages readFile JSON_parse (Some (mkOptions (Some category) (Some id)))
    = getImages readFile JSON_parse (Some (mkOptions None (Some id))) /\
  getImages readFile JSON_parse (Some (mkOptions (Some category) (Some id)))
    = match find (fun photo => bool_decide (PhotoManifest.id photo = id))
                 (readManifest readFile JSON_parse) with
      | Some photo => One photo
      | None => Null
      end.
Proof.
  intros Hid. unfold getImages. simpl.
  rewrite bool_decide_eq_false_2 by assumption. simpl. split; [reflexivity|].
  set (manifest := readManifest readFile JSON_parse).
  assert (Hfind : forall l,
    find (fun photo => bool_decide (Some (PhotoManifest.id photo) = Some id)) l
    = find (fun photo => bool_decide (PhotoManifest.id photo = id)) l).
  { induction l as [|p l IH]; simpl; [done|].
    rewrite IH. destruct (decide (PhotoManifest.id p = id)) as [Heq|Hne].
    - rewrite !bool_decide_eq_true_2; congruence.
    - rewrite !bool_decide_eq_false_2; congruence. }
  by rewrite Hfind.
Qed.

End GalleryServerFacts.

(** C10 at a concrete manifest: looking up "key-b" finds the second entry
    although the category asked for is that of the first. *)
Lemma getImages_id_precedence_witness :
  "key-b" <> "" /\
  GalleryServer.getImages Samples.manifest_file Samples.manifest_parse
    (Some (GalleryServer.mkOptions (Some "Ceremony") (Some "key-b")))
  = GalleryServer.One Samples.photo_b.
Proof.
  split; [discriminate|].
  destruct (getImages_id_precedence Samples.manifest_file Samples.manifest_parse
              "key-b" "Ceremony") as [_ ->]; [discriminate | reflexivity].
Defined.

(** C6 on a manifest file that is present and does not parse: the three
    lookups give the empty list, the empty list and null. *)
Lemma reader_soft_fail_witness :
  GalleryServer.getAllImages (Ok "{") (fun _ => Throw SyntaxError)
  = GalleryServer.Many [] /\
  GalleryServer.getImagesByCategory (Ok "{") (fun _ => Throw SyntaxError) "Ceremony"
  = GalleryServer.Many [] /\
  GalleryServer.getImageById (Ok "{") (fun _ => Throw SyntaxError) "key-a"
  = GalleryServer.Null.
Proof.
  destruct (reader_soft_fail (Ok "{") (fun _ => Throw SyntaxError) "Ceremony" "key-a")
    as (Hall & Hcategory & Hid).
  - right. exists "{", SyntaxError. split; reflexivity.
  - split; [exact Hall|]. split; [exact Hcategory|]. apply Hid. discriminate.
Defined.

(** * Objects and [forEach] *)

Section JsObjectFacts.

Import JsObject.
Context {V : Type}.
Implicit Types (o : JsObject.t V) (k : string) (v : V).

Lemma get_set_eq o k v : get (set o k v) k = Some v.
Proof.
  induction o as [|[k' v'] o IH]; simpl.
  - by rewrite decide_True.
  - destruct (decide (k' = k)) as [->|Hne]; simpl.
    + by rewrite decide_True.
    + by rewrite decide_False.
Qed.

Lemma get_set_ne o k k' v : k <> k' -> get (set o k v) k' = get o k'.
Proof.
  intros Hne. induction o as [|[k0 v0] o IH]; simpl.
  - by rewrite decide_False.
  - destruct (decide (k0 = k)) as [->|Hne0]; simpl.
    + by rewrite !decide_False.
    + destruct (decide (k0 = k')); [done | apply IH].
Qed.

Lemma elem_of_keys_get o k : k ∈ keys o <-> is_Some (get o k).
Proof.
  unfold keys. induction o as [|[k' v'] o IH]; simpl.
  - rewrite elem_of_nil. split; [done | by intros [? ?]].
  - rewrite elem_of_cons. destruct (decide (k' = k)) as [->|Hne].
    + split; eauto.
    + rewrite IH. split; [intros [?|?]; [congruence | done] | auto].
Qed.

Lemma elem_of_keys_set o k k' v : k' ∈ keys (set o k v) <-> k' = k \/ k' ∈ keys o.
Proof.
  rewrite !elem_of_keys_get. destruct (decide (k = k')) as [->|Hne].
  - rewrite get_set_eq. split; eauto.
  - rewrite get_set_ne by done. split; [auto | intros [?|?]; [congruence | done]].
Qed.

Lemma set_not_nil o k v : set o k v <> [].
Proof. destruct o as [|[k' v'] o]; simpl; [done | by destruct (decide _)]. Qed.

(** The first property of a non-empty object can be read. *)
Lemma head_keys_get o k : head (keys o) = Some k -> is_Some (get o k).
Proof.
  destruct o as [|[k' v'] o]; simpl; [done|].
  intros [= ->]. rewrite decide_True by done. eauto.
Qed.

End JsObjectFacts.

Section ForEachFacts.

Context {A St : Type}.
Implicit Types (f : St -> A -> result St) (xs : list A) (st : St).

(** An invariant kept by every callback that returns is kept by the loop. *)
Lemma forEach_invariant (P : St -> Prop) f xs st st' :
  (forall s x s', x ∈ xs -> P s -> f s x = Ok s' -> P s') ->
  P st -> forEach f xs st = Ok st' -> P st'.
Proof.
  revert st. induction xs as [|x xs IH]; intros st Hstep HP; simpl.
  - by intros [= <-].
  - destruct (f st x) as [s1|e] eqn:Hf; simpl; [|done].
    apply IH.
    + intros s y s' Hy. apply Hstep. by right.
    + eapply Hstep; [by left | exact HP | exact Hf].
Qed.

(** A loop whose callbacks all return, returns. *)
Lemma forEach_returns (P : St -> Prop) f xs st :
  (forall s x, x ∈ xs -> P s -> exists s', f s x = Ok s' /\ P s') ->
  P st -> exists st', forEach f xs st = Ok st' /\ P st'.
Proof.
  revert st. induction xs as [|x xs IH]; intros st Hstep HP; simpl.
  - eauto.
  - destruct (Hstep st x) as (s1 & -> & HP1); [by left | done |]. simpl.
    apply IH; [|done]. intros s y Hy. apply Hstep. by right.
Qed.

Lemma forEach_app f xs ys st :
  forEach f (xs ++ ys) st = st' ← forEach f xs st; forEach f ys st'.
Proof.
  revert st. induction xs as [|x xs IH]; intros st; simpl; [done|].
  destruct (f st x); simpl; [apply IH | done].
Qed.

(** Elements on which the callback does nothing can be left out. *)
Lemma forEach_filter (keep : A -> Prop) `{!forall x, Decision (keep x)} f xs st :
  (forall s x, ~ keep x -> f s x = Ok s) ->
  forEach f (filter keep xs) st = forEach f xs st.
Proof.
  intros Hskip. revert st. induction xs as [|x xs IH]; intros st; [done|].
  rewrite filter_cons. destruct (decide (keep x)) as [Hk|Hk]; simpl.
  - destruct (f st x); simpl; [apply IH | done].
  - rewrite (Hskip st x Hk). simpl. apply IH.
Qed.

End ForEachFacts.

(** A loop whose callback pushes at most one element per visit pushes at
    most as many elements as it makes visits. *)
Lemma forEach_length_le {A B} (f : list B -> A -> result (list B))
    (xs : list A) (st st' : list B) :
  (forall s x s', f s x = Ok s' -> length s' <= S (length s))%nat ->
  forEach f xs st = Ok st' -> (length st' <= length st + length xs)%nat.
Proof.
  intros Hstep. revert st. induction xs as [|x xs IH]; intros st; simpl.
  - intros [= <-]. lia.
  - destruct (f st x) as [s1|e] eqn:Hf; simpl; [|done].
    intros Hrun. apply IH in Hrun. apply Hstep in Hf. lia.
Qed.


(** * Manifest assembler *)

Section AssemblerFacts.

Import UploadImages.
Local Open Scope nat_scope.
Local Open Scope list_scope.

Implicit Types (uploadedUrls : gmap nat (JsObject.t UploadedFileData)).
Implicit Types (metadataList : list ImageMetadata.t).

Lemma elem_of_indexed {A} (xs : list A) (i : nat) (x : A) :
  (i, x) ∈ indexed xs <-> xs !! i = Some x.
Proof.
  unfold indexed. rewrite elem_of_lookup_imap. split.
  - intros (j & y & [= -> ->] & Hy). exact Hy.
  - intros Hx. eauto.
Qed.

Lemma add_manifest_variant_inv meta uploadedVariants sizes mv mv' :
  forEach (add_manifest_variant meta uploadedVariants) sizes mv = Ok mv' ->
  (forall k, k ∈ JsObject.keys mv ->
     exists v, JsObject.get mv k = Some v /\ variant_from meta uploadedVariants k v) ->
  forall k, k ∈ JsObject.keys mv' ->
    exists v, JsObject.get mv' k = Some v /\ variant_from meta uploadedVariants k v.
Proof.
  intros Hrun Hinit.
  refine (forEach_invariant
    (fun o => forall k, k ∈ JsObject.keys o ->
       exists v, JsObject.get o k = Some v /\ variant_from meta uploadedVariants k v)
    _ sizes mv mv' _ Hinit Hrun).
  intros o size o' _ Ho. unfold add_manifest_variant.
  destruct (JsObject.get uploadedVariants size) as [uploaded|] eqn:Hup;
    [|by intros [= <-]].
  destruct (JsObject.get (ImageMetadata.variants meta) size) as [variant|] eqn:Hvar;
    simpl; [|done].
  intros [= <-] k Hk. destruct (decide (size = k)) as [<-|Hne].
  - rewrite get_set_eq. eexists. split; [done|]. by exists uploaded, variant.
  - rewrite get_set_ne by done. apply Ho.
    apply elem_of_keys_set in Hk as [->|Hk]; [done | exact Hk].
Qed.

(** The two ways the assembler's callback returns: nothing pushed, or one
    entry pushed whose fields come from the default variant. *)
Lemma construct_entry_cases uploadedUrls manifest idx meta manifest' :
  construct_entry uploadedUrls manifest (idx, meta) = Ok manifest' ->
  manifest' = manifest \/
  exists uploadedVariants k uploaded variant manifestVariants,
    uploadedUrls !! idx = Some uploadedVariants /\
    defaultVariantKey uploadedVariants = Some k /\
    JsObject.get uploadedVariants k = Some uploaded /\
    JsObject.get (ImageMetadata.variants meta) k = Some variant /\
    forEach (add_manifest_variant meta uploadedVariants)
            (JsObject.keys (ImageMetadata.variants meta)) [] = Ok manifestVariants /\
    manifest' = manifest ++
      [PhotoManifest.mk (key uploaded)
         (folder_metadata (ImageMetadata.relativePathBase meta)).1
         (folder_metadata (ImageMetadata.relativePathBase meta)).2
         (ImageMetadata.blurDataUrl meta) manifestVariants (url uploaded)
         (ImageVariant.width variant) (ImageVariant.height variant)].
Proof.
  unfold construct_entry.
  destruct (uploadedUrls !! idx) as [uv|] eqn:Huv; [|intros [= <-]; by left].
  destruct (folder_metadata _) as [category timeOfDay] eqn:Hfolder.
  destruct (forEach _ _ _) as [mv|e] eqn:Hmv; simpl; [|done].
  cbv zeta.
  destruct (defaultVariantKey uv) as [k|] eqn:Hk; [|intros [= <-]; by left].
  destruct (truthy (Some k)); [|intros [= <-]; by left].
  destruct (JsObject.get uv k) as [uploaded|] eqn:Hup; simpl; [|done].
  destruct (JsObject.get (ImageMetadata.variants meta) k) as [variant|] eqn:Hvar;
    simpl; [|done].
  intros [= <-]. right. by exists uv, k, uploaded, variant, mv.
Qed.

(** C4.  For metadata whose variant names are the declared ones and an
    upload map whose recorded urls are non-empty, every entry of the
    assembled manifest belongs to a photo with recorded uploads, and every
    key of its variants map is one of mobile, tablet, desktop, full, is a
    variant name of that photo's metadata, has a recorded upload, and
    carries that upload's non-empty url with the metadata's dimensions. *)
Theorem manifest_variant_keys metadataList uploadedUrls manifest :
  (forall meta k, meta ∈ metadataList ->
     k ∈ JsObject.keys (ImageMetadata.variants meta) -> k ∈ VARIANT_NAMES) ->
  (forall idx uploadedVariants k uploaded,
     uploadedUrls !! idx = Some uploadedVariants ->
     JsObject.get uploadedVariants k = Some uploaded -> url uploaded <> "") ->
  construct_manifest metadataList uploadedUrls = Ok manifest ->
  forall entry, entry ∈ manifest ->
    exists idx meta uploadedVariants,
      metadataList !! idx = Some meta /\
      uploadedUrls !! idx = Some uploadedVariants /\
      forall k, k ∈ JsObject.keys (PhotoManifest.variants entry) ->
        k ∈ VARIANT_NAMES /\
        k ∈ JsObject.keys (ImageMetadata.variants meta) /\
        k ∈ JsObject.keys uploadedVariants /\
        exists v u, JsObject.get (PhotoManifest.variants entry) k = Some v /\
                    variant_from meta uploadedVariants k v /\
                    ImageVariant.url v = Some u /\ u <> "".
Proof.
  intros Htyped Hurls Hrun. unfold construct_manifest in Hrun.
  refine (forEach_invariant (fun m => forall entry, entry ∈ m -> _) _ _ _ _ _ _ Hrun);
    [|intros entry Hin; by apply elem_of_nil in Hin].
  intros m [idx meta] m' Him Hm Hstep entry Hentry.
  apply elem_of_indexed in Him.
  apply construct_entry_cases in Hstep
    as [->|(uv & k0 & uploaded & variant & mv & Huv & _ & _ & _ & Hmv & ->)];
    [by apply Hm|].
  apply elem_of_app in Hentry as [Hentry|Hentry]; [by apply Hm|].
  apply list_elem_of_singleton in Hentry as ->. simpl.
  exists idx, meta, uv. split; [done|]. split; [done|].
  intros k Hk.
  destruct (add_manifest_variant_inv _ _ _ _ _ Hmv) with (k := k)
    as (v & Hget & Hfrom); [intros ? Hnil; by apply elem_of_nil in Hnil | done |].
  pose proof Hfrom as (up & var & Hup & Hvar & ->).
  assert (k ∈ JsObject.keys (ImageMetadata.variants meta)) as Hkmeta
    by (apply elem_of_keys_get; eauto).
  split; [apply (Htyped meta); [by eapply list_elem_of_lookup_2 | done]|].
  split; [done|]. split; [apply elem_of_keys_get; eauto|].
  exists (ImageVariant.mk (ImageVariant.width var) (ImageVariant.height var)
            None (Some (url up))), (url up).
  repeat split; [done | done | by eapply Hurls].
Qed.

Lemma construct_entry_grows uploadedUrls manifest im manifest' :
  construct_entry uploadedUrls manifest im = Ok manifest' ->
  length manifest' <= S (length manifest).
Proof.
  destruct im as [idx meta]. intros Hstep.
  apply construct_entry_cases in Hstep
    as [->|(? & ? & ? & ? & ? & _ & _ & _ & _ & _ & ->)]; [lia|].
  rewrite length_app. simpl. lia.
Qed.

(** C3.  A photo whose index has no entry in the successful-upload map
    contributes nothing: the assembler's callback leaves the manifest as it
    was, so the manifest is the one assembled from the photos that do have
    an entry, it has at most one entry per such photo, and it is empty
    when no photo has an entry. *)
Theorem zero_upload_drop metadataList uploadedUrls :
  (forall manifest idx meta,
      uploadedUrls !! idx = None ->
      construct_entry uploadedUrls manifest (idx, meta) = Ok manifest) /\
  construct_manifest metadataList uploadedUrls
    = forEach (construct_entry uploadedUrls)
        (filter (fun im => is_Some (uploadedUrls !! im.1)) (indexed metadataList)) [] /\
  (forall manifest,
      construct_manifest metadataList uploadedUrls = Ok manifest ->
      length manifest
      <= length (filter (fun im => is_Some (uploadedUrls !! im.1))
                        (indexed metadataList))) /\
  construct_manifest metadataList ∅ = Ok [].
Proof.
  assert (Hskip : forall manifest idx meta,
             uploadedUrls !! idx = None ->
             construct_entry uploadedUrls manifest (idx, meta) = Ok manifest).
  { intros manifest idx meta Hnone. unfold construct_entry. by rewrite Hnone. }
  assert (Hfilter : construct_manifest metadataList uploadedUrls
    = forEach (construct_entry uploadedUrls)
        (filter (fun im => is_Some (uploadedUrls !! im.1)) (indexed metadataList)) []).
  { unfold construct_manifest. symmetry. apply forEach_filter.
    intros manifest [idx meta] Hno. apply Hskip. simpl in Hno.
    by apply eq_None_not_Some. }
  split; [exact Hskip | split; [exact Hfilter | split]].
  - intros manifest. rewrite Hfilter. intros Hrun.
    pose proof (forEach_length_le (construct_entry uploadedUrls) _ _ _
                  (construct_entry_grows uploadedUrls) Hrun) as Hlen.
    simpl in Hlen. lia.
  - clear Hskip Hfilter. unfold construct_manifest.
    generalize (@nil PhotoManifest.t) as manifest.
    induction (indexed metadataList) as [|[idx meta] ims IH]; intros manifest; [done|].
    simpl. rewrite lookup_empty. simpl. apply IH.
Qed.

End AssemblerFacts.

(** * Upload batcher *)

Section PipelineFacts.

Import UploadImages.
Local Open Scope nat_scope.
Local Open Scope list_scope.

Variable inputDir : string.
Variable path_join : string -> string -> string.
Variable path_basename : string -> string.
Variable existsSync : string -> bool.
Variable readFileSync : string -> result (list Byte.byte).
Variable ServiceState : Type.
Variable uploadFiles :
  ServiceState -> list File -> ServiceState * result (list UploadFileResult).

Local Abbreviation build_queue :=
  (build_queue inputDir path_join path_basename existsSync readFileSync).
Local Abbreviation upload_batch := (upload_batch ServiceState uploadFiles).
Local Abbreviation upload_from := (upload_from ServiceState uploadFiles).
Local Abbreviation upload_all := (upload_all ServiceState uploadFiles).
Local Abbreviation main :=
  (main inputDir path_join path_basename existsSync readFileSync ServiceState uploadFiles).
Local Abbreviation LoopState := (LoopState ServiceState).

Implicit Types (metadataList : list ImageMetadata.t) (uploadQueue : list Job).
Implicit Types (st : LoopState).

Lemma build_queue_jobs metadataList uploadQueue :
  build_queue metadataList = Ok uploadQueue ->
  forall job, job ∈ uploadQueue -> job_of_metadata metadataList job.
Proof.
  unfold UploadImages.build_queue. intros Hrun.
  refine (forEach_invariant (fun q => forall job, job ∈ q -> _) _ _ _ _ _ _ Hrun);
    [|intros job Hin; by apply elem_of_nil in Hin].
  intros q [idx meta] q' Him Hq Hphoto. apply elem_of_indexed in Him.
  unfold enqueue_photo in Hphoto. simpl in Hphoto.
  refine (forEach_invariant (fun q => forall job, job ∈ q -> _) _ _ _ _ _ Hq Hphoto).
  intros q1 [size variant] q2 Hentry Hq1. unfold enqueue_variant.
  destruct (ImageVariant.relativePath variant) as [rel|]; simpl; [|done].
  destruct (existsSync _); [|by intros [= <-]].
  destruct (readFileSync _) as [buf|]; simpl; [|done].
  intros [= <-] job Hjob.
  apply elem_of_app in Hjob as [Hjob|Hjob]; [by apply Hq1|].
  apply list_elem_of_singleton in Hjob as ->.
  exists meta. simpl. split; [done|].
  unfold JsObject.keys, JsObject.entries in *.
  apply list_elem_of_fmap. by exists (size, variant).
Qed.

(** *** Invariants of the batch loop *)

Lemma record_responses_invariant
    (P : gmap nat (JsObject.t UploadedFileData) -> Prop)
    (R : UploadFileResult -> Prop) (batch : list Job)
    (responses : list UploadFileResult) uploaded console :
  (forall U c job res, job ∈ batch -> R res -> P U ->
     P (record_response (U, c) (job, res)).1) ->
  Forall R responses ->
  P uploaded ->
  P (fold_left record_response (combine batch responses) (uploaded, console)).1.
Proof.
  intros Hstep HR.
  assert (Hin : forall jr, jr ∈ combine batch responses -> jr.1 ∈ batch /\ R jr.2).
  { intros [job res] Hjr. apply list_elem_of_In in Hjr. simpl. split.
    - apply list_elem_of_In. eapply in_combine_l, Hjr.
    - rewrite Forall_forall in HR. apply HR.
      apply list_elem_of_In. eapply in_combine_r, Hjr. }
  revert uploaded console Hin.
  induction (combine batch responses) as [|[job res] jrs IH];
    intros uploaded console Hin HP; [done|].
  cbn [fold_left].
  destruct (record_response (uploaded, console) (job, res)) as [U' c'] eqn:Hrec.
  apply IH.
  - intros jr Hjr. apply Hin. by right.
  - destruct (Hin (job, res)) as [Hjob Hres]; [by left|].
    specialize (Hstep uploaded console job res Hjob Hres HP).
    by rewrite Hrec in Hstep.
Qed.

Lemma upload_batch_invariant
    (P : gmap nat (JsObject.t UploadedFileData) -> Prop)
    (R : UploadFileResult -> Prop) (i : nat) (batch : list Job) st :
  (forall s files s' responses,
     uploadFiles s files = (s', Ok responses) -> Forall R responses) ->
  (forall U c job res, job ∈ batch -> R res -> P U ->
     P (record_response (U, c) (job, res)).1) ->
  P (uploadedUrls _ st) -> P (uploadedUrls _ (upload_batch i batch st)).
Proof.
  intros Hservice Hstep HP. unfold UploadImages.upload_batch.
  destruct (uploadFiles _ _) as [s' [responses|e]] eqn:Hcall; [|done].
  pose proof (record_responses_invariant P R batch responses (uploadedUrls _ st)
    ((console _ st ++ [LogUploadingBatch (i / BATCH_SIZE + 1) (length batch);
                       UploadFilesCalled (map file batch)]) ++ [UploadFilesSettled true])
    Hstep (Hservice _ _ _ _ Hcall) HP) as Hfold.
  by destruct (fold_left _ _ _) as [U' c'].
Qed.

Lemma elem_of_slice {A} (xs : list A) (a b : nat) (x : A) :
  x ∈ slice xs a b -> x ∈ xs.
Proof.
  unfold slice. intros Hx.
  apply list_elem_of_lookup in Hx as [j Hj].
  apply lookup_take_Some in Hj as [Hj _]. rewrite lookup_drop in Hj.
  by eapply list_elem_of_lookup_2.
Qed.

Lemma upload_from_invariant
    (P : gmap nat (JsObject.t UploadedFileData) -> Prop)
    (R : UploadFileResult -> Prop) uploadQueue (i : nat) st :
  (forall s files s' responses,
     uploadFiles s files = (s', Ok responses) -> Forall R responses) ->
  (forall U c job res, job ∈ uploadQueue -> R res -> P U ->
     P (record_response (U, c) (job, res)).1) ->
  P (uploadedUrls _ st) -> P (uploadedUrls _ (upload_from uploadQueue i st)).
Proof.
  intros Hservice Hstep. funelim (upload_from uploadQueue i st); intros HP.
  - match goal with IH : forall (_ : _ -> Prop) (_ : _ -> Prop), _ |- _ =>
      apply (IH P R); try done end.
    apply (upload_batch_invariant P R); [done | | done].
    intros U c job res Hjob. apply Hstep. by eapply elem_of_slice.
  - done.
Qed.

Lemma record_response_from_queue uploadQueue U c job res :
  job ∈ uploadQueue ->
  recorded_from_queue uploadQueue U ->
  recorded_from_queue uploadQueue (record_response (U, c) (job, res)).1.
Proof.
  intros Hjob HU. unfold record_response.
  destruct (data res) as [d|]; simpl; [|done].
  intros idx uv. rewrite lookup_insert.
  destruct (decide (metaIndex job = idx)) as [<-|Hne]; simpl; [|apply HU].
  intros [= <-]. split; [apply set_not_nil|].
  intros k Hk. apply elem_of_keys_set in Hk as [->|Hk]; [by exists job|].
  destruct (U !! metaIndex job) as [old|] eqn:Hold; simpl in Hk.
  - by apply (HU _ _ Hold).
  - by apply elem_of_nil in Hk.
Qed.

Lemma upload_all_from_queue uploadQueue (s0 : ServiceState) :
  recorded_from_queue uploadQueue (uploadedUrls _ (upload_all uploadQueue s0)).
Proof.
  unfold UploadImages.upload_all.
  apply (upload_from_invariant (recorded_from_queue uploadQueue) (fun _ => True)).
  - intros s files s' responses _. by apply Forall_forall.
  - intros U c job res Hjob _. by apply record_response_from_queue.
  - intros idx uv. simpl. by rewrite lookup_empty.
Qed.

(** The declared variant names pass a truthiness test. *)
Lemma variant_name_truthy (k : string) : k ∈ VARIANT_NAMES -> truthy (Some k) = true.
Proof.
  unfold VARIANT_NAMES. rewrite !elem_of_cons, elem_of_nil.
  intros [->|[->|[->|[->|[]]]]]; reflexivity.
Qed.

Lemma defaultVariantKey_choice (uploadedVariants : JsObject.t UploadedFileData) :
  uploadedVariants <> [] ->
  exists k uploaded,
    defaultVariantKey uploadedVariants = Some k /\
    default_choice uploadedVariants k /\
    JsObject.get uploadedVariants k = Some uploaded.
Proof.
  intros Hne. unfold defaultVariantKey, default_choice.
  destruct (JsObject.get uploadedVariants "desktop") as [d|] eqn:Hd.
  { exists "desktop"%string, d. split; [done|]. split; [|done]. left. eauto. }
  destruct (JsObject.get uploadedVariants "tablet") as [t|] eqn:Ht.
  { exists "tablet"%string, t. split; [done|]. split; [|done]. right. left. eauto. }
  destruct uploadedVariants as [|[k v] rest]; [done|].
  exists k, v. simpl. rewrite decide_True by done. split; [done|]. split; [|done].
  right. right. done.
Qed.

Lemma add_manifest_variant_returns meta uploadedVariants sizes mv :
  (forall k, k ∈ sizes -> k ∈ JsObject.keys (ImageMetadata.variants meta)) ->
  exists mv', forEach (add_manifest_variant meta uploadedVariants) sizes mv = Ok mv'.
Proof.
  intros Hsizes.
  destruct (forEach_returns (fun _ => True)
              (add_manifest_variant meta uploadedVariants) sizes mv)
    as (mv' & Hrun & _); [|done|by exists mv'].
  intros o size Hsize _. unfold add_manifest_variant.
  destruct (JsObject.get uploadedVariants size); [|by exists o].
  apply Hsizes, elem_of_keys_get in Hsize as [variant ->]. simpl. eauto.
Qed.

(** For a photo with recorded uploads of its own variants the assembler's
    callback pushes exactly one entry, taken from the default variant. *)
Lemma construct_entry_pushes (uploaded : gmap nat (JsObject.t UploadedFileData))
    (idx : nat) (meta : ImageMetadata.t)
    (uploadedVariants : JsObject.t UploadedFileData) :
  uploaded !! idx = Some uploadedVariants ->
  uploadedVariants <> [] ->
  (forall k, k ∈ JsObject.keys uploadedVariants ->
     k ∈ JsObject.keys (ImageMetadata.variants meta)) ->
  (forall k, k ∈ JsObject.keys (ImageMetadata.variants meta) -> k ∈ VARIANT_NAMES) ->
  exists k up variant manifestVariants,
    default_choice uploadedVariants k /\
    JsObject.get uploadedVariants k = Some up /\
    JsObject.get (ImageMetadata.variants meta) k = Some variant /\
    forall manifest,
      construct_entry uploaded manifest (idx, meta)
      = Ok (manifest ++
            [PhotoManifest.mk (key up)
               (folder_metadata (ImageMetadata.relativePathBase meta)).1
               (folder_metadata (ImageMetadata.relativePathBase meta)).2
               (ImageMetadata.blurDataUrl meta) manifestVariants (url up)
               (ImageVariant.width variant) (ImageVariant.height variant)]).
Proof.
  intros Huv Hne Hkeys Htyped.
  destruct (defaultVariantKey_choice uploadedVariants Hne) as (k & up & Hk & Hchoice & Hup).
  assert (k ∈ JsObject.keys (ImageMetadata.variants meta)) as Hkmeta.
  { apply Hkeys, elem_of_keys_get. eauto. }
  assert (truthy (Some k) = true) as Htruthy.
  { apply variant_name_truthy, Htyped, Hkmeta. }
  assert (is_Some (JsObject.get (ImageMetadata.variants meta) k)) as [variant Hvar].
  { by apply elem_of_keys_get. }
  destruct (add_manifest_variant_returns meta uploadedVariants
              (JsObject.keys (ImageMetadata.variants meta)) []) as [mv Hmv]; [done|].
  exists k, up, variant, mv. repeat split; try done.
  intros manifest. cbv beta iota delta [construct_entry]. rewrite Huv.
  destruct (folder_metadata _) as [category timeOfDay].
  rewrite Hmv. simpl. rewrite Hk, Htruthy, Hup. simpl. by rewrite Hvar.
Qed.

(** In a run of the script the uploads recorded for a photo are uploads of
    that photo's own variants. *)
Lemma pipeline_recorded_keys metadataList uploadQueue (s0 : ServiceState)
    (idx : nat) (meta : ImageMetadata.t)
    (uploadedVariants : JsObject.t UploadedFileData) :
  build_queue metadataList = Ok uploadQueue ->
  metadataList !! idx = Some meta ->
  uploadedUrls _ (upload_all uploadQueue s0) !! idx = Some uploadedVariants ->
  uploadedVariants <> [] /\
  forall k, k ∈ JsObject.keys uploadedVariants ->
    k ∈ JsObject.keys (ImageMetadata.variants meta).
Proof.
  intros Hqueue Hmeta Huv.
  destruct (upload_all_from_queue uploadQueue s0 idx uploadedVariants Huv)
    as [Hne Hjobs].
  split; [done|]. intros k Hk.
  destruct (Hjobs k Hk) as (job & Hjob & <- & <-).
  destruct (build_queue_jobs _ _ Hqueue job Hjob) as (meta' & Hmeta' & Hsize).
  congruence.
Qed.

(** The callback returns whenever the photo's upload record holds only the
    photo's own variant names. *)
Lemma construct_entry_returns (uploaded : gmap nat (JsObject.t UploadedFileData))
    manifest (idx : nat) (meta : ImageMetadata.t) :
  (forall uploadedVariants k,
     uploaded !! idx = Some uploadedVariants ->
     k ∈ JsObject.keys uploadedVariants ->
     k ∈ JsObject.keys (ImageMetadata.variants meta)) ->
  exists manifest', construct_entry uploaded manifest (idx, meta) = Ok manifest'.
Proof.
  intros Hkeys. cbv beta iota delta [construct_entry].
  destruct (uploaded !! idx) as [uv|] eqn:Huv; [|eauto].
  destruct (folder_metadata _) as [category timeOfDay].
  destruct (add_manifest_variant_returns meta uv
              (JsObject.keys (ImageMetadata.variants meta)) []) as [mv ->]; [done|].
  simpl. destruct (defaultVariantKey uv) as [k|] eqn:Hk; [|eauto].
  destruct (truthy (Some k)); [|eauto].
  assert (is_Some (JsObject.get uv k)) as [up Hup].
  { unfold defaultVariantKey in Hk.
    destruct (JsObject.get uv "desktop") eqn:Hd; [injection Hk as <-; eauto|].
    destruct (JsObject.get uv "tablet") eqn:Ht; [injection Hk as <-; eauto|].
    by apply head_keys_get. }
  assert (is_Some (JsObject.get (ImageMetadata.variants meta) k)) as [variant Hvar].
  { apply elem_of_keys_get, (Hkeys uv); [done|]. apply elem_of_keys_get. eauto. }
  rewrite Hup. simpl. rewrite Hvar. simpl. eauto.
Qed.

(** Once the queue is built the script runs to the end: the assembler never
    reads a variant that is not there. *)
Lemma main_returns metadataList uploadQueue (s0 : ServiceState) :
  build_queue metadataList = Ok uploadQueue ->
  exists manifest, main metadataList s0 = Ok manifest.
Proof.
  intros Hqueue. unfold UploadImages.main. rewrite Hqueue. simpl.
  unfold construct_manifest.
  destruct (forEach_returns (fun _ => True)
    (construct_entry (uploadedUrls _ (upload_all uploadQueue s0)))
    (indexed metadataList) []) as (manifest & Hrun & _); [|done|by exists manifest].
  intros m [idx meta] Him _. apply elem_of_indexed in Him.
  destruct (construct_entry_returns (uploadedUrls _ (upload_all uploadQueue s0))
              m idx meta) as [m' Hm']; [|eauto].
  intros uv k Huv.
  destruct (pipeline_recorded_keys _ _ _ _ _ _ Hqueue Him Huv) as [_ Hkeys].
  apply Hkeys.
Qed.

(** An entry the callback pushes for some photo is in the assembled manifest. *)
Lemma construct_manifest_contains metadataList
    (uploaded : gmap nat (JsObject.t UploadedFileData)) manifest
    (idx : nat) (meta : ImageMetadata.t) (entry : PhotoManifest.t) :
  construct_manifest metadataList uploaded = Ok manifest ->
  metadataList !! idx = Some meta ->
  (forall m, construct_entry uploaded m (idx, meta) = Ok (m ++ [entry])) ->
  entry ∈ manifest.
Proof.
  unfold construct_manifest. intros Hrun Hmeta Hpush.
  apply elem_of_indexed, list_elem_of_split in Hmeta as (before & after & Hsplit).
  rewrite Hsplit, forEach_app in Hrun.
  destruct (forEach _ before []) as [m1|] eqn:Hbefore; [|done].
  cbn [forEach] in Hrun. unfold mbind, result_bind in Hrun.
  rewrite Hpush in Hrun.
  refine (forEach_invariant (fun m => entry ∈ m) _ _ _ _ _ _ Hrun).
  - intros m [i mt] m' _ Hm Hstep.
    apply construct_entry_cases in Hstep as [->|(? & ? & ? & ? & ? & _ & _ & _ & _ & _ & ->)];
      [done|].
    apply elem_of_app. by left.
  - apply elem_of_app. right. by apply list_elem_of_singleton.
Qed.

(** C5.  In a run of the script on metadata typed as [ImageMetadata]
    (variant names among mobile, tablet, desktop, full), a photo with at
    least one recorded upload gets a manifest entry whose id, url, width and height are those of its
    default variant: desktop when uploaded, else tablet when uploaded, else
    the first key of the photo's upload record in insertion order.  The id
    is the remote key and the url the remote url recorded for that variant;
    width and height are the metadata's for the same variant. *)
Theorem default_variant_choice metadataList uploadQueue (s0 : ServiceState)
    (idx : nat) (meta : ImageMetadata.t)
    (uploadedVariants : JsObject.t UploadedFileData) :
  (forall meta k, meta ∈ metadataList ->
     k ∈ JsObject.keys (ImageMetadata.variants meta) -> k ∈ VARIANT_NAMES) ->
  build_queue metadataList = Ok uploadQueue ->
  metadataList !! idx = Some meta ->
  uploadedUrls _ (upload_all uploadQueue s0) !! idx = Some uploadedVariants ->
  exists k up variant entry manifest,
    default_choice uploadedVariants k /\
    JsObject.get uploadedVariants k = Some up /\
    JsObject.get (ImageMetadata.variants meta) k = Some variant /\
    PhotoManifest.id entry = key up /\
    PhotoManifest.url entry = url up /\
    PhotoManifest.width entry = ImageVariant.width variant /\
    PhotoManifest.height entry = ImageVariant.height variant /\
    (forall m, construct_entry (uploadedUrls _ (upload_all uploadQueue s0)) m (idx, meta)
               = Ok (m ++ [entry])) /\
    main metadataList s0 = Ok manifest /\
    entry ∈ manifest.
Proof.
  intros Htyped Hqueue Hmeta Huv.
  destruct (pipeline_recorded_keys _ _ _ _ _ _ Hqueue Hmeta Huv) as [Hne Hkeys].
  destruct (construct_entry_pushes _ idx meta uploadedVariants Huv Hne Hkeys)
    as (k & up & variant & mv & Hchoice & Hup & Hvar & Hpush).
  { intros k. apply Htyped. by eapply list_elem_of_lookup_2. }
  destruct (main_returns _ _ s0 Hqueue) as [manifest Hmain].
  eexists k, up, variant, _, manifest.
  repeat split; [exact Hchoice | exact Hup | exact Hvar | | | | | exact Hpush | exact Hmain |];
    try reflexivity.
  unfold UploadImages.main in Hmain. rewrite Hqueue in Hmain. simpl in Hmain.
  by eapply construct_manifest_contains.
Qed.

(** Urls handed out by a service that never answers a successful upload
    with an empty url are non-empty in the upload map. *)
Lemma upload_all_urls_nonempty uploadQueue (s0 : ServiceState) :
  (forall s files s' responses res d,
     uploadFiles s files = (s', Ok responses) -> res ∈ responses ->
     data res = Some d -> url d <> ""%string) ->
  forall idx uploadedVariants k uploaded,
    uploadedUrls _ (upload_all uploadQueue s0) !! idx = Some uploadedVariants ->
    JsObject.get uploadedVariants k = Some uploaded -> url uploaded <> ""%string.
Proof.
  intros Hservice. unfold UploadImages.upload_all.
  apply (upload_from_invariant
    (fun U => forall idx uv k up, U !! idx = Some uv ->
                JsObject.get uv k = Some up -> url up <> ""%string)
    (fun res => forall d, data res = Some d -> url d <> ""%string)).
  - intros s files s' responses Hcall. apply Forall_forall.
    intros res Hres d. by eapply Hservice.
  - intros U c job res _ Hres HU. unfold record_response.
    destruct (data res) as [d|] eqn:Hd; simpl; [|done].
    intros idx uv k up. rewrite lookup_insert.
    destruct (decide (metaIndex job = idx)) as [<-|Hne]; simpl; [|apply HU].
    intros [= <-]. destruct (decide (sizeName job = k)) as [<-|Hk].
    + rewrite get_set_eq. intros [= <-]. simpl. by apply Hres.
    + rewrite get_set_ne by done.
      destruct (U !! metaIndex job) as [old|] eqn:Hold; simpl; [|done].
      by apply (HU _ _ _ _ Hold).
  - intros idx uv k up. simpl. by rewrite lookup_empty.
Qed.

(** *** Batches *)

Lemma batch_count_0 : batch_count 0 = 0.
Proof. reflexivity. Qed.

Lemma batch_count_step (a : nat) :
  0 < a -> batch_count a = S (batch_count (a - BATCH_SIZE)).
Proof.
  unfold batch_count, BATCH_SIZE. intros Ha. simpl Nat.sub at 1 3.
  destruct (le_lt_dec a 5) as [Hle|Hgt].
  - replace (a - 5) with 0 by lia. simpl (_ / _) at 2.
    symmetry. apply (Nat.div_unique _ 5 1 (a - 1)); lia.
  - replace (a + 4) with ((a - 5 + 4) + 1 * 5) by lia.
    rewrite Nat.div_add by lia. lia.
Qed.

Lemma batch_count_covers (n : nat) : n <= batch_count n * BATCH_SIZE.
Proof.
  unfold batch_count, BATCH_SIZE. simpl Nat.sub.
  pose proof (Nat.div_mod_eq (n + 4) 5) as Hdm.
  pose proof (Nat.mod_upper_bound (n + 4) 5) as Hlt. lia.
Qed.

Lemma batch_count_lt (n k : nat) : k < batch_count n -> k * BATCH_SIZE < n.
Proof.
  unfold batch_count, BATCH_SIZE. simpl Nat.sub. intros Hk.
  pose proof (Nat.div_mod_eq (n + 4) 5) as Hdm. lia.
Qed.

Lemma batch_count_full (n k : nat) :
  S k < batch_count n -> k * BATCH_SIZE + BATCH_SIZE <= n.
Proof. intros Hk. apply batch_count_lt in Hk. unfold BATCH_SIZE in *. lia. Qed.

Lemma length_batch_of uploadQueue (k : nat) :
  length (batch_of uploadQueue k)
  = Nat.min BATCH_SIZE (length uploadQueue - k * BATCH_SIZE).
Proof.
  unfold batch_of, slice. rewrite length_take, length_drop.
  replace (k * BATCH_SIZE + BATCH_SIZE - k * BATCH_SIZE) with BATCH_SIZE by lia.
  done.
Qed.

Lemma concat_batch_of uploadQueue (m : nat) :
  concat (map (batch_of uploadQueue) (seq 0 m)) = take (m * BATCH_SIZE) uploadQueue.
Proof.
  induction m as [|m IH]; [done|].
  rewrite seq_S, map_app, concat_app, IH. cbn [map concat Nat.add].
  rewrite app_nil_r. unfold batch_of, slice, BATCH_SIZE.
  replace (m * 5 + 5 - m * 5) with 5 by lia.
  rewrite take_take_drop. f_equal. lia.
Qed.

Lemma service_events_app (t1 t2 : list Event) :
  service_events (t1 ++ t2) = service_events t1 ++ service_events t2.
Proof. apply List.filter_app. Qed.

(** Recording the responses of a batch only writes to the console. *)
Lemma record_responses_service_events (jrs : list (Job * UploadFileResult))
    (uploaded : gmap nat (JsObject.t UploadedFileData)) (console : list Event) :
  service_events (fold_left record_response jrs (uploaded, console)).2
  = service_events console.
Proof.
  revert uploaded console. induction jrs as [|[job res] jrs IH];
    intros uploaded console; [done|].
  cbn [fold_left]. unfold record_response at 2.
  destruct (data res); rewrite IH, service_events_app; simpl; apply app_nil_r.
Qed.

(** The upload map after recording the responses of a batch does not depend
    on the console. *)
Lemma record_responses_uploaded (jrs : list (Job * UploadFileResult))
    (uploaded : gmap nat (JsObject.t UploadedFileData)) (console1 console2 : list Event) :
  (fold_left record_response jrs (uploaded, console1)).1
  = (fold_left record_response jrs (uploaded, console2)).1.
Proof.
  revert uploaded console1 console2. induction jrs as [|[job res] jrs IH];
    intros uploaded console1 console2; [done|].
  cbn [fold_left]. unfold record_response at 2 4.
  destruct (data res); apply IH.
Qed.

(** One iteration of the loop is one call to the service, made in the state
    the iteration starts in: it leaves the service in the state that call
    leaves it in, shows the call and its outcome in the trace, and records
    the results of that call. *)
Lemma upload_batch_sequential (i : nat) (batch : list Job) st :
  service _ (upload_batch i batch st)
  = (uploadFiles (service _ st) (map file batch)).1 /\
  service_events (console _ (upload_batch i batch st))
  = service_events (console _ st) ++
    batch_events
      (batch, Statements.resolved (uploadFiles (service _ st) (map file batch)).2) /\
  uploadedUrls _ (upload_batch i batch st)
  = Statements.record_outcome (uploadedUrls _ st)
      (batch, (uploadFiles (service _ st) (map file batch)).2).
Proof.
  unfold UploadImages.upload_batch, batch_events, Statements.record_outcome.
  destruct (uploadFiles _ _) as [s' [responses|e]]; cbn [fst snd Statements.resolved].
  - pose proof (record_responses_service_events (combine batch responses)
      (uploadedUrls _ st)
      ((console _ st ++ [LogUploadingBatch (i / BATCH_SIZE + 1) (length batch);
                         UploadFilesCalled (map file batch)])
       ++ [UploadFilesSettled true])) as Hfold.
    pose proof (record_responses_uploaded (combine batch responses)
      (uploadedUrls _ st)
      ((console _ st ++ [LogUploadingBatch (i / BATCH_SIZE + 1) (length batch);
                         UploadFilesCalled (map file batch)])
       ++ [UploadFilesSettled true]) []) as Hmap.
    destruct (fold_left _ _ (_, _ ++ _)) as [U' c']. simpl in Hfold, Hmap |- *.
    split; [done|]. split; [|done].
    assert (service_events
              (if bool_decide (length batch < length responses)
               then c' ++ [LogBatchUploadFailed] else c') = service_events c') as ->.
    { destruct (bool_decide _); [|done].
      rewrite service_events_app. apply app_nil_r. }
    rewrite Hfold, !service_events_app, <- app_assoc. done.
  - simpl. split; [done|]. split; [|done].
    rewrite !service_events_app, <- app_assoc. done.
Qed.

(** The loop from index [i] on is the sequence of calls for the blocks of
    the queue from [i] on, each made in the state the call before it left. *)
Lemma upload_from_sequential uploadQueue (i : nat) st :
  service _ (upload_from uploadQueue i st)
  = (Statements.sequential_calls uploadFiles
       (map (fun k => slice uploadQueue (i + k * BATCH_SIZE)
                            (i + k * BATCH_SIZE + BATCH_SIZE))
            (seq 0 (batch_count (length uploadQueue - i))))
       (service _ st)).1 /\
  service_events (console _ (upload_from uploadQueue i st))
  = service_events (console _ st) ++
    flat_map batch_events
      (combine (map (fun k => slice uploadQueue (i + k * BATCH_SIZE)
                                    (i + k * BATCH_SIZE + BATCH_SIZE))
                    (seq 0 (batch_count (length uploadQueue - i))))
               (map Statements.resolved
                  (Statements.sequential_calls uploadFiles
                     (map (fun k => slice uploadQueue (i + k * BATCH_SIZE)
                                          (i + k * BATCH_SIZE + BATCH_SIZE))
                          (seq 0 (batch_count (length uploadQueue - i))))
                     (service _ st)).2)) /\
  uploadedUrls _ (upload_from uploadQueue i st)
  = fold_left Statements.record_outcome
      (combine (map (fun k => slice uploadQueue (i + k * BATCH_SIZE)
                                    (i + k * BATCH_SIZE + BATCH_SIZE))
                    (seq 0 (batch_count (length uploadQueue - i))))
               (Statements.sequential_calls uploadFiles
                  (map (fun k => slice uploadQueue (i + k * BATCH_SIZE)
                                       (i + k * BATCH_SIZE + BATCH_SIZE))
                       (seq 0 (batch_count (length uploadQueue - i))))
                  (service _ st)).2)
      (uploadedUrls _ st).
Proof.
  funelim (upload_from uploadQueue i st).
  - match goal with IH : _ /\ _ |- _ => destruct IH as (Hservice & Hevents & Hmap) end.
    destruct (upload_batch_sequential i (slice uploadQueue i (i + BATCH_SIZE)) st)
      as (Hs1 & He1 & Hm1).
    rewrite (batch_count_step (length uploadQueue - i)) by lia.
    replace (length uploadQueue - i - BATCH_SIZE)
      with (length uploadQueue - (i + BATCH_SIZE)) by lia.
    rewrite <- cons_seq, <- fmap_S_seq. cbn [map].
    replace (i + 0 * BATCH_SIZE) with i by lia.
    assert (map (fun k => slice uploadQueue (i + k * BATCH_SIZE)
                               (i + k * BATCH_SIZE + BATCH_SIZE))
                (S <$> seq 0 (batch_count (length uploadQueue - (i + BATCH_SIZE))))
            = map (fun k => slice uploadQueue (i + BATCH_SIZE + k * BATCH_SIZE)
                                 (i + BATCH_SIZE + k * BATCH_SIZE + BATCH_SIZE))
                  (seq 0 (batch_count (length uploadQueue - (i + BATCH_SIZE)))))
      as ->.
    { change (S <$> ?l) with (map S l). rewrite map_map.
      apply map_ext. intros k. unfold BATCH_SIZE. f_equal; lia. }
    cbn [Statements.sequential_calls].
    rewrite Hs1 in Hservice, Hevents, Hmap.
    destruct (uploadFiles (service _ st) (map file (slice uploadQueue i (i + BATCH_SIZE))))
      as [s1 outcome1]. cbn [fst snd] in *.
    destruct (Statements.sequential_calls uploadFiles _ s1) as [s2 outcomes].
    cbn [fst snd map combine flat_map fold_left] in *.
    split; [done|]. split.
    + rewrite Hevents, He1, <- app_assoc. done.
    + rewrite Hmap, Hm1. done.
  - replace (length uploadQueue - i) with 0 by lia.
    rewrite batch_count_0. simpl. by rewrite app_nil_r.
Qed.

Lemma length_sequential_calls (blocks : list (list Job)) (s : ServiceState) :
  length (Statements.sequential_calls uploadFiles blocks s).2 = length blocks.
Proof.
  revert s. induction blocks as [|block blocks IH]; intros s; [done|].
  cbn [Statements.sequential_calls].
  destruct (uploadFiles s (map file block)) as [s1 outcome].
  specialize (IH s1).
  destruct (Statements.sequential_calls uploadFiles blocks s1) as [s2 outcomes].
  simpl in *. by rewrite IH.
Qed.

(** C8.  The queue is cut into contiguous blocks of five jobs, the last one
    possibly shorter; twelve jobs make three blocks; and the run is the
    sequence of calls to the upload service for these blocks, in queue
    order, one call per block: the call for a block is made in the state in
    which the call for the block before it left the service, that is, after
    that call has settled.  The service ends in the state the last call
    leaves it in, the trace shows each call followed by its settlement
    (resolved or rejected, as the service answered) before the next call,
    and the upload map holds what the resolved calls returned. *)
Theorem batch_sequencing uploadQueue (s0 : ServiceState) :
  concat (batches uploadQueue) = uploadQueue /\
  Forall (fun batch => 1 <= length batch <= BATCH_SIZE) (batches uploadQueue) /\
  (forall k batch,
     batches uploadQueue !! k = Some batch ->
     S k < length (batches uploadQueue) -> length batch = BATCH_SIZE) /\
  (length uploadQueue = 12 -> length (batches uploadQueue) = 3) /\
  length (Statements.sequential_calls uploadFiles (batches uploadQueue) s0).2
  = length (batches uploadQueue) /\
  service _ (upload_all uploadQueue s0)
  = (Statements.sequential_calls uploadFiles (batches uploadQueue) s0).1 /\
  service_events (console _ (upload_all uploadQueue s0))
  = flat_map batch_events
      (combine (batches uploadQueue)
         (map Statements.resolved
            (Statements.sequential_calls uploadFiles (batches uploadQueue) s0).2)) /\
  uploadedUrls _ (upload_all uploadQueue s0)
  = fold_left Statements.record_outcome
      (combine (batches uploadQueue)
         (Statements.sequential_calls uploadFiles (batches uploadQueue) s0).2)
      ∅.
Proof.
  assert (Hlookup : forall k batch,
    batches uploadQueue !! k = Some batch ->
    k < batch_count (length uploadQueue) /\ batch = batch_of uploadQueue k).
  { unfold batches. intros k batch Hk.
    change (map ?f ?l) with (f <$> l) in Hk.
    apply list_lookup_fmap_Some in Hk as (j & -> & Hj).
    apply lookup_seq in Hj as [-> Hlt]. done. }
  assert (Hlen : length (batches uploadQueue) = batch_count (length uploadQueue)).
  { unfold batches. by rewrite length_map, length_seq. }
  split; [|split; [|split; [|split; [|split]]]].
  - unfold batches. rewrite concat_batch_of.
    apply take_ge, batch_count_covers.
  - apply Forall_lookup. intros k batch Hk.
    apply Hlookup in Hk as [Hlt ->]. rewrite length_batch_of.
    apply batch_count_lt in Hlt. unfold BATCH_SIZE in *. lia.
  - intros k batch Hk Hnext. apply Hlookup in Hk as [_ ->].
    rewrite Hlen in Hnext. apply batch_count_full in Hnext.
    rewrite length_batch_of. unfold BATCH_SIZE in *. lia.
  - intros H12. by rewrite Hlen, H12.
  - apply length_sequential_calls.
  - pose proof (upload_from_sequential uploadQueue 0 (mkLoop _ s0 ∅ [])) as Hrun.
    rewrite Nat.sub_0_r in Hrun. exact Hrun.
Qed.

End PipelineFacts.

(** Both sample photos carry exactly the declared variant names. *)
Ltac sample_metadata_typed :=
  let meta := fresh "meta" in
  let k := fresh "k" in
  let Hmeta := fresh "Hmeta" in
  let Hk := fresh "Hk" in
  intros meta k Hmeta Hk;
  apply elem_of_cons in Hmeta as [->|Hmeta];
  [exact Hk | apply list_elem_of_singleton in Hmeta as ->; exact Hk].

(** C5 in the sample environment: the desktop upload of the only photo on
    disk fails, so its entry takes id, url, width and height from the tablet
    variant. *)
Lemma default_variant_choice_witness :
  exists k up variant entry manifest,
    UploadImages.default_choice Samples.uploaded_a k /\
    k = "tablet" /\
    JsObject.get Samples.uploaded_a k = Some up /\
    JsObject.get (ImageMetadata.variants Samples.meta_a) k = Some variant /\
    PhotoManifest.id entry = UploadImages.key up /\
    PhotoManifest.url entry = UploadImages.url up /\
    PhotoManifest.width entry = 1280%Z /\
    PhotoManifest.height entry = 853%Z /\
    UploadImages.main Samples.inputDir Samples.path_join Samples.path_basename
      Samples.existsSync Samples.readFileSync nat Samples.uploadFiles
      Samples.metadataList 0%nat = Ok manifest /\
    entry ∈ manifest.
Proof.
  destruct (default_variant_choice Samples.inputDir Samples.path_join
              Samples.path_basename Samples.existsSync Samples.readFileSync
              nat Samples.uploadFiles
              Samples.metadataList Samples.uploadQueue 0%nat
              0%nat Samples.meta_a Samples.uploaded_a)
    as (k & up & variant & entry & manifest & Hchoice & Hup & Hvar
        & Hid & Hurl & Hw & Hh & _ & Hmain & Hin);
    [ sample_metadata_typed
    | vm_compute; reflexivity | reflexivity | vm_compute; reflexivity |].
  assert (k = "tablet") as Hk.
  { destruct Hchoice as [[[d Hd] _] | [(_ & _ & ->) | (_ & Ht & _)]];
      [discriminate Hd | reflexivity | discriminate Ht]. }
  subst k. injection Hvar as <-.
  exists "tablet", up, (Samples.local "Ceremony/Afternoon/a-tablet.webp" 1280 853),
    entry, manifest.
  repeat split; assumption || reflexivity.
Defined.

(** C4 on the sample photos: one entry, for the photo whose files exist,
    with the three variants that were uploaded. *)
Lemma manifest_variant_keys_witness :
  exists manifest,
    UploadImages.construct_manifest Samples.metadataList Samples.uploadedUrls
      = Ok manifest /\
    length manifest = 1%nat /\
    forall entry, entry ∈ manifest ->
      exists idx meta uploadedVariants,
        Samples.metadataList !! idx = Some meta /\
        Samples.uploadedUrls !! idx = Some uploadedVariants /\
        forall k, k ∈ JsObject.keys (PhotoManifest.variants entry) ->
          k ∈ VARIANT_NAMES /\
          k ∈ JsObject.keys (ImageMetadata.variants meta) /\
          k ∈ JsObject.keys uploadedVariants /\
          exists v u, JsObject.get (PhotoManifest.variants entry) k = Some v /\
                      UploadImages.variant_from meta uploadedVariants k v /\
                      ImageVariant.url v = Some u /\ u <> "".
Proof.
  eexists. split; [vm_compute; reflexivity|]. split; [reflexivity|].
  apply (manifest_variant_keys Samples.metadataList Samples.uploadedUrls).
  - sample_metadata_typed.
  - intros idx uv k up Hidx Hget.
    unfold Samples.uploadedUrls in Hidx.
    apply lookup_singleton_Some in Hidx as [<- <-].
    unfold Samples.uploaded_a in Hget. simpl in Hget.
    repeat match type of Hget with
           | context [decide (?a = k)] => destruct (decide (a = k))
           end; try discriminate; injection Hget as <-; discriminate.
  - vm_compute. reflexivity.
Defined.

(** * Folder metadata *)

Section FolderFacts.

Import UploadImages.
Local Open Scope nat_scope.

(** [split] never returns an empty array. *)
Lemma split_length (s : string) (sep : ascii) : 1 <= length (split s sep).
Proof.
  induction s as [|c s IH]; simpl; [done|].
  destruct (decide (c = sep)); simpl; [lia|].
  destruct (split s sep); simpl in *; lia.
Qed.

(** C2, the failing input: for a photo directly under the source root the
    relative path is empty, [split] gives one empty segment, and the
    category is the empty string, not "Uncategorized"; the other two stated
    examples hold, and so does the default of timeOfDay. *)
Theorem folder_metadata_empty_path :
  folder_metadata "" = (""%string, "Day"%string) /\
  (folder_metadata "").1 <> "Uncategorized"%string /\
  folder_metadata "Ceremony/Afternoon" = ("Ceremony"%string, "Afternoon"%string) /\
  folder_metadata "Portraits" = ("Portraits"%string, "Day"%string) /\
  (exists entry,
      construct_manifest [Samples.meta_root]
        {[ 0 := [("full"%string, mkData "https://cdn.example/f/r" "key:r")] ]}
      = Ok [entry] /\
      PhotoManifest.category entry = ""%string) /\
  forall relativePathBase,
    (folder_metadata relativePathBase).1
    = nth 0 (split relativePathBase path_sep) "Uncategorized"%string /\
    1 <= length (split relativePathBase path_sep).
Proof.
  repeat split; try reflexivity; try discriminate.
  - eexists. split; [vm_compute; reflexivity | reflexivity].
  - unfold folder_metadata. simpl.
    by rewrite bool_decide_eq_true_2 by apply split_length.
  - apply split_length.
Qed.

End FolderFacts.

(** * Variant generator *)

Section VariantGeneratorFacts.

Import OptimizeImages.
Local Open Scope Z_scope.

Variable Image : Type.
Variable image_width image_height : Image -> Z.
Variable decode : list byte -> result Image.
Variable resize : ResizeOptions -> Image -> Image.
Variable webp : Z -> Image -> Image.
Variable generatePlaceholder : list byte -> result string.
Variable readFileSync : string -> result (list byte).
Variable outputDir : string.
Variable path_join : string -> string -> string.
Variable path_relative : string -> string -> string.
Variable path_dirname : string -> string.
Variable path_basename : string -> string.
Variable path_parse_name : string -> string.

(** What the script relies on from [sharp]: with [withoutEnlargement] an
    image no wider than the requested width keeps its size, and re-encoding
    as WebP keeps the size. *)
Hypothesis resize_without_enlargement : forall img w,
  image_width img <= w ->
  image_width (resize (mkResize w true) img) = image_width img /\
  image_height (resize (mkResize w true) img) = image_height img.
Hypothesis webp_keeps_size : forall quality img,
  image_width (webp quality img) = image_width img /\
  image_height (webp quality img) = image_height img.

Local Abbreviation written := (written Image resize webp).
Local Abbreviation recorded :=
  (recorded Image image_width image_height resize webp path_join).
Local Abbreviation generate_sizes :=
  (generate_sizes Image image_width image_height decode resize webp path_join).
Local Abbreviation processSingleFile :=
  (processSingleFile Image image_width image_height decode resize webp
     generatePlaceholder readFileSync outputDir path_join path_relative
     path_dirname path_basename path_parse_name).

Lemma or_zero_Some (z : Z) : or_zero (Some z) = z.
Proof. unfold or_zero. destruct (Z.eqb_spec z 0); congruence. Qed.



End VariantGeneratorFacts.


(** * More on [forEach] *)

Section ForEachMore.

Context {A St : Type}.
Implicit Types (f : St -> A -> result St) (xs : list A) (st : St).

(** A loop that throws, throws in one of its callbacks. *)
Lemma forEach_throw_inv f xs st e :
  forEach f xs st = Throw e -> exists s x, x ∈ xs /\ f s x = Throw e.
Proof.
  revert st. induction xs as [|x xs IH]; intros st; simpl; [done|].
  destruct (f st x) as [s1|e1] eqn:Hf; simpl.
  - intros Hrest. destruct (IH _ Hrest) as (s & y & Hy & Hthrow).
    exists s, y. split; [by right | done].
  - intros [= <-]. exists st, x. split; [by left | done].
Qed.

(** A loop over a list with an element on which the callback always throws
    [e], and whose callbacks throw nothing else, throws [e]. *)
Lemma forEach_throws f xs st e x :
  x ∈ xs ->
  (forall s, f s x = Throw e) ->
  (forall s y e', f s y = Throw e' -> e' = e) ->
  forEach f xs st = Throw e.
Proof.
  intros Hx Hpoison Honly. revert st.
  induction xs as [|y xs IH]; intros st; [by apply elem_of_nil in Hx|].
  simpl. destruct (f st y) as [s1|e1] eqn:Hf; simpl.
  - apply IH. apply elem_of_cons in Hx as [->|Hx]; [|done].
    by rewrite Hpoison in Hf.
  - f_equal. by eapply Honly.
Qed.

End ForEachMore.

(** * The upload script as a whole *)

Section PipelineRuns.

Import UploadImages.
Local Open Scope nat_scope.
Local Open Scope list_scope.

Variable inputDir : string.
Variable path_join : string -> string -> string.
Variable path_basename : string -> string.
Variable existsSync : string -> bool.
Variable readFileSync : string -> result (list Byte.byte).
Variable ServiceState : Type.
Variable uploadFiles :
  ServiceState -> list File -> ServiceState * result (list UploadFileResult).

Local Abbreviation enqueue_variant :=
  (enqueue_variant inputDir path_join path_basename existsSync readFileSync).
Local Abbreviation enqueue_photo :=
  (enqueue_photo inputDir path_join path_basename existsSync readFileSync).
Local Abbreviation build_queue :=
  (build_queue inputDir path_join path_basename existsSync readFileSync).
Local Abbreviation upload_batch := (upload_batch ServiceState uploadFiles).
Local Abbreviation upload_from := (upload_from ServiceState uploadFiles).
Local Abbreviation upload_all := (upload_all ServiceState uploadFiles).
Local Abbreviation main :=
  (main inputDir path_join path_basename existsSync readFileSync ServiceState uploadFiles).

Implicit Types (metadataList : list ImageMetadata.t) (uploadQueue : list Job).

Import Statements.
Local Abbreviation reads_succeed := (Statements.reads_succeed existsSync readFileSync).

Lemma enqueue_variant_throws_TypeError idx q entry e :
  reads_succeed -> enqueue_variant idx q entry = Throw e -> e = TypeError.
Proof.
  intros Hreads. destruct entry as [size variant]. unfold UploadImages.enqueue_variant.
  destruct (ImageVariant.relativePath variant) as [rel|]; simpl; [|by intros [= <-]].
  destruct (existsSync _) eqn:Hex; [|done].
  destruct (Hreads _ Hex) as [buffer ->]. done.
Qed.

Lemma enqueue_photo_throws_TypeError q im e :
  reads_succeed -> enqueue_photo q im = Throw e -> e = TypeError.
Proof.
  intros Hreads Hthrow. unfold UploadImages.enqueue_photo in Hthrow.
  apply forEach_throw_inv in Hthrow as (s & entry & _ & Hthrow).
  by eapply enqueue_variant_throws_TypeError.
Qed.

Lemma build_queue_returns metadataList :
  reads_succeed -> paths_present metadataList ->
  exists uploadQueue, build_queue metadataList = Ok uploadQueue.
Proof.
  intros Hreads Hpaths. unfold UploadImages.build_queue.
  destruct (forEach_returns (fun _ => True) enqueue_photo (indexed metadataList) [])
    as (q & Hq & _); [|done|by exists q].
  intros q [idx meta] Him _. apply elem_of_indexed in Him.
  unfold UploadImages.enqueue_photo. simpl.
  destruct (forEach_returns (fun _ => True) (enqueue_variant idx)
              (JsObject.entries (ImageMetadata.variants meta)) q)
    as (q' & Hq' & _); [|done|by exists q'].
  intros q1 [size variant] Hentry _. unfold UploadImages.enqueue_variant.
  destruct (Hpaths meta size variant) as [rel ->];
    [by eapply list_elem_of_lookup_2 | done |].
  simpl. destruct (existsSync _) eqn:Hex; [|eauto].
  destruct (Hreads _ Hex) as [buffer ->]. simpl. eauto.
Qed.

Lemma build_queue_throws metadataList meta size variant :
  reads_succeed ->
  meta ∈ metadataList ->
  (size, variant) ∈ ImageMetadata.variants meta ->
  ImageVariant.relativePath variant = None ->
  build_queue metadataList = Throw TypeError.
Proof.
  intros Hreads Hmeta Hentry Hnone.
  apply list_elem_of_lookup in Hmeta as [idx Hidx].
  unfold UploadImages.build_queue.
  apply (forEach_throws _ _ _ _ (idx, meta)).
  - by apply elem_of_indexed.
  - intros q. unfold UploadImages.enqueue_photo. simpl.
    apply (forEach_throws _ _ _ _ (size, variant)); [done | |].
    + intros s. unfold UploadImages.enqueue_variant. by rewrite Hnone.
    + intros s y e'. by apply enqueue_variant_throws_TypeError.
  - intros q im e'. by apply enqueue_photo_throws_TypeError.
Qed.

(** X1.  When every existing file can be read, the upload script runs to
    the end and writes a manifest exactly when every variant of the metadata
    names its local file, whatever the upload service answers; a variant
    without [relativePath] ends the script with a [TypeError] while the queue
    is built, before any upload. *)
Theorem main_returns_iff_paths metadataList (s0 : ServiceState) :
  reads_succeed ->
  (paths_present metadataList ->
     exists manifest, main metadataList s0 = Ok manifest) /\
  (forall meta size variant,
     meta ∈ metadataList ->
     (size, variant) ∈ ImageMetadata.variants meta ->
     ImageVariant.relativePath variant = None ->
     build_queue metadataList = Throw TypeError /\
     main metadataList s0 = Throw TypeError).
Proof.
  intros Hreads. split.
  - intros Hpaths.
    destruct (build_queue_returns metadataList Hreads Hpaths) as [q Hq].
    exact (main_returns inputDir path_join path_basename existsSync readFileSync
             ServiceState uploadFiles metadataList q s0 Hq).
  - intros meta size variant Hmeta Hentry Hnone.
    pose proof (build_queue_throws _ _ _ _ Hreads Hmeta Hentry Hnone) as Hq.
    split; [done|]. unfold UploadImages.main. by rewrite Hq.
Qed.

Local Abbreviation sizes_on_disk := (sizes_on_disk inputDir path_join existsSync).

Lemma enqueue_variants_keys (idx : nat) (meta : ImageMetadata.t) uploadQueue :
  forall q,
    forEach (enqueue_variant idx) (JsObject.entries (ImageMetadata.variants meta)) q
      = Ok uploadQueue ->
    map job_key uploadQueue = map job_key q ++ map (pair idx) (sizes_on_disk meta).
Proof.
  unfold Statements.sizes_on_disk, JsObject.entries.
  induction (ImageMetadata.variants meta) as [|[size variant] es IH]; intros q; simpl.
  - intros [= <-]. by rewrite app_nil_r.
  - unfold UploadImages.enqueue_variant at 1.
    destruct (ImageVariant.relativePath variant) as [rel|]; simpl; [|done].
    destruct (existsSync _); [|apply IH].
    destruct (readFileSync _) as [buffer|]; simpl; [|done].
    intros Hrest. rewrite (IH _ Hrest), map_app, <- app_assoc. done.
Qed.

Lemma enqueue_photos_keys (ims : list (nat * ImageMetadata.t)) uploadQueue :
  forall q,
    forEach enqueue_photo ims q = Ok uploadQueue ->
    map job_key uploadQueue
    = map job_key q ++ (ims ≫= fun im => map (pair im.1) (sizes_on_disk im.2)).
Proof.
  induction ims as [|[idx meta] ims IH]; intros q; simpl.
  - intros [= <-]. by rewrite app_nil_r.
  - destruct (enqueue_photo q (idx, meta)) as [q1|] eqn:Hphoto; simpl; [|done].
    intros Hrest. rewrite (IH _ Hrest).
    unfold UploadImages.enqueue_photo in Hphoto. simpl in Hphoto.
    rewrite (enqueue_variants_keys _ _ _ _ Hphoto), <- app_assoc. done.
Qed.

Lemma NoDup_indexed {A} (xs : list A) : NoDup (indexed xs).
Proof.
  apply NoDup_alt. intros i j [k x] Hi Hj.
  unfold indexed in Hi, Hj. rewrite list_lookup_imap in Hi, Hj.
  destruct (xs !! i); destruct (xs !! j); simpl in *; congruence.
Qed.

Lemma elem_of_sizes_on_disk (meta : ImageMetadata.t) (size : string) :
  size ∈ sizes_on_disk meta <->
  exists variant rel,
    (size, variant) ∈ ImageMetadata.variants meta /\
    ImageVariant.relativePath variant = Some rel /\
    existsSync (path_join inputDir rel) = true.
Proof.
  unfold Statements.sizes_on_disk. rewrite list_elem_of_omap. split.
  - intros ([k variant] & Hin & Hsome). simpl in Hsome.
    destruct (ImageVariant.relativePath variant) as [rel|] eqn:Hrel; [|done].
    destruct (existsSync _) eqn:Hex; [|done].
    injection Hsome as ->. eauto.
  - intros (variant & rel & Hin & Hrel & Hex).
    exists (size, variant). split; [done|]. simpl. by rewrite Hrel, Hex.
Qed.

Lemma NoDup_sizes_on_disk (meta : ImageMetadata.t) :
  NoDup (JsObject.keys (ImageMetadata.variants meta)) -> NoDup (sizes_on_disk meta).
Proof.
  unfold Statements.sizes_on_disk, JsObject.keys.
  induction (ImageMetadata.variants meta) as [|[size variant] es IH]; simpl;
    [intros; apply NoDup_nil_2|].
  intros Hnodup. apply NoDup_cons in Hnodup as [Hfresh Hnodup].
  destruct (ImageVariant.relativePath variant) as [rel|]; [|by apply IH].
  destruct (existsSync _); [|by apply IH].
  apply NoDup_cons. split; [|by apply IH].
  intros Hin. apply Hfresh. apply list_elem_of_omap in Hin as ([k v] & Hin & Hsome).
  simpl in Hsome. apply list_elem_of_fmap. exists (k, v). split; [|done].
  destruct (ImageVariant.relativePath v); [|done].
  destruct (existsSync _); [|done]. by injection Hsome as ->.
Qed.

(** X2.  The queue holds one job for each variant whose local file exists,
    photo by photo and variant by variant in the order of the metadata;
    variants whose file is missing are left out without an error, and when
    the variant names of each photo are distinct no photo variant is queued
    twice. *)
Theorem queue_exactly_once metadataList uploadQueue :
  build_queue metadataList = Ok uploadQueue ->
  map job_key uploadQueue
    = (indexed metadataList ≫= fun im => map (pair im.1) (sizes_on_disk im.2)) /\
  (forall idx size,
     (idx, size) ∈ map job_key uploadQueue <->
     exists meta variant rel,
       metadataList !! idx = Some meta /\
       (size, variant) ∈ ImageMetadata.variants meta /\
       ImageVariant.relativePath variant = Some rel /\
       existsSync (path_join inputDir rel) = true) /\
  ((forall meta, meta ∈ metadataList ->
      NoDup (JsObject.keys (ImageMetadata.variants meta))) ->
   NoDup (map job_key uploadQueue)).
Proof.
  intros Hqueue. apply enqueue_photos_keys in Hqueue. simpl in Hqueue.
  rewrite Hqueue. split; [done|]. split.
  - intros idx size. rewrite list_elem_of_bind. split.
    + intros ([i meta] & Hin & Him). simpl in Hin.
      apply list_elem_of_fmap in Hin as (size' & [= -> ->] & Hsize).
      apply elem_of_indexed in Him. apply elem_of_sizes_on_disk in Hsize
        as (variant & rel & ? & ? & ?). by exists meta, variant, rel.
    + intros (meta & variant & rel & Hmeta & Hin & Hrel & Hex).
      exists (idx, meta). split; [|by apply elem_of_indexed]. simpl.
      apply list_elem_of_fmap. exists size. split; [done|].
      apply elem_of_sizes_on_disk. eauto.
  - intros Hnodup. apply NoDup_bind; [| |apply NoDup_indexed].
    + intros [i1 m1] [i2 m2] [i size] Hm1 Hm2 H1 H2. simpl in H1, H2.
      apply list_elem_of_fmap in H1 as (? & [= -> ->] & _).
      apply list_elem_of_fmap in H2 as (? & [= -> _] & _).
      apply elem_of_indexed in Hm1, Hm2. congruence.
    + intros [idx meta] Him. simpl. apply elem_of_indexed in Him.
      apply NoDup_fmap_2; [intros ? ? [= ->]; done|].
      apply NoDup_sizes_on_disk, Hnodup. by eapply list_elem_of_lookup_2.
Qed.

Lemma construct_manifest_no_uploads metadataList :
  construct_manifest metadataList ∅ = Ok [].
Proof.
  unfold construct_manifest. generalize (@nil PhotoManifest.t) as manifest.
  induction (indexed metadataList) as [|[idx meta] ims IH]; intros manifest; [done|].
  simpl. rewrite lookup_empty. simpl. apply IH.
Qed.

(** X3.  When no upload succeeds (every batch rejects, or resolves to
    results without data) the script still runs to the end, and the manifest
    it writes is empty. *)
Theorem no_upload_no_manifest_entry metadataList uploadQueue (s0 : ServiceState) :
  service_never_stores uploadFiles ->
  build_queue metadataList = Ok uploadQueue ->
  uploadedUrls _ (upload_all uploadQueue s0) = ∅ /\
  main metadataList s0 = Ok [].
Proof.
  intros Hnever Hqueue.
  assert (uploadedUrls _ (upload_all uploadQueue s0) = ∅) as Hempty.
  { unfold UploadImages.upload_all.
    apply (upload_from_invariant ServiceState uploadFiles (fun U => U = ∅)
             (fun res => data res = None)); [exact Hnever | | done].
    intros U c job res _ Hres ->. unfold record_response. by rewrite Hres. }
  split; [done|]. unfold UploadImages.main. rewrite Hqueue. simpl.
  rewrite Hempty. apply construct_manifest_no_uploads.
Qed.

(** Recording a response never removes an upload recorded before. *)
Lemma record_response_keeps U c jr (job : Job) :
  recorded U job -> recorded (record_response (U, c) jr).1 job.
Proof.
  destruct jr as [job' res]. intros (uv & d & Huv & Hd). unfold record_response.
  destruct (data res) as [d'|]; cbn [fst]; [|by exists uv, d].
  unfold recorded. destruct (decide (metaIndex job' = metaIndex job)) as [Heq|Hne].
  - rewrite Heq. unfold JsObject.t in *. rewrite lookup_insert_eq, Huv.
    cbn [default from_option id].
    destruct (decide (sizeName job' = sizeName job)) as [->|Hsize].
    + eexists _, _. split; [done|]. by rewrite get_set_eq.
    + eexists _, d. split; [done|]. by rewrite get_set_ne.
  - rewrite lookup_insert_ne by done. by exists uv, d.
Qed.

Lemma record_response_records U c (job : Job) res :
  is_Some (data res) -> recorded (record_response (U, c) (job, res)).1 job.
Proof.
  intros [d Hd]. unfold record_response. rewrite Hd. simpl.
  unfold recorded. eexists _, _. rewrite lookup_insert_eq.
  split; [done|]. by rewrite get_set_eq.
Qed.

Lemma record_responses_keep (jrs : list (Job * UploadFileResult)) U c (job : Job) :
  recorded U job -> recorded (fold_left record_response jrs (U, c)).1 job.
Proof.
  revert U c. induction jrs as [|jr jrs IH]; intros U c Hrec; [done|].
  cbn [fold_left]. destruct (record_response (U, c) jr) as [U1 c1] eqn:Hstep.
  apply IH. pose proof (record_response_keeps U c jr job Hrec) as Hkeep.
  by rewrite Hstep in Hkeep.
Qed.

Lemma record_responses_all (batch : list Job) (responses : list UploadFileResult) U c :
  length responses = length batch ->
  Forall (fun res => is_Some (data res)) responses ->
  forall job, job ∈ batch ->
    recorded (fold_left record_response (combine batch responses) (U, c)).1 job.
Proof.
  revert responses U c. induction batch as [|j batch IH];
    intros responses U c Hlen Hall job Hjob; [by apply elem_of_nil in Hjob|].
  destruct responses as [|res responses]; [done|].
  apply Forall_cons in Hall as [Hres Hall]. simpl in Hlen.
  cbn [combine fold_left].
  destruct (record_response (U, c) (j, res)) as [U1 c1] eqn:Hstep.
  apply elem_of_cons in Hjob as [->|Hjob].
  - apply record_responses_keep.
    pose proof (record_response_records U c j res Hres) as Hrec.
    by rewrite Hstep in Hrec.
  - apply IH; [lia | done | done].
Qed.

Lemma upload_batch_all (i : nat) (batch : list Job) st :
  service_stores_all uploadFiles ->
  (forall job, job ∈ batch -> recorded (uploadedUrls _ (upload_batch i batch st)) job) /\
  (forall job, recorded (uploadedUrls _ st) job ->
               recorded (uploadedUrls _ (upload_batch i batch st)) job).
Proof.
  intros Hall. unfold UploadImages.upload_batch.
  destruct (Hall (service _ st) (map file batch)) as (s' & responses & -> & Hlen & Hdata).
  rewrite length_map in Hlen.
  split.
  - intros job Hjob.
    pose proof (record_responses_all batch responses (uploadedUrls _ st)
      ((console _ st ++ [LogUploadingBatch (i / BATCH_SIZE + 1) (length batch);
                         UploadFilesCalled (map file batch)])
       ++ [UploadFilesSettled true]) Hlen Hdata job Hjob) as Hrec.
    by destruct (fold_left _ _ _).
  - intros job Hjob.
    pose proof (record_responses_keep (combine batch responses) (uploadedUrls _ st)
      ((console _ st ++ [LogUploadingBatch (i / BATCH_SIZE + 1) (length batch);
                         UploadFilesCalled (map file batch)])
       ++ [UploadFilesSettled true]) job Hjob) as Hrec.
    by destruct (fold_left _ _ _).
Qed.

Lemma upload_from_all uploadQueue (i : nat) st :
  service_stores_all uploadFiles ->
  (forall job, job ∈ take i uploadQueue -> recorded (uploadedUrls _ st) job) ->
  forall job, job ∈ uploadQueue ->
    recorded (uploadedUrls _ (upload_from uploadQueue i st)) job.
Proof.
  intros Hall. funelim (upload_from uploadQueue i st); intros Hdone job Hjob.
  - match goal with IH : service_stores_all _ -> _ |- _ =>
      apply (IH Hall); [|done] end.
    intros j Hj.
    destruct (upload_batch_all i (slice uploadQueue i (i + BATCH_SIZE)) st Hall)
      as [Hnew Hkeep].
    rewrite <- (take_take_drop uploadQueue i BATCH_SIZE) in Hj.
    apply elem_of_app in Hj as [Hj|Hj]; [by apply Hkeep, Hdone|].
    apply Hnew. unfold slice.
    by replace (i + BATCH_SIZE - i) with BATCH_SIZE by lia.
  - apply Hdone. rewrite take_ge by lia. done.
Qed.

(** Helper: what the assembler pushes for a sublist of the photos. *)
Lemma construct_entries_summaries metadataList uploadQueue (s0 : ServiceState)
    (ims : list (nat * ImageMetadata.t)) :
  typed_metadata metadataList ->
  build_queue metadataList = Ok uploadQueue ->
  (forall im, im ∈ ims -> metadataList !! im.1 = Some im.2) ->
  forall manifest, exists manifest',
    forEach (construct_entry (uploadedUrls _ (upload_all uploadQueue s0))) ims manifest
      = Ok manifest' /\
    map entry_summary manifest'
    = map entry_summary manifest ++
      map (fun im => photo_summary im.2)
          (filter (fun im => is_Some (uploadedUrls _ (upload_all uploadQueue s0) !! im.1))
                  ims).
Proof.
  intros Htyped Hqueue. induction ims as [|[idx meta] ims IH]; intros Hims manifest.
  - exists manifest. simpl. by rewrite app_nil_r.
  - assert (metadataList !! idx = Some meta) as Hmeta by (apply (Hims (idx, meta)); by left).
    assert (forall im, im ∈ ims -> metadataList !! im.1 = Some im.2) as Hims'
      by (intros im Him; apply Hims; by right).
    rewrite filter_cons. cbn [forEach fst snd].
    destruct (uploadedUrls _ (upload_all uploadQueue s0) !! idx) as [uv|] eqn:Huv.
    + destruct (pipeline_recorded_keys inputDir path_join path_basename existsSync
                  readFileSync ServiceState uploadFiles _ _ _ _ _ _ Hqueue Hmeta Huv)
        as [Hne Hkeys].
      destruct (construct_entry_pushes _ idx meta uv Huv Hne Hkeys)
        as (k & up & variant & mv & _ & _ & _ & Hpush).
      { intros k. apply Htyped. by eapply list_elem_of_lookup_2. }
      rewrite Hpush. cbn [mbind result_bind].
      destruct (IH Hims' (manifest ++
        [PhotoManifest.mk (key up)
           (folder_metadata (ImageMetadata.relativePathBase meta)).1
           (folder_metadata (ImageMetadata.relativePathBase meta)).2
           (ImageMetadata.blurDataUrl meta) mv (url up)
           (ImageVariant.width variant) (ImageVariant.height variant)]))
        as (manifest' & -> & Hsum).
      exists manifest'. split; [done|].
      rewrite Hsum, map_app, <- app_assoc.
      rewrite decide_True by eauto. done.
    + assert (construct_entry (uploadedUrls _ (upload_all uploadQueue s0)) manifest
                (idx, meta) = Ok manifest) as ->.
      { cbv beta iota delta [construct_entry]. by rewrite Huv. }
      cbn [mbind result_bind]. destruct (IH Hims' manifest) as (manifest' & -> & Hsum).
      exists manifest'. split; [done|].
      rewrite Hsum. rewrite decide_False; [done|]. by intros [? ?].
Qed.

(** X4.  On metadata typed as [ImageMetadata] the manifest has exactly one
    entry for each photo with a recorded upload and none for the others, in
    the order of the metadata; each entry carries its photo's blur
    placeholder and the category and time of day of its folder. *)
Theorem manifest_one_entry_per_uploaded_photo metadataList uploadQueue
    (s0 : ServiceState) :
  typed_metadata metadataList ->
  build_queue metadataList = Ok uploadQueue ->
  exists manifest,
    main metadataList s0 = Ok manifest /\
    map entry_summary manifest
    = map (fun im => photo_summary im.2)
          (filter (fun im => is_Some (uploadedUrls _ (upload_all uploadQueue s0) !! im.1))
                  (indexed metadataList)).
Proof.
  intros Htyped Hqueue.
  destruct (construct_entries_summaries metadataList uploadQueue s0
              (indexed metadataList) Htyped Hqueue) with (manifest := @nil PhotoManifest.t)
    as (manifest & Hrun & Hsum).
  { intros [idx meta] Him. by apply elem_of_indexed. }
  exists manifest. split; [|exact Hsum].
  unfold UploadImages.main. rewrite Hqueue. simpl. exact Hrun.
Qed.

Lemma filter_iff_elem {A} (P1 P2 : A -> Prop) `{!forall x, Decision (P1 x)}
    `{!forall x, Decision (P2 x)} (l : list A) :
  (forall x, x ∈ l -> P1 x <-> P2 x) -> filter P1 l = filter P2 l.
Proof.
  induction l as [|x l IH]; intros Hiff; [done|].
  rewrite !filter_cons, IH by (intros y Hy; apply Hiff; by right).
  destruct (decide (P1 x)) as [H1|H1], (decide (P2 x)) as [H2|H2]; try done.
  - destruct H2. apply Hiff; [by left | done].
  - destruct H1. apply Hiff; [by left | done].
Qed.

(** Helper: the entries the assembler pushes for a sublist of the photos,
    each with the photo it is the entry of. *)
Lemma construct_entries_photos metadataList uploadQueue (s0 : ServiceState)
    (ims : list (nat * ImageMetadata.t)) :
  typed_metadata metadataList ->
  build_queue metadataList = Ok uploadQueue ->
  (forall im, im ∈ ims -> metadataList !! im.1 = Some im.2) ->
  forall manifest, exists new,
    forEach (construct_entry (uploadedUrls _ (upload_all uploadQueue s0))) ims manifest
      = Ok (manifest ++ new) /\
    Forall2 (entry_of_photo (uploadedUrls _ (upload_all uploadQueue s0))) new
      (filter (fun im => is_Some (uploadedUrls _ (upload_all uploadQueue s0) !! im.1))
              ims).
Proof.
  intros Htyped Hqueue. induction ims as [|[idx meta] ims IH]; intros Hims manifest.
  - exists []. simpl. rewrite app_nil_r. split; [done | apply Forall2_nil_2].
  - assert (metadataList !! idx = Some meta) as Hmeta by (apply (Hims (idx, meta)); by left).
    assert (forall im, im ∈ ims -> metadataList !! im.1 = Some im.2) as Hims'
      by (intros im Him; apply Hims; by right).
    rewrite filter_cons. cbn [forEach fst snd].
    destruct (uploadedUrls _ (upload_all uploadQueue s0) !! idx) as [uv|] eqn:Huv.
    + destruct (pipeline_recorded_keys inputDir path_join path_basename existsSync
                  readFileSync ServiceState uploadFiles _ _ _ _ _ _ Hqueue Hmeta Huv)
        as [Hne Hkeys].
      destruct (construct_entry_pushes _ idx meta uv Huv Hne Hkeys)
        as (k & up & variant & mv & Hchoice & Hup & Hvar & Hpush).
      { intros k. apply Htyped. by eapply list_elem_of_lookup_2. }
      rewrite Hpush. cbn [mbind result_bind].
      destruct (IH Hims' (manifest ++
        [PhotoManifest.mk (key up)
           (folder_metadata (ImageMetadata.relativePathBase meta)).1
           (folder_metadata (ImageMetadata.relativePathBase meta)).2
           (ImageMetadata.blurDataUrl meta) mv (url up)
           (ImageVariant.width variant) (ImageVariant.height variant)]))
        as (new & -> & Hnew).
      eexists (_ :: new). rewrite <- app_assoc. split; [done|].
      rewrite decide_True by eauto.
      constructor; [|done].
      exists uv, k, up, variant. cbn [fst snd]. by repeat split.
    + assert (construct_entry (uploadedUrls _ (upload_all uploadQueue s0)) manifest
                (idx, meta) = Ok manifest) as ->.
      { cbv beta iota delta [construct_entry]. by rewrite Huv. }
      cbn [mbind result_bind]. destruct (IH Hims' manifest) as (new & -> & Hnew).
      exists new. split; [done|].
      rewrite decide_False; [done|]. by intros [? ?].
Qed.

(** X5.  When the upload service stores every file it is given, every
    queued job is recorded in the upload map, and on metadata typed as
    [ImageMetadata] the manifest has exactly one entry for each photo with
    at least one variant file on disk and none for the others, in the order
    of the metadata; the entry of a photo is made of that photo's own
    upload record and metadata. *)
Theorem all_uploads_succeed metadataList uploadQueue (s0 : ServiceState) :
  service_stores_all uploadFiles ->
  typed_metadata metadataList ->
  build_queue metadataList = Ok uploadQueue ->
  (forall job, job ∈ uploadQueue ->
     recorded (uploadedUrls _ (upload_all uploadQueue s0)) job) /\
  exists manifest,
    main metadataList s0 = Ok manifest /\
    Forall2 (entry_of_photo (uploadedUrls _ (upload_all uploadQueue s0))) manifest
      (filter (fun im => sizes_on_disk im.2 <> []) (indexed metadataList)).
Proof.
  intros Hall Htyped Hqueue.
  assert (Hrecorded : forall job, job ∈ uploadQueue ->
            recorded (uploadedUrls _ (upload_all uploadQueue s0)) job).
  { unfold UploadImages.upload_all. apply upload_from_all; [done|].
    intros job Hjob. rewrite take_0 in Hjob. by apply elem_of_nil in Hjob. }
  split; [exact Hrecorded|].
  destruct (construct_entries_photos metadataList uploadQueue s0
              (indexed metadataList) Htyped Hqueue) with (manifest := @nil PhotoManifest.t)
    as (manifest & Hrun & Hentries).
  { intros [idx meta] Him. by apply elem_of_indexed. }
  exists manifest. split.
  { unfold UploadImages.main. rewrite Hqueue. simpl. exact Hrun. }
  assert (filter (fun im : nat * ImageMetadata.t => sizes_on_disk im.2 <> [])
                 (indexed metadataList)
          = filter (fun im : nat * ImageMetadata.t =>
                      is_Some (uploadedUrls _ (upload_all uploadQueue s0) !! im.1))
                   (indexed metadataList)) as ->; [|exact Hentries].
  apply filter_iff_elem.
  intros [idx meta] Him. apply elem_of_indexed in Him. cbn [fst snd].
  pose proof (enqueue_photos_keys _ _ _ Hqueue) as Hkeys. simpl in Hkeys.
  symmetry. split.
  - intros [uv Huv] Hnone.
    destruct (upload_all_from_queue ServiceState uploadFiles uploadQueue s0 idx uv Huv)
      as [Hne Hjobs].
    destruct uv as [|[k d] uv]; [done|].
    destruct (Hjobs k) as (job & Hjob & Hidx & Hsize); [by left|].
    assert ((idx, k) ∈ map job_key uploadQueue) as Hkey.
    { apply list_elem_of_fmap. exists job. split; [|done].
      unfold job_key. by rewrite Hidx, Hsize. }
    rewrite Hkeys in Hkey.
    apply list_elem_of_bind in Hkey as ([idx' meta'] & Hin & Him').
    apply elem_of_indexed in Him'. simpl in Hin.
    apply list_elem_of_fmap in Hin as (size & [= <- <-] & Hsize').
    rewrite Him in Him'. injection Him' as <-.
    rewrite Hnone in Hsize'. by apply elem_of_nil in Hsize'.
  - intros Hsome.
    destruct (sizes_on_disk meta) as [|size sizes] eqn:Hsizes; [done|].
    assert ((idx, size) ∈ map job_key uploadQueue) as Hkey.
    { rewrite Hkeys. apply list_elem_of_bind. exists (idx, meta).
      split; [|by apply elem_of_indexed].
      simpl. apply list_elem_of_fmap. exists size. split; [done|].
      rewrite Hsizes. by left. }
    apply list_elem_of_fmap in Hkey as (job & Hjobkey & Hjob).
    injection Hjobkey as Hidx Hsz.
    destruct (Hrecorded job Hjob) as (uv & d & Huv & _). rewrite <- Hidx in Huv.
    by exists uv.
Qed.

End PipelineRuns.

(** * Assembled entries and the components that read them *)

Section AssembledEntries.

Import UploadImages Gallery Statements.
Local Open Scope list_scope.

Implicit Types (uploadedUrls : gmap nat (JsObject.t UploadedFileData)).
Implicit Types (metadataList : list ImageMetadata.t).

(** Where an entry of the manifest comes from. *)
Lemma manifest_entry_origin metadataList uploadedUrls manifest entry :
  construct_manifest metadataList uploadedUrls = Ok manifest ->
  entry ∈ manifest ->
  exists idx meta uploadedVariants k uploaded variant manifestVariants,
    metadataList !! idx = Some meta /\
    uploadedUrls !! idx = Some uploadedVariants /\
    defaultVariantKey uploadedVariants = Some k /\
    JsObject.get uploadedVariants k = Some uploaded /\
    JsObject.get (ImageMetadata.variants meta) k = Some variant /\
    forEach (add_manifest_variant meta uploadedVariants)
            (JsObject.keys (ImageMetadata.variants meta)) [] = Ok manifestVariants /\
    entry = PhotoManifest.mk (key uploaded)
              (folder_metadata (ImageMetadata.relativePathBase meta)).1
              (folder_metadata (ImageMetadata.relativePathBase meta)).2
              (ImageMetadata.blurDataUrl meta) manifestVariants (url uploaded)
              (ImageVariant.width variant) (ImageVariant.height variant).
Proof.
  intros Hrun. unfold construct_manifest in Hrun. revert entry.
  refine (forEach_invariant (fun m => forall entry, entry ∈ m -> _) _ _ _ _ _ _ Hrun);
    [|intros entry Hin; by apply elem_of_nil in Hin].
  intros m [idx meta] m' Him Hm Hstep entry Hentry.
  apply elem_of_indexed in Him.
  apply construct_entry_cases in Hstep
    as [->|(uv & k & up & variant & mv & Huv & Hk & Hup & Hvar & Hmv & ->)];
    [by apply Hm|].
  apply elem_of_app in Hentry as [Hentry|Hentry]; [by apply Hm|].
  apply list_elem_of_singleton in Hentry as ->.
  by exists idx, meta, uv, k, up, variant, mv.
Qed.

(** Every uploaded variant of the metadata is written to the variants map. *)
Lemma add_manifest_variant_complete meta
    (uploadedVariants : JsObject.t UploadedFileData) (k : string)
    (uploaded : UploadedFileData) (variant : ImageVariant.t) sizes :
  JsObject.get uploadedVariants k = Some uploaded ->
  JsObject.get (ImageMetadata.variants meta) k = Some variant ->
  forall mv mv',
    forEach (add_manifest_variant meta uploadedVariants) sizes mv = Ok mv' ->
    k ∈ sizes \/
    JsObject.get mv k
    = Some (ImageVariant.mk (ImageVariant.width variant) (ImageVariant.height variant)
                            None (Some (url uploaded))) ->
    JsObject.get mv' k
    = Some (ImageVariant.mk (ImageVariant.width variant) (ImageVariant.height variant)
                            None (Some (url uploaded))).
Proof.
  intros Hup Hvar. induction sizes as [|size sizes IH]; intros mv mv'; cbn [forEach].
  - intros [= <-] [Hin|Hget]; [by apply elem_of_nil in Hin | done].
  - destruct (add_manifest_variant meta uploadedVariants mv size) as [mv1|e] eqn:Hstep;
      cbn [mbind result_bind]; [|done].
    intros Hrest Hk. apply (IH _ _ Hrest). unfold add_manifest_variant in Hstep.
    destruct (decide (size = k)) as [Heq|Hne].
    + subst size. rewrite Hup, Hvar in Hstep. simpl in Hstep.
      injection Hstep as <-. right. by rewrite get_set_eq.
    + destruct Hk as [Hin|Hget];
        [apply elem_of_cons in Hin as [->|Hin]; [done | by left]|].
      right. destruct (JsObject.get uploadedVariants size) as [u|].
      * destruct (JsObject.get (ImageMetadata.variants meta) size) as [v|];
          simpl in Hstep; [|done].
        injection Hstep as <-. by rewrite get_set_ne.
      * by injection Hstep as <-.
Qed.

(** X6.  The top-level url, width and height of every assembled entry are
    a copy of one of the entry's own variants, the default one. *)
Theorem default_copy_is_a_variant metadataList uploadedUrls manifest entry :
  construct_manifest metadataList uploadedUrls = Ok manifest ->
  entry ∈ manifest ->
  exists k v,
    JsObject.get (PhotoManifest.variants entry) k = Some v /\
    ImageVariant.url v = Some (PhotoManifest.url entry) /\
    ImageVariant.width v = PhotoManifest.width entry /\
    ImageVariant.height v = PhotoManifest.height entry.
Proof.
  intros Hrun Hentry.
  destruct (manifest_entry_origin _ _ _ _ Hrun Hentry)
    as (idx & meta & uv & k & up & variant & mv & _ & _ & _ & Hup & Hvar & Hmv & ->).
  exists k, (ImageVariant.mk (ImageVariant.width variant) (ImageVariant.height variant)
               None (Some (url up))).
  simpl. split; [|done].
  apply (add_manifest_variant_complete meta uv k up variant _ Hup Hvar _ _ Hmv).
  left. apply elem_of_keys_get. eauto.
Qed.

(** The selector returns the top-level fields or a variant that has a
    non-empty url. *)
Lemma getResponsiveVariant_cases (photo : PhotoManifest.t) (w : Z) :
  getResponsiveVariant photo w = top_level photo \/
  exists name,
    name ∈ ["tablet"; "desktop"; "full"]%string /\
    with_url (JsObject.get (PhotoManifest.variants photo) name)
    = Some (getResponsiveVariant photo w).
Proof.
  unfold getResponsiveVariant.
  destruct (w <=? BREAKPOINTS_tablet)%Z;
    [destruct (with_url (JsObject.get _ "tablet")) as [r|] eqn:Ht|].
  1: { right. exists "tablet"%string. split; [|done]. set_solver. }
  all: destruct (w <=? BREAKPOINTS_desktop)%Z;
    [destruct (with_url (JsObject.get _ "desktop")) as [r|] eqn:Hd|].
  all: try (right; exists "desktop"%string; split; [set_solver | done]).
  all: destruct (with_url (JsObject.get _ "full")) as [r|] eqn:Hf;
    [right; exists "full"%string; split; [set_solver | done] | by left].
Qed.

(** On an assembled entry whose recorded urls are non-empty, a variant that
    is present passes the selector's test of its url. *)
Lemma assembled_variant_usable metadataList uploadedUrls manifest entry (name : string) :
  urls_nonempty uploadedUrls ->
  construct_manifest metadataList uploadedUrls = Ok manifest ->
  entry ∈ manifest ->
  with_url (JsObject.get (PhotoManifest.variants entry) name)
  = rendition_of <$> JsObject.get (PhotoManifest.variants entry) name.
Proof.
  intros Hurls Hrun Hentry.
  destruct (manifest_entry_origin _ _ _ _ Hrun Hentry)
    as (idx & meta & uv & k & up & variant & mv & _ & Huv & _ & _ & _ & Hmv & ->).
  cbn [PhotoManifest.variants].
  destruct (JsObject.get mv name) as [v|] eqn:Hget; [|done].
  destruct (add_manifest_variant_inv meta uv _ _ _ Hmv) with (k := name)
    as (v' & Hv' & up' & var' & Hup' & _ & ->);
    [intros ? Hnil; by apply elem_of_nil in Hnil | apply elem_of_keys_get; eauto |].
  rewrite Hget in Hv'. injection Hv' as ->.
  pose proof (Hurls idx uv name up' Huv Hup') as Hne.
  unfold with_url, truthy. cbn [ImageVariant.url].
  by rewrite bool_decide_eq_false_2.
Qed.

Lemma first_usable_present metadataList uploadedUrls manifest entry (prefs : list string) :
  urls_nonempty uploadedUrls ->
  construct_manifest metadataList uploadedUrls = Ok manifest ->
  entry ∈ manifest ->
  first_usable prefs entry = first_present prefs entry.
Proof.
  intros Hurls Hrun Hentry. induction prefs as [|name prefs IH]; [done|].
  cbn [first_usable first_present].
  rewrite (assembled_variant_usable _ _ _ _ name Hurls Hrun Hentry).
  by destruct (JsObject.get (PhotoManifest.variants entry) name).
Qed.

(** The top-level fields of an assembled entry that has a desktop variant
    are the copy of that variant. *)
Lemma top_level_is_desktop_copy metadataList uploadedUrls manifest entry (r : Rendition) :
  construct_manifest metadataList uploadedUrls = Ok manifest ->
  entry ∈ manifest ->
  with_url (JsObject.get (PhotoManifest.variants entry) "desktop") = Some r ->
  top_level entry = r.
Proof.
  intros Hrun Hentry Hdesktop.
  destruct (manifest_entry_origin _ _ _ _ Hrun Hentry)
    as (idx & meta & uv & k & up & variant & mv & _ & _ & Hk & Hup & Hvar & Hmv & ->).
  cbn [PhotoManifest.variants] in Hdesktop.
  apply with_url_some_iff in Hdesktop as (iv & Hget & Hurl & _ & Hwidth & Hheight).
  destruct (add_manifest_variant_inv meta uv _ _ _ Hmv) with (k := "desktop"%string)
    as (v & Hv & up' & var' & Hup' & Hvar' & ->);
    [intros ? Hnil; by apply elem_of_nil in Hnil | apply elem_of_keys_get; eauto |].
  rewrite Hget in Hv. injection Hv as ->.
  unfold defaultVariantKey in Hk. rewrite Hup' in Hk. injection Hk as <-.
  rewrite Hup' in Hup. injection Hup as ->.
  rewrite Hvar' in Hvar. injection Hvar as ->.
  unfold top_level. simpl in *. injection Hurl as Hurl.
  destruct r; simpl in *; congruence.
Qed.

(** C1.  On every entry of a manifest the assembler writes from an upload
    map with non-empty urls, the selector follows the stated preference
    policy and always returns a usable rendition: up to the tablet
    breakpoint (1280) the tablet variant if present, else desktop, then
    full, then the entry's top-level url, width and height; between the
    tablet and the desktop breakpoint (1920) desktop, then full, then the
    top-level fields; above the desktop breakpoint the full variant if
    present, else the desktop variant, else the top-level fields; and the
    url it returns is never empty. *)
Theorem getResponsiveVariant_stated_policy metadataList uploadedUrls manifest entry
    (w : Z) :
  urls_nonempty uploadedUrls ->
  construct_manifest metadataList uploadedUrls = Ok manifest ->
  entry ∈ manifest ->
  ((w <= BREAKPOINTS_tablet)%Z ->
     getResponsiveVariant entry w
     = first_present ["tablet"; "desktop"; "full"]%string entry) /\
  ((BREAKPOINTS_tablet < w <= BREAKPOINTS_desktop)%Z ->
     getResponsiveVariant entry w = first_present ["desktop"; "full"]%string entry) /\
  ((BREAKPOINTS_desktop < w)%Z ->
     getResponsiveVariant entry w = first_present ["full"; "desktop"]%string entry) /\
  r_url (getResponsiveVariant entry w) <> ""%string.
Proof.
  intros Hurls Hrun Hentry.
  destruct (getResponsiveVariant_policy entry w) as (Hlow & Hmid & Hhigh).
  split; [|split; [|split]].
  - intros Hw. rewrite (Hlow Hw). by eapply first_usable_present.
  - intros Hw. rewrite (Hmid Hw). by eapply first_usable_present.
  - intros Hw. rewrite (Hhigh Hw).
    rewrite <- (first_usable_present _ _ _ _ _ Hurls Hrun Hentry).
    cbn [first_usable].
    destruct (with_url (JsObject.get (PhotoManifest.variants entry) "full"))
      as [r|]; [done|].
    destruct (with_url (JsObject.get (PhotoManifest.variants entry) "desktop"))
      as [r|] eqn:Hdesktop; [|done].
    by eapply top_level_is_desktop_copy.
  - destruct (getResponsiveVariant_cases entry w) as [->|(name & _ & Hwith)].
    + destruct (manifest_entry_origin _ _ _ _ Hrun Hentry)
        as (idx & meta & uv & k & up & variant & mv & _ & Huv & _ & Hup & _ & _ & ->).
      simpl. by eapply Hurls.
    + apply with_url_some_iff in Hwith as (iv & _ & _ & Hne & _). exact Hne.
Qed.

(** X7.  On every assembled entry the selector follows, above the desktop
    breakpoint, the preference full, then desktop, then the top-level url:
    when the entry has a desktop variant and no full one, its top-level
    fields are the copy of the desktop variant. *)
Theorem selector_on_assembled_entry metadataList uploadedUrls manifest entry (w : Z) :
  construct_manifest metadataList uploadedUrls = Ok manifest ->
  entry ∈ manifest ->
  (BREAKPOINTS_desktop < w)%Z ->
  getResponsiveVariant entry w = first_usable stated_preference_above_desktop entry.
Proof.
  intros Hrun Hentry Hw.
  destruct (manifest_entry_origin _ _ _ _ Hrun Hentry)
    as (idx & meta & uv & k & up & variant & mv & _ & _ & Hk & Hup & Hvar & Hmv & ->).
  unfold getResponsiveVariant, stated_preference_above_desktop,
    BREAKPOINTS_tablet, BREAKPOINTS_desktop in *.
  assert ((w <=? 1280)%Z = false) as -> by lia.
  assert ((w <=? 1920)%Z = false) as -> by lia.
  cbn [first_usable PhotoManifest.variants].
  destruct (with_url (JsObject.get mv "full")) as [r|]; [done|].
  destruct (with_url (JsObject.get mv "desktop")) as [r|] eqn:Hdesktop; [|done].
  apply with_url_some_iff in Hdesktop as (iv & Hget & Hurl & _ & Hwidth & Hheight).
  destruct (add_manifest_variant_inv meta uv _ _ _ Hmv) with (k := "desktop"%string)
    as (v & Hv & up' & var' & Hup' & Hvar' & ->);
    [intros ? Hnil; by apply elem_of_nil in Hnil | apply elem_of_keys_get; eauto |].
  rewrite Hget in Hv. injection Hv as ->.
  unfold defaultVariantKey in Hk. rewrite Hup' in Hk. injection Hk as <-.
  rewrite Hup' in Hup. injection Hup as ->.
  rewrite Hvar' in Hvar. injection Hvar as ->.
  unfold top_level. simpl in *. injection Hurl as Hurl.
  destruct r; simpl in *; congruence.
Qed.

(** X8.  When the recorded urls are non-empty, the selector returns a
    non-empty url for every assembled entry at every viewport width. *)
Theorem selector_url_nonempty metadataList uploadedUrls manifest entry (w : Z) :
  urls_nonempty uploadedUrls ->
  construct_manifest metadataList uploadedUrls = Ok manifest ->
  entry ∈ manifest ->
  r_url (getResponsiveVariant entry w) <> "".
Proof.
  intros Hurls Hrun Hentry.
  destruct (getResponsiveVariant_cases entry w) as [->|(name & _ & Hwith)].
  - destruct (manifest_entry_origin _ _ _ _ Hrun Hentry)
      as (idx & meta & uv & k & up & variant & mv & _ & Huv & _ & Hup & _ & _ & ->).
    simpl. by eapply Hurls.
  - apply with_url_some_iff in Hwith as (iv & _ & _ & Hne & _). exact Hne.
Qed.

End AssembledEntries.

(** * More on the manifest reader *)

Section ReaderLookups.

Import GalleryServer.

Variable readFile : result string.
Variable JSON_parse : string -> result (list PhotoManifest.t).

Local Abbreviation manifest := (readManifest readFile JSON_parse).
Local Abbreviation getImageById := (getImageById readFile JSON_parse).
Local Abbreviation getImagesByCategory := (getImagesByCategory readFile JSON_parse).

Lemma find_by_id_eq (id : string) (l : list PhotoManifest.t) :
  find (fun photo => bool_decide (Some (PhotoManifest.id photo) = Some id)) l
  = find (fun photo => bool_decide (PhotoManifest.id photo = id)) l.
Proof.
  induction l as [|p l IH]; simpl; [done|].
  rewrite IH. destruct (decide (PhotoManifest.id p = id)) as [Heq|Hne].
  - rewrite !bool_decide_eq_true_2; congruence.
  - rewrite !bool_decide_eq_false_2; congruence.
Qed.

Lemma getImageById_find (id : string) :
  id <> "" ->
  getImageById id
  = match find (fun photo => bool_decide (PhotoManifest.id photo = id)) manifest with
    | Some photo => One photo
    | None => Null
    end.
Proof.
  intros Hid. unfold GalleryServer.getImageById, getImages. simpl.
  rewrite bool_decide_eq_false_2 by done. simpl. by rewrite find_by_id_eq.
Qed.

(** X9.  For a non-empty id the lookup by id answers null exactly when no
    entry of the manifest has that id, and otherwise a single entry of the
    manifest that has that id, the first such one; it never answers a list. *)
Theorem getImageById_sound_complete (id : string) :
  id <> "" ->
  (getImageById id = Null <->
   forall photo, photo ∈ manifest -> PhotoManifest.id photo <> id) /\
  (forall photo, getImageById id = One photo ->
     PhotoManifest.id photo = id /\
     exists before after,
       manifest = (before ++ photo :: after)%list /\
       forall other, other ∈ before -> PhotoManifest.id other <> id) /\
  (forall photos, getImageById id <> Many photos).
Proof.
  intros Hid. rewrite (getImageById_find id Hid).
  induction manifest as [|p l IH]; simpl.
  - split; [|split].
    + split; [|done]. intros _ photo Hin. by apply elem_of_nil in Hin.
    + done.
    + done.
  - destruct (decide (PhotoManifest.id p = id)) as [Heq|Hne].
    + rewrite bool_decide_eq_true_2 by done. split; [|split].
      * split; [done|]. intros Hall. by destruct (Hall p (list_elem_of_here _ _)).
      * intros photo [= <-]. split; [done|]. exists [], l. split; [done|].
        intros other Hin. by apply elem_of_nil in Hin.
      * done.
    + rewrite bool_decide_eq_false_2 by done.
      destruct IH as (Hnull & Hone & Hmany). split; [|split].
      * split.
        -- intros Hres photo Hin. apply elem_of_cons in Hin as [->|Hin]; [done|].
           by apply Hnull.
        -- intros Hall. apply Hnull. intros photo Hin. apply Hall. by right.
      * intros photo Hres.
        destruct (Hone photo Hres) as (Hpid & before & after & -> & Hb).
        split; [done|]. exists (p :: before), after. split; [done|].
        intros other Hin. apply elem_of_cons in Hin as [->|Hin]; [done | by apply Hb].
      * exact Hmany.
Qed.

(** X10.  Lookup after publication: in a manifest whose ids are distinct,
    looking an entry up by its own non-empty id returns that entry. *)
Theorem getImageById_round_trip (photo : PhotoManifest.t) :
  NoDup (map PhotoManifest.id manifest) ->
  photo ∈ manifest ->
  PhotoManifest.id photo <> "" ->
  getImageById (PhotoManifest.id photo) = One photo.
Proof.
  intros Hnodup Hin Hid. rewrite (getImageById_find _ Hid).
  induction manifest as [|p l IH]; [by apply elem_of_nil in Hin|].
  simpl in *. apply NoDup_cons in Hnodup as [Hfresh Hnodup].
  apply elem_of_cons in Hin as [->|Hin].
  - by rewrite bool_decide_eq_true_2.
  - rewrite bool_decide_eq_false_2; [by apply IH|].
    intros Heq. apply Hfresh. rewrite Heq.
    apply list_elem_of_fmap. by exists photo.
Qed.

(** X11.  The two lookups by id of the code base, [getImageById] and
    [getBridalPartyPhoto], agree on every non-empty id, whether the manifest
    can be read or not. *)
Theorem getImageById_agrees_with_sibling (id : string) :
  id <> "" ->
  getImageById id
  = match getBridalPartyPhoto readFile JSON_parse id with
    | Some photo => One photo
    | None => Null
    end.
Proof.
  intros Hid. rewrite (getImageById_find id Hid).
  unfold getBridalPartyPhoto, readManifest.
  by destruct (data ← readFile; JSON_parse data).
Qed.

(** X12.  The lookup by category returns, in manifest order, exactly the
    entries of that category; for the empty category it returns the whole
    manifest, so entries whose category is the empty string cannot be asked
    for on their own. *)
Theorem getImagesByCategory_members (category : string) :
  exists photos,
    getImagesByCategory category = Many photos /\
    sublist photos manifest /\
    (forall photo, photo ∈ photos <->
       photo ∈ manifest /\ (category = "" \/ PhotoManifest.category photo = category)) /\
    (category = "" -> photos = manifest).
Proof.
  unfold GalleryServer.getImagesByCategory, getImages. simpl.
  destruct (decide (category = "")) as [->|Hne].
  - exists manifest. split; [done|]. split; [done|]. split; [|done].
    intros photo. split; [by auto | by intros [? _]].
  - rewrite bool_decide_eq_false_2 by done. simpl. eexists. split; [done|].
    split; [apply sublist_filter|]. split; [|done].
    intros photo. rewrite list_elem_of_filter. split.
    + intros [[= Hcat] Hin]. auto.
    + intros [Hin [?|Hcat]]; [done|]. split; [by rewrite Hcat | done].
Qed.

End ReaderLookups.


(** * The components that share the load-state cache *)

Section ComponentFacts.

Import Gallery ImageCache Components Statements.

Lemma or_else_cases (photo : PhotoManifest.t) (key fallback : string) :
  (exists r,
     with_url (JsObject.get (PhotoManifest.variants photo) key) = Some r /\
     or_else (variant_url photo key) fallback = r_url r) \/
  (with_url (JsObject.get (PhotoManifest.variants photo) key) = None /\
   or_else (variant_url photo key) fallback = fallback).
Proof.
  unfold or_else, variant_url, with_url.
  destruct (JsObject.get (PhotoManifest.variants photo) key) as [iv|];
    cbn [mbind option_bind]; [|by right].
  destruct (ImageVariant.url iv) as [u|]; [|by right].
  destruct (truthy (Some u)); [left; eauto | by right].
Qed.

Lemma offers_top_level (photo : PhotoManifest.t) : offers photo (top_level photo).
Proof. by left. Qed.

Lemma offers_variant (photo : PhotoManifest.t) (key : string) (r : Rendition) :
  key ∈ VARIANT_NAMES ->
  with_url (JsObject.get (PhotoManifest.variants photo) key) = Some r ->
  offers photo r.
Proof. intros Hkey Hr. right. eauto. Qed.

Lemma offers_or_else (photo : PhotoManifest.t) (key fallback : string) :
  key ∈ VARIANT_NAMES ->
  (exists r, offers photo r /\ r_url r = fallback) ->
  exists r, offers photo r /\ r_url r = or_else (variant_url photo key) fallback.
Proof.
  intros Hkey (r0 & Hoff & Hurl).
  destruct (or_else_cases photo key fallback) as [(r & Hr & ->)|[_ ->]].
  - exists r. split; [by eapply offers_variant | done].
  - by exists r0.
Qed.

Lemma mobile_name : "mobile"%string ∈ VARIANT_NAMES.
Proof. unfold VARIANT_NAMES. set_solver. Qed.
Lemma tablet_name : "tablet"%string ∈ VARIANT_NAMES.
Proof. unfold VARIANT_NAMES. set_solver. Qed.
Lemma desktop_name : "desktop"%string ∈ VARIANT_NAMES.
Proof. unfold VARIANT_NAMES. set_solver. Qed.
Lemma full_name : "full"%string ∈ VARIANT_NAMES.
Proof. unfold VARIANT_NAMES. set_solver. Qed.

Lemma offers_thumbnailUrl (photo : PhotoManifest.t) :
  exists r, offers photo r /\ r_url r = thumbnailUrl photo.
Proof.
  apply offers_or_else; [apply mobile_name|].
  exists (top_level photo). split; [apply offers_top_level | done].
Qed.

Lemma offers_initial_url (photo : PhotoManifest.t) :
  exists r, offers photo r /\ r_url r = r_url (initial_variant photo).
Proof.
  apply offers_or_else; [apply full_name|].
  exists (top_level photo). split; [apply offers_top_level | done].
Qed.

Lemma offers_fullUrl (photo : PhotoManifest.t) :
  exists r, offers photo r /\ r_url r = fullUrl photo.
Proof.
  apply offers_or_else; [apply desktop_name|].
  apply offers_or_else; [apply full_name|].
  exists (top_level photo). split; [apply offers_top_level | done].
Qed.

Lemma offers_selector (photo : PhotoManifest.t) (w : Z) :
  offers photo (getResponsiveVariant photo w).
Proof.
  destruct (getResponsiveVariant_cases photo w) as [->|(name & Hname & Hr)].
  - apply offers_top_level.
  - eapply offers_variant; [|exact Hr].
    unfold VARIANT_NAMES. rewrite !elem_of_cons in Hname. rewrite !elem_of_cons.
    tauto.
Qed.

Lemma findCachedVariant_loop_Some loaded photo (keys : list string) (r : Rendition) :
  findCachedVariant_loop loaded photo keys = Some r ->
  isImageLoaded loaded (r_url r) = true /\
  exists key,
    key ∈ keys /\
    with_url (JsObject.get (PhotoManifest.variants photo) key) = Some r.
Proof.
  induction keys as [|key keys IH]; simpl; [done|].
  destruct (with_url (JsObject.get (PhotoManifest.variants photo) key))
    as [r'|] eqn:Hkey.
  - destruct (isImageLoaded loaded (r_url r')) eqn:Hloaded.
    + intros [= <-]. split; [done|]. exists key. split; [left | done].
    + intros Hrest. destruct (IH Hrest) as (? & key' & ? & ?).
      split; [done|]. exists key'. split; [by right | done].
  - intros Hrest. destruct (IH Hrest) as (? & key' & ? & ?).
    split; [done|]. exists key'. split; [by right | done].
Qed.

Lemma findCachedVariant_loop_None loaded photo (keys : list string) :
  findCachedVariant_loop loaded photo keys = None <->
  forall key r,
    key ∈ keys ->
    with_url (JsObject.get (PhotoManifest.variants photo) key) = Some r ->
    isImageLoaded loaded (r_url r) = false.
Proof.
  induction keys as [|key keys IH]; simpl.
  - split; [|done]. intros _ key r Hin. by apply elem_of_nil in Hin.
  - destruct (with_url (JsObject.get (PhotoManifest.variants photo) key))
      as [r'|] eqn:Hkey.
    + destruct (isImageLoaded loaded (r_url r')) eqn:Hloaded.
      * split; [done|]. intros Hall.
        specialize (Hall key r' (list_elem_of_here _ _) Hkey). congruence.
      * rewrite IH. split.
        -- intros Hall k r Hin Hr. apply elem_of_cons in Hin as [->|Hin].
           ++ congruence.
           ++ by eapply Hall.
        -- intros Hall k r Hin. apply Hall. by right.
    + rewrite IH. split.
      * intros Hall k r Hin Hr. apply elem_of_cons in Hin as [->|Hin].
        -- congruence.
        -- by eapply Hall.
      * intros Hall k r Hin. apply Hall. by right.
Qed.

Lemma findCachedVariant_Some loaded photo (r : Rendition) :
  findCachedVariant loaded photo = Some r ->
  offers photo r /\ isImageLoaded loaded (r_url r) = true.
Proof.
  unfold findCachedVariant.
  destruct (findCachedVariant_loop loaded photo _) as [r'|] eqn:Hloop.
  - intros [= <-]. apply findCachedVariant_loop_Some in Hloop
      as (Hloaded & key & Hkey & Hr).
    split; [by eapply offers_variant | done].
  - destruct (isImageLoaded loaded (PhotoManifest.url photo)) eqn:Htop; [|done].
    intros [= <-]. split; [apply offers_top_level | done].
Qed.

Lemma findCachedVariant_None loaded photo :
  findCachedVariant loaded photo = None <->
  forall r, offers photo r -> isImageLoaded loaded (r_url r) = false.
Proof.
  unfold findCachedVariant.
  destruct (findCachedVariant_loop loaded photo _) as [r'|] eqn:Hloop.
  - split; [done|]. intros Hall.
    apply findCachedVariant_loop_Some in Hloop as (Hloaded & key & Hkey & Hr).
    rewrite (Hall r') in Hloaded; [done | by eapply offers_variant].
  - rewrite findCachedVariant_loop_None in Hloop.
    destruct (isImageLoaded loaded (PhotoManifest.url photo)) eqn:Htop.
    + split; [done|]. intros Hall.
      specialize (Hall _ (offers_top_level photo)). simpl in Hall. congruence.
    + split; [|done]. intros _ r [->|(key & Hkey & Hr)]; [done|].
      by eapply Hloop.
Qed.

(** X13.  [findCachedVariant] is sound and complete for the cache: what it
    returns is a rendition the entry offers whose url is marked loaded, and
    it returns null exactly when no url the entry offers is marked loaded. *)
Theorem findCachedVariant_sound_complete (loaded : gset string)
    (photo : PhotoManifest.t) :
  (forall r, findCachedVariant loaded photo = Some r ->
     offers photo r /\ isImageLoaded loaded (r_url r) = true) /\
  (findCachedVariant loaded photo = None <->
   forall r, offers photo r -> isImageLoaded loaded (r_url r) = false).
Proof.
  split; [apply findCachedVariant_Some | apply findCachedVariant_None].
Qed.

(** X14.  The components share one cache: whichever url of a photo a grid
    item, the lightbox or the hero image has marked loaded (the thumbnail
    url, the lightbox url, the url the selector returns at some width, or
    the url of the hero's first render), the hero image finds a loaded
    rendition of that photo in the cache. *)
Theorem cache_shared_across_components (loaded : gset string)
    (photo : PhotoManifest.t) (w : Z) (url : string) :
  url = thumbnailUrl photo \/ url = fullUrl photo \/
  url = r_url (getResponsiveVariant photo w) \/
  url = r_url (initial_variant photo) ->
  isImageLoaded loaded url = true ->
  exists r,
    findCachedVariant loaded photo = Some r /\
    isImageLoaded loaded (r_url r) = true.
Proof.
  intros Hurl Hloaded.
  assert (exists r, offers photo r /\ r_url r = url) as (r0 & Hoff & Hr0).
  { destruct Hurl as [-> | [-> | [-> | ->]]].
    - apply offers_thumbnailUrl.
    - apply offers_fullUrl.
    - eexists. split; [apply offers_selector | done].
    - apply offers_initial_url. }
  destruct (findCachedVariant loaded photo) as [r|] eqn:Hfind.
  - exists r. split; [done|]. by apply findCachedVariant_Some in Hfind as [_ ?].
  - rewrite findCachedVariant_None in Hfind.
    specialize (Hfind r0 Hoff). congruence.
Qed.

(** X15.  On every render of the hero image, in any state and with any
    cache, [isCached] is true exactly when the url of the variant it shows
    is marked loaded; so the background is the real image exactly then, and
    the blur placeholder otherwise. *)
Theorem hero_isCached_is_cache_membership (loaded : gset string)
    (photo : PhotoManifest.t) (st : HeroState) :
  let '(variant, isCached, _) := render loaded photo st in
  isCached = isImageLoaded loaded (r_url variant) /\
  backgroundUrl photo variant isCached
  = if isImageLoaded loaded (r_url variant) then r_url variant
    else PhotoManifest.blurDataUrl photo.
Proof.
  unfold render.
  destruct (lockedVariantRef st) as [v|]; [done|].
  destruct (findCachedVariant loaded photo) as [r|] eqn:Hfind.
  - apply findCachedVariant_Some in Hfind as [_ Hloaded].
    by rewrite Hloaded.
  - rewrite findCachedVariant_None in Hfind.
    destruct (hasMounted st).
    + by rewrite (Hfind _ (offers_selector photo (viewportWidth st))).
    + destruct (offers_initial_url photo) as (r & Hoff & Hr).
      by rewrite <- Hr, (Hfind r Hoff).
Qed.

Lemma page_run_app photo (events1 events2 : list HeroEvent) (p : Page) :
  page_run photo (events1 ++ events2) p
  = page_run photo events2 (page_run photo events1 p).
Proof. apply fold_left_app. Qed.

Lemma page_step_locked photo (p : Page) (e : HeroEvent) (v : Rendition) :
  lockedVariantRef (hero p) = Some v -> shown p = Some v ->
  lockedVariantRef (hero (page_step photo p e)) = Some v /\
  shown (page_step photo p e) = Some v.
Proof.
  intros Hlocked Hshown. destruct e; simpl; try done.
  - by rewrite Hshown.
  - unfold render. by rewrite Hlocked.
Qed.

Lemma page_run_locked photo (events : list HeroEvent) (p : Page) (v : Rendition) :
  lockedVariantRef (hero p) = Some v -> shown p = Some v ->
  lockedVariantRef (hero (page_run photo events p)) = Some v /\
  shown (page_run photo events p) = Some v.
Proof.
  revert p. induction events as [|e events IH]; intros p Hlocked Hshown; [done|].
  simpl. destruct (page_step_locked photo p e v Hlocked Hshown) as [Hl Hs].
  by apply IH.
Qed.

Lemma page_step_lock_shown photo (p : Page) (e : HeroEvent) :
  lock_shown p -> lock_shown (page_step photo p e).
Proof.
  intros Hinv v. destruct e; simpl; try apply Hinv.
  - destruct (shown p) as [variant|] eqn:Hshown; simpl; [|apply Hinv].
    by intros [= <-].
  - unfold render.
    destruct (lockedVariantRef (hero p)) as [locked|] eqn:Hlocked; simpl.
    { rewrite Hlocked. by intros [= <-]. }
    destruct (findCachedVariant (loadedImages p) photo) as [cached|]; simpl.
    { by intros [= <-]. }
    destruct (hasMounted (hero p)); simpl; [by intros [= <-]|].
    by rewrite Hlocked.
Qed.

Lemma page_run_lock_shown photo (events : list HeroEvent) (p : Page) :
  lock_shown p -> lock_shown (page_run photo events p).
Proof.
  revert p. induction events as [|e events IH]; intros p Hinv; [done|].
  simpl. apply IH. by apply page_step_lock_shown.
Qed.

Lemma lock_shown_init : lock_shown page_init.
Proof. intros v. done. Qed.

Lemma page_step_mounted photo (p : Page) (e : HeroEvent) :
  hasMounted (hero p) = true -> hasMounted (hero (page_step photo p e)) = true.
Proof.
  intros Hm. destruct e; simpl; try done.
  - by destruct (shown p).
  - unfold render. destruct (lockedVariantRef (hero p)); simpl; [done|].
    destruct (findCachedVariant (loadedImages p) photo); simpl; [done|].
    by rewrite Hm.
Qed.

Lemma page_run_mounted photo (events : list HeroEvent) (p : Page) :
  hasMounted (hero p) = true -> hasMounted (hero (page_run photo events p)) = true.
Proof.
  revert p. induction events as [|e events IH]; intros p Hm; [done|].
  simpl. apply IH. by apply page_step_mounted.
Qed.

Lemma rendered_locks photo (p : Page) :
  hasMounted (hero p) = true ->
  is_Some (lockedVariantRef (hero (page_step photo p Rendered))).
Proof.
  intros Hm. simpl. unfold render.
  destruct (lockedVariantRef (hero p)) as [locked|] eqn:Hlocked; simpl.
  { by rewrite Hlocked. }
  destruct (findCachedVariant (loadedImages p) photo); simpl; [done|].
  by rewrite Hm.
Qed.

(** X16.  Once the hero image has locked a variant, by a render or by a
    load, nothing that happens later on the page replaces it: after any
    further mounts, resizes, loads, marks by other components and renders
    the locked variant is the same, and it is the one shown. *)
Theorem hero_lock_is_stable (photo : PhotoManifest.t)
    (events1 events2 : list HeroEvent) (v : Rendition) :
  lockedVariantRef (hero (page_run photo events1 page_init)) = Some v ->
  lockedVariantRef (hero (page_run photo (events1 ++ events2) page_init)) = Some v /\
  shown (page_run photo (events1 ++ events2) page_init) = Some v.
Proof.
  intros Hlocked. rewrite page_run_app.
  apply page_run_locked; [done|].
  by apply (page_run_lock_shown photo events1 page_init lock_shown_init).
Qed.

(** X17.  The first render after the mount effect fixes the image of the
    hero: whatever came before the mount and whatever comes after that
    render (window resizes included), every later render shows the variant
    of that render. *)
Theorem hero_fixed_after_mounted_render (photo : PhotoManifest.t)
    (events1 events2 events3 : list HeroEvent) (innerWidth : Z) :
  exists v,
    shown (page_run photo (events1 ++ Mounted innerWidth :: events2 ++ [Rendered])
                    page_init) = Some v /\
    shown (page_run photo
             ((events1 ++ Mounted innerWidth :: events2 ++ [Rendered]) ++ events3)
             page_init) = Some v.
Proof.
  set (p1 := page_run photo events1 page_init).
  set (p2 := page_run photo events2 (page_step photo p1 (Mounted innerWidth))).
  assert (page_run photo (events1 ++ Mounted innerWidth :: events2 ++ [Rendered])
                   page_init = page_step photo p2 Rendered) as Hrun.
  { rewrite page_run_app. change (Mounted innerWidth :: events2 ++ [Rendered])
      with ([Mounted innerWidth] ++ events2 ++ [Rendered])%list.
    by rewrite !page_run_app. }
  assert (lock_shown (page_step photo p2 Rendered)) as Hinv.
  { rewrite <- Hrun. apply page_run_lock_shown, lock_shown_init. }
  destruct (rendered_locks photo p2) as [v Hv].
  { by apply page_run_mounted. }
  exists v. rewrite (page_run_app photo (events1 ++ _) events3), Hrun.
  split; [by apply Hinv|].
  apply page_run_locked; [done | by apply Hinv].
Qed.

End ComponentFacts.


Section PlaceholderFacts.

Import ImageCache.

(** X18.  The placeholder of an image follows the marks of the session: from
    a fresh cache, [getPlaceholderProps] answers "empty" without blur data
    when some earlier call marked that url loaded, and "blur" with the blur
    data it was given when none did. *)
Theorem placeholder_follows_marks (calls : list call) (url : string)
    (blurDataUrl : option string) :
  (MarkImageLoaded url ∈ calls ->
   getPlaceholderProps (run calls loadedImages_init) url blurDataUrl = (empty, None)) /\
  (MarkImageLoaded url ∉ calls ->
   getPlaceholderProps (run calls loadedImages_init) url blurDataUrl
   = (blur, blurDataUrl)).
Proof.
  unfold getPlaceholderProps, isImageLoaded. split; intros Hcalls.
  - rewrite bool_decide_eq_true_2; [done|]. apply elem_of_run. by right.
  - rewrite bool_decide_eq_false_2; [done|]. rewrite elem_of_run.
    intros [Hin|Hin]; [|done]. unfold loadedImages_init in Hin.
    by apply not_elem_of_empty in Hin.
Qed.

End PlaceholderFacts.

Section SelectorVersions.

Import Gallery.

(** X19.  The earlier selector, which has a mobile branch, and the current
    one return the same rendition except at widths up to the mobile
    breakpoint (640) on an entry whose mobile variant has a non-empty url;
    there the earlier one returns that mobile variant. *)
Theorem selector_versions_differ_on_mobile_only (photo : PhotoManifest.t) (w : Z) :
  GallerySnapshot.getResponsiveVariant photo w <> getResponsiveVariant photo w ->
  (w <= BREAKPOINTS_mobile)%Z /\
  with_url (JsObject.get (PhotoManifest.variants photo) "mobile")
  = Some (GallerySnapshot.getResponsiveVariant photo w).
Proof.
  unfold GallerySnapshot.getResponsiveVariant.
  fold (getResponsiveVariant photo w).
  destruct (Z.leb_spec w BREAKPOINTS_mobile) as [Hle|Hgt]; [|done].
  destruct (with_url (JsObject.get (PhotoManifest.variants photo) "mobile"))
    as [r|]; [done|done].
Qed.

End SelectorVersions.


(** * Chronological order on the gallery page *)

Section SortFacts.

Import GalleryPage.
Local Open Scope Z_scope.

Context {A : Type} (key : A -> Z).

Local Abbreviation by_key := (fun a b : A => key a - key b).

Lemma sort_insert_perm (x : A) (l : list A) : sort_insert by_key x l ≡ₚ x :: l.
Proof.
  induction l as [|y l IH]; simpl; [done|].
  destruct (key x - key y <=? 0); [done|].
  rewrite IH. apply Permutation_swap.
Qed.

Lemma sort_perm (l : list A) : sort by_key l ≡ₚ l.
Proof.
  induction l as [|x l IH]; simpl; [done|].
  unfold sort in IH. by rewrite sort_insert_perm, IH.
Qed.

Lemma sort_insert_sorted (x : A) (l : list A) :
  StronglySorted (fun a b => key a <= key b) l ->
  StronglySorted (fun a b => key a <= key b) (sort_insert by_key x l).
Proof.
  induction 1 as [|y l Hsorted IH Hy]; simpl.
  - apply SSorted_cons; [apply SSorted_nil | apply Forall_nil_2].
  - destruct (Z.leb_spec (key x - key y) 0) as [Hle|Hgt].
    + apply SSorted_cons; [by apply SSorted_cons|].
      apply Forall_cons. split; [lia|].
      eapply Forall_impl; [exact Hy|]. simpl. intros z Hz. lia.
    + apply SSorted_cons; [done|].
      rewrite sort_insert_perm. apply Forall_cons. split; [lia | done].
Qed.

Lemma sort_sorted (l : list A) :
  StronglySorted (fun a b => key a <= key b) (sort by_key l).
Proof.
  induction l as [|x l IH]; simpl; [apply SSorted_nil|].
  by apply sort_insert_sorted.
Qed.

Lemma sort_insert_stable (t : Z) (x : A) (l : list A) :
  filter (fun y => key y = t) (sort_insert by_key x l)
  = filter (fun y => key y = t) (x :: l).
Proof.
  induction l as [|y l IH]; simpl; [done|].
  destruct (Z.leb_spec (key x - key y) 0) as [Hle|Hgt]; [done|].
  rewrite filter_cons, IH, !filter_cons.
  destruct (decide (key y = t)), (decide (key x = t)); try done. lia.
Qed.

Lemma sort_stable (t : Z) (l : list A) :
  filter (fun y => key y = t) (sort by_key l) = filter (fun y => key y = t) l.
Proof.
  induction l as [|x l IH]; [done|].
  change (sort by_key (x :: l)) with (sort_insert by_key x (sort by_key l)).
  by rewrite sort_insert_stable, !filter_cons, IH.
Qed.

Lemma sort_insert_sorted_lex (fp : A -> nat) (x : A) (l : list A) :
  StronglySorted (fun a b => key a < key b \/ (key a = key b /\ (fp a < fp b)%nat)) l ->
  Forall (fun y => (fp x < fp y)%nat) l ->
  StronglySorted (fun a b => key a < key b \/ (key a = key b /\ (fp a < fp b)%nat))
    (sort_insert by_key x l).
Proof.
  induction 1 as [|y l Hsorted IH Hy]; intros Hx; simpl.
  - apply SSorted_cons; [apply SSorted_nil | apply Forall_nil_2].
  - apply Forall_cons in Hx as [Hxy Hxl].
    destruct (Z.leb_spec (key x - key y) 0) as [Hle|Hgt].
    + apply SSorted_cons; [by apply SSorted_cons|].
      apply Forall_cons. split; [lia|].
      rewrite Forall_forall in Hy, Hxl. apply Forall_forall. intros z Hz.
      specialize (Hy z Hz). specialize (Hxl z Hz). lia.
    + apply SSorted_cons; [by apply IH|].
      rewrite sort_insert_perm. apply Forall_cons. split; [lia | done].
Qed.

(** Sorting a list whose elements are in increasing order of a position
    orders it by key and, among equal keys, by that position. *)
Lemma sort_sorted_lex (fp : A -> nat) (l : list A) :
  StronglySorted (fun a b => (fp a < fp b)%nat) l ->
  StronglySorted (fun a b => key a < key b \/ (key a = key b /\ (fp a < fp b)%nat))
    (sort by_key l).
Proof.
  induction 1 as [|x l Hsorted IH Hx].
  - apply SSorted_nil.
  - change (sort by_key (x :: l)) with (sort_insert by_key x (sort by_key l)).
    apply sort_insert_sorted_lex; [done|]. by rewrite sort_perm.
Qed.

End SortFacts.

Section GalleryPageFacts.

Import GalleryPage Statements.
Local Open Scope Z_scope.

(** X20.  The photos handed to the gallery view are the photos of the
    manifest in chronological order of their categories: the same photos,
    ordered by the time value of the category, and photos of equal time
    value in the order the manifest has them. *)
Theorem sortedPhotos_chronological (photos : list PhotoManifest.t) :
  sortedPhotos photos ≡ₚ photos /\
  StronglySorted (fun a b => photo_time a <= photo_time b) (sortedPhotos photos) /\
  forall t,
    filter (fun p => photo_time p = t) (sortedPhotos photos)
    = filter (fun p => photo_time p = t) photos.
Proof.
  unfold sortedPhotos, byTime. split; [|split].
  - apply (sort_perm photo_time).
  - apply (sort_sorted photo_time).
  - intros t. apply (sort_stable photo_time).
Qed.

Lemma unique_from (values seen : list string) :
  NoDup seen ->
  exists more,
    fold_left (fun seen v => if bool_decide (v ∈ seen) then seen else (seen ++ [v])%list)
              values seen = (seen ++ more)%list /\
    NoDup (seen ++ more) /\
    sublist more values /\
    forall v, v ∈ values -> v ∈ (seen ++ more)%list.
Proof.
  revert seen. induction values as [|v values IH]; intros seen Hnodup; simpl.
  - exists []. rewrite app_nil_r. repeat split; try done.
    intros v Hin. by apply elem_of_nil in Hin.
  - case_bool_decide as Hseen.
    + destruct (IH seen Hnodup) as (more & -> & Hnd & Hsub & Hall).
      exists more. repeat split; try done.
      * by apply sublist_cons.
      * intros u Hin. apply elem_of_cons in Hin as [->|Hin]; [|by apply Hall].
        apply elem_of_app. by left.
    + destruct (IH (seen ++ [v])%list) as (more & -> & Hnd & Hsub & Hall).
      { apply NoDup_app. repeat split; [done| |apply NoDup_singleton].
        intros u Hu Hin. apply list_elem_of_singleton in Hin as ->. done. }
      exists (v :: more). rewrite <- app_assoc in *. simpl in *.
      repeat split; try done.
      * by apply sublist_skip.
      * intros u Hin. apply elem_of_cons in Hin as [->|Hin]; [|by apply Hall].
        apply elem_of_app. right. by left.
Qed.

Lemma StronglySorted_impl_elem {A} (R1 R2 : A -> A -> Prop) (l : list A) :
  (forall a b, a ∈ l -> b ∈ l -> R1 a b -> R2 a b) ->
  StronglySorted R1 l -> StronglySorted R2 l.
Proof.
  intros Himpl Hsorted. induction Hsorted as [|x l Hsorted IH Hx].
  - apply SSorted_nil.
  - apply SSorted_cons.
    + apply IH. intros a b Ha Hb. apply Himpl; by right.
    + rewrite Forall_forall in Hx. apply Forall_forall. intros y Hy.
      apply Himpl; [by left | by right | by apply Hx].
Qed.

Lemma first_position_app_l (l1 l2 : list string) (v : string) :
  v ∈ l1 -> first_position (l1 ++ l2) v = first_position l1 v.
Proof.
  intros Hin. unfold first_position.
  destruct (list_find (fun x => x = v) l1) as [[i x]|] eqn:Hfind.
  - by rewrite (list_find_app_l _ _ _ _ _ Hfind).
  - apply list_find_None in Hfind. rewrite Forall_forall in Hfind.
    by destruct (Hfind v Hin).
Qed.

Lemma first_position_lt (l : list string) (v : string) :
  v ∈ l -> (first_position l v < length l)%nat.
Proof.
  intros Hin. unfold first_position.
  destruct (list_find (fun x => x = v) l) as [[i x]|] eqn:Hfind.
  - apply list_find_Some in Hfind as (Hi & _ & _). by apply lookup_lt_Some in Hi.
  - apply list_find_None in Hfind. rewrite Forall_forall in Hfind.
    by destruct (Hfind v Hin).
Qed.

Lemma first_position_snoc_new (l : list string) (v : string) :
  v ∉ l -> first_position (l ++ [v]) v = length l.
Proof.
  intros Hnew. unfold first_position.
  rewrite list_find_app_r.
  - simpl. rewrite decide_True by done. simpl. lia.
  - apply list_find_None. apply Forall_forall. intros x Hx ->. done.
Qed.

Lemma unique_snoc (l : list string) (v : string) :
  unique (l ++ [v])
  = if bool_decide (v ∈ unique l) then unique l else (unique l ++ [v])%list.
Proof. unfold unique. by rewrite fold_left_app. Qed.

(** [unique] keeps each value once, in the order of first occurrence. *)
Lemma unique_first_positions (l : list string) :
  (forall v, v ∈ unique l <-> v ∈ l) /\
  StronglySorted (fun a b => (first_position l a < first_position l b)%nat) (unique l).
Proof.
  induction l as [|v l [Hmem Hsorted]] using rev_ind.
  - split; [done | apply SSorted_nil].
  - rewrite unique_snoc.
    assert (StronglySorted
              (fun a b => (first_position (l ++ [v]) a < first_position (l ++ [v]) b)%nat)
              (unique l)) as Hsorted'.
    { eapply StronglySorted_impl_elem; [|exact Hsorted].
      intros a b Ha Hb. apply Hmem in Ha, Hb.
      by rewrite !first_position_app_l. }
    case_bool_decide as Hseen.
    + split; [|done]. intros u. rewrite Hmem, elem_of_app, list_elem_of_singleton.
      split; [by left|]. intros [?| ->]; [done | by apply Hmem].
    + split.
      * intros u. rewrite !elem_of_app, Hmem. done.
      * apply StronglySorted_app_2; [|done|].
        -- intros a b Ha Hb. apply list_elem_of_singleton in Hb as ->.
           apply Hmem in Ha. rewrite first_position_app_l by done.
           rewrite first_position_snoc_new by (by rewrite <- Hmem).
           by apply first_position_lt.
        -- apply SSorted_cons; [apply SSorted_nil | apply Forall_nil_2].
Qed.

(** X21.  The category tabs of the gallery page: every category of a photo
    appears among them exactly once, nothing else does, and they are in
    chronological order, categories of equal time value in the order of
    their first photos in the manifest: of two tabs, the earlier one has
    the smaller time value, or the same time value and an earlier first
    photo.  This fixes the list of tabs. *)
Theorem categories_chronological (photos : list PhotoManifest.t) :
  NoDup (categories photos) /\
  (forall c, c ∈ categories photos <->
     exists p, p ∈ photos /\ PhotoManifest.category p = c) /\
  StronglySorted (fun a b => getCategoryTimeValue a <= getCategoryTimeValue b)
    (categories photos) /\
  (forall t,
     sublist (filter (fun c => getCategoryTimeValue c = t) (categories photos))
             (map PhotoManifest.category photos)) /\
  StronglySorted (category_before (map PhotoManifest.category photos))
    (categories photos).
Proof.
  split; [|split; [|split; [|split]]].
  5: { unfold categories.
       apply (sort_sorted_lex getCategoryTimeValue
                (first_position (map PhotoManifest.category photos))).
       apply unique_first_positions. }
  all: unfold categories, unique.
  all: destruct (unique_from (map PhotoManifest.category photos) []
                   (NoDup_nil_2 (A:=string))) as (cats & -> & Hnodup & Hsub & Hall).
  all: simpl in *.
  - by rewrite (sort_perm getCategoryTimeValue).
  - intros c. rewrite (sort_perm getCategoryTimeValue). split.
    + intros Hin. eapply elem_of_sublist in Hin; [|exact Hsub].
      apply list_elem_of_fmap in Hin as (p & -> & Hp). eauto.
    + intros (p & Hp & <-). apply Hall. apply list_elem_of_fmap. eauto.
  - apply (sort_sorted getCategoryTimeValue).
  - intros t. rewrite (sort_stable getCategoryTimeValue).
    etransitivity; [apply sublist_filter | exact Hsub].
Qed.

Lemma list_ascii_of_string_app (s1 s2 : string) :
  String.list_ascii_of_string (String.append s1 s2)
  = (String.list_ascii_of_string s1 ++ String.list_ascii_of_string s2)%list.
Proof. induction s1 as [|c s1 IH]; simpl; [done | by rewrite IH]. Qed.

(** X22.  A category that ends with an hour from 1 to 12 followed by AM or
    PM, in any letter case, has the hour of the 24-hour clock as its time
    value: 12AM is 0, 1AM to 11AM are 1 to 11, 12PM is 12 and 1PM to 11PM
    are 13 to 23.  The text before the hour must not end with a digit, which
    the pattern would read as part of the hour. *)
Theorem getCategoryTimeValue_24_hour (prefix : string) (h : Z) (am pm : string) :
  1 <= h <= 12 ->
  ends_with_digit prefix = false ->
  am ∈ ["AM"; "am"; "Am"; "aM"]%string ->
  pm ∈ ["PM"; "pm"; "Pm"; "pM"]%string ->
  getCategoryTimeValue (String.append prefix (String.append (hour_digits h) am))
  = h mod 12 /\
  getCategoryTimeValue (String.append prefix (String.append (hour_digits h) pm))
  = h mod 12 + 12.
Proof.
  intros Hh Hprefix Ham Hpm.
  unfold getCategoryTimeValue, match_time, ends_with_digit in *.
  rewrite !list_ascii_of_string_app, !rev_app_distr.
  assert (h = 1 \/ h = 2 \/ h = 3 \/ h = 4 \/ h = 5 \/ h = 6 \/ h = 7 \/ h = 8 \/
          h = 9 \/ h = 10 \/ h = 11 \/ h = 12) as Hcases by lia.
  rewrite !elem_of_cons, elem_of_nil in Ham, Hpm.
  destruct (rev (String.list_ascii_of_string prefix)) as [|c before].
  - repeat (destruct Hcases as [->|Hcases]); try subst h;
      repeat (destruct Ham as [->|Ham]); try done;
      repeat (destruct Hpm as [->|Hpm]); try done;
      vm_compute; done.
  - repeat (destruct Hcases as [->|Hcases]); try subst h;
      repeat (destruct Ham as [->|Ham]); try done;
      repeat (destruct Hpm as [->|Hpm]); try done;
      cbn -[parseInt is_digit Z.add Z.modulo Z.eqb]; rewrite ?Hprefix;
      vm_compute; done.
Qed.

End GalleryPageFacts.


(** * Paging and category boundaries of the gallery view *)

Section GalleryViewFacts.

Import GalleryView Statements.
Local Open Scope nat_scope.



Lemma indexed_snoc {A} (xs : list A) (x : A) :
  UploadImages.indexed (xs ++ [x]) = (UploadImages.indexed xs ++ [(length xs, x)])%list.
Proof.
  unfold UploadImages.indexed. rewrite imap_app. simpl.
  by rewrite Nat.add_0_r.
Qed.

Lemma prev_category_snoc (visible : list PhotoManifest.t) (x : PhotoManifest.t)
    (i : nat) :
  i <= length visible ->
  prev_category (visible ++ [x]) i = prev_category visible i.
Proof.
  intros Hi. destruct i as [|j]; [done|]. simpl.
  by rewrite lookup_app_l by lia.
Qed.

Lemma boundaries_run (visible : list PhotoManifest.t) :
  let st := fold_left boundary_step (UploadImages.indexed visible) (""%string, []) in
  st.1 = prev_category visible (length visible) /\
  (forall c i, (c, i) ∈ st.2 <->
     exists p, visible !! i = Some p /\ PhotoManifest.category p = c /\
               c <> prev_category visible i) /\
  StronglySorted (fun a b => a.2 < b.2) st.2 /\
  Forall (fun b => b.2 < length visible) st.2.
Proof.
  induction visible as [|x visible IH] using rev_ind; simpl.
  - split; [done|]. split; [|split; [apply SSorted_nil | apply Forall_nil_2]].
    intros c i. split; [intros Hin; by apply elem_of_nil in Hin|].
    by intros (p & Hp & _).
  - rewrite indexed_snoc, fold_left_app. simpl in IH.
    destruct (fold_left boundary_step (UploadImages.indexed visible) (""%string, []))
      as [currentCategory boundaries].
    simpl in *. destruct IH as (Hcur & Hmem & Hsorted & Hbound).
    rewrite length_app. simpl.
    replace (length visible + 1) with (S (length visible)) by lia. simpl.
    rewrite list_lookup_middle by done. simpl.
    assert (forall c i,
      (exists p, (visible ++ [x])%list !! i = Some p /\
                 PhotoManifest.category p = c /\
                 c <> prev_category (visible ++ [x])%list i) <->
      (exists p, visible !! i = Some p /\ PhotoManifest.category p = c /\
                 c <> prev_category visible i) \/
      (i = length visible /\ PhotoManifest.category x = c /\ c <> currentCategory))
      as Hsplit.
    { intros c i. split.
      - intros (p & Hp & Hc & Hne).
        destruct (decide (i < length visible)) as [Hlt|Hge].
        + left. exists p. rewrite lookup_app_l in Hp by done.
          rewrite prev_category_snoc in Hne by lia. done.
        + apply lookup_lt_Some in Hp as Hlen. rewrite length_app in Hlen.
          simpl in Hlen. assert (i = length visible) as -> by lia.
          rewrite list_lookup_middle in Hp by done. injection Hp as <-.
          rewrite prev_category_snoc in Hne by lia. rewrite <- Hcur in Hne.
          by right.
      - intros [(p & Hp & Hc & Hne)|(-> & Hc & Hne)].
        + apply lookup_lt_Some in Hp as Hlen. exists p.
          rewrite lookup_app_l by done.
          by rewrite prev_category_snoc by lia.
        + exists x. rewrite list_lookup_middle by done.
          rewrite prev_category_snoc by lia. by rewrite <- Hcur. }
    case_bool_decide as Hnew; simpl.
    + split; [done|]. split; [|split].
      * intros c i. rewrite Hsplit, elem_of_app, list_elem_of_singleton, Hmem.
        split.
        -- intros [Hold|[= -> ->]]; [by left|]. right. done.
        -- intros [Hold|(-> & <- & _)]; [by left | by right].
      * clear Hsplit Hmem. induction Hsorted as [|b bs Hs IHs Hb]; simpl.
        -- apply SSorted_cons; [apply SSorted_nil | apply Forall_nil_2].
        -- apply Forall_cons in Hbound as [Hb1 Hbs].
           apply SSorted_cons; [by apply IHs|].
           apply Forall_app. split; [done|].
           apply Forall_singleton. done.
      * apply Forall_app. split.
        -- eapply Forall_impl; [exact Hbound|]. simpl. intros. lia.
        -- apply Forall_singleton. simpl. lia.
    + split; [done|]. split; [|split].
      * intros c i. rewrite Hsplit, Hmem. split; [by left|].
        intros [?|(-> & <- & Hne)]; [done|]. congruence.
      * done.
      * eapply Forall_impl; [exact Hbound|]. simpl. intros. lia.
Qed.

(** X24.  With no category selected, the category boundaries of the grid
    are exactly the positions whose photo has another category than the
    photo before it, each with that photo's category, in increasing order
    of position; the first photo counts as a change unless its category is
    the empty string. *)
Theorem categoryBoundaries_are_changes (selectedCategory : option string)
    (visible : list PhotoManifest.t) :
  truthy selectedCategory = false ->
  (forall c i, (c, i) ∈ categoryBoundaries selectedCategory visible <->
     exists p, visible !! i = Some p /\ PhotoManifest.category p = c /\
               c <> prev_category visible i) /\
  StronglySorted (fun a b => a.2 < b.2) (categoryBoundaries selectedCategory visible).
Proof.
  intros Hsel. unfold categoryBoundaries. rewrite Hsel.
  destruct (boundaries_run visible) as (_ & Hmem & Hsorted & _). done.
Qed.

End GalleryViewFacts.


(** * The optimizer: tree walker and metadata records *)

Section TreeWalkerFacts.

Import TreeWalker Statements.

Variable path_join : string -> string -> string.

Lemma Node_nested_ind (P : Node -> Prop)
    (Hfile : forall file, P (FileNode file))
    (Hdir : forall file entries, Forall P entries -> P (DirNode file entries)) :
  forall node, P node.
Proof.
  fix IH 1. intros [file|file entries]; [apply Hfile|]. apply Hdir.
  induction entries as [|entry entries IHentries]; [apply Forall_nil_2|].
  apply Forall_cons. split; [apply IH | apply IHentries].
Qed.

Lemma visit_appends (node : Node) :
  forall dir fileList,
    visit path_join dir node fileList
    = (fileList ++
       map (fun df => path_join df.1 df.2)
           (filter (fun df => is_image df.2 = true) (leaves path_join dir node)))%list.
Proof.
  induction node as [file|file entries IH] using Node_nested_ind;
    intros dir fileList; simpl.
  - rewrite filter_cons, filter_nil. cbn [fst snd].
    destruct (is_image file) eqn:Himage.
    + by rewrite decide_True.
    + rewrite decide_False by done. simpl. by rewrite app_nil_r.
  - revert fileList. induction IH as [|entry entries Hentry _ IHentries];
      intros fileList; simpl.
    + by rewrite app_nil_r.
    + rewrite IHentries, Hentry, filter_app, map_app. by rewrite app_assoc.
Qed.

(** X25.  The tree walker returns the list it was given followed by the
    paths of the image files below the directory, depth first in the order
    of the directory listings: it drops and reorders nothing of the given
    list, lists a file exactly when its name ends in .jpg, .jpeg, .png,
    .webp or .avif in any letter case, and descends into directories
    without listing them, whatever their names. *)
Theorem getAllFiles_lists_image_leaves (dir : string) (files : list Node)
    (fileList : list string) :
  getAllFiles path_join dir files fileList
  = (fileList ++
     map (fun df => path_join df.1 df.2)
         (filter (fun df => is_image df.2 = true)
                 (flat_map (leaves path_join dir) files)))%list.
Proof.
  unfold getAllFiles. revert fileList.
  induction files as [|entry files IH]; intros fileList; simpl.
  - by rewrite app_nil_r.
  - rewrite IH, visit_appends, filter_app, map_app. by rewrite app_assoc.
Qed.

End TreeWalkerFacts.

Section OptimizerRecords.

Import OptimizeImages Statements.
Local Open Scope Z_scope.

Variable Image : Type.
Variable image_width image_height : Image -> Z.
Variable decode : list byte -> result Image.
Variable resize : ResizeOptions -> Image -> Image.
Variable webp : Z -> Image -> Image.
Variable generatePlaceholder : list byte -> result string.
Variable readFileSync : string -> result (list byte).
Variable outputDir : string.
Variable path_join : string -> string -> string.
Variable path_relative : string -> string -> string.
Variable path_dirname : string -> string.
Variable path_basename : string -> string.
Variable path_parse_name : string -> string.

Local Abbreviation recorded :=
  (OptimizeImages.recorded Image image_width image_height resize webp path_join).
Local Abbreviation generate_sizes :=
  (generate_sizes Image image_width image_height decode resize webp path_join).
Local Abbreviation processSingleFile :=
  (processSingleFile Image image_width image_height decode resize webp
     generatePlaceholder readFileSync outputDir path_join path_relative
     path_dirname path_basename path_parse_name).

(** The variants recorded for a decoded image, in the order of [sizes]. *)
Local Abbreviation recorded_all img relativePath fileNameNoExt sizes :=
  (map (fun sw : string * Z =>
          (sw.1, recorded img relativePath fileNameNoExt sw.1 sw.2)) sizes).

Lemma set_fresh {V} (o : JsObject.t V) (k : string) (v : V) :
  k ∉ JsObject.keys o -> JsObject.set o k v = (o ++ [(k, v)])%list.
Proof.
  induction o as [|[k' v'] o IH]; simpl; [done|].
  intros Hfresh. apply not_elem_of_cons in Hfresh as [Hne Hfresh].
  rewrite decide_False by done. by rewrite IH.
Qed.

Lemma generate_sizes_exact (buffer : list byte) (img : Image)
    (relativePath outputSubDir fileNameNoExt : string) (sizes : list (string * Z)) :
  decode buffer = Ok img ->
  forall fs variants,
    NoDup (JsObject.keys variants ++ map fst sizes) ->
    exists fs',
      generate_sizes buffer relativePath outputSubDir fileNameNoExt sizes fs variants
      = (fs', Ok (variants ++ recorded_all img relativePath fileNameNoExt sizes)%list).
Proof.
  intros Hdecode. induction sizes as [|[sizeName width] sizes IH];
    intros fs variants Hnodup; simpl.
  - exists fs. by rewrite app_nil_r.
  - rewrite Hdecode. unfold metadata. rewrite lookup_insert_eq.
    cbn [meta_width meta_height]. rewrite !or_zero_Some.
    apply NoDup_app in Hnodup as Hparts. destruct Hparts as (_ & Hfresh & _).
    rewrite set_fresh.
    2: { intros Hin. apply (Hfresh _ Hin). simpl. by left. }
    edestruct IH as (fs' & ->).
    { unfold JsObject.keys in *. rewrite map_app, <- app_assoc. exact Hnodup. }
    exists fs'. by rewrite <- app_assoc.
Qed.

Lemma generate_sizes_decode_fails (buffer : list byte) (e : JsError)
    (relativePath outputSubDir fileNameNoExt : string)
    (sizeName : string) (width : Z) (sizes : list (string * Z)) fs variants :
  decode buffer = Throw e ->
  generate_sizes buffer relativePath outputSubDir fileNameNoExt
    ((sizeName, width) :: sizes) fs variants = (fs, Throw e).
Proof. intros Hdecode. simpl. by rewrite Hdecode. Qed.

Lemma generate_sizes_touches (buffer : list byte)
    (relativePath outputSubDir fileNameNoExt : string) (sizes : list (string * Z))
    (path : string) :
  (forall sizeName, sizeName ∈ map fst sizes ->
     path <> path_join outputSubDir (fileNameNoExt ++ "-" ++ sizeName ++ ".webp")%string) ->
  forall fs variants,
    (generate_sizes buffer relativePath outputSubDir fileNameNoExt sizes fs variants).1
      !! path = fs !! path.
Proof.
  induction sizes as [|[sizeName width] sizes IH]; intros Hpath fs variants; simpl;
    [done|].
  destruct (decode buffer) as [img|e]; [|done].
  unfold metadata. rewrite lookup_insert_eq.
  rewrite IH.
  - apply lookup_insert_ne. intros Heq. eapply Hpath; [|by rewrite Heq].
    simpl. by left.
  - intros k Hk. apply Hpath. simpl. by right.
Qed.

Lemma SIZES_names : JsObject.keys (JsObject.entries SIZES) = VARIANT_NAMES.
Proof. reflexivity. Qed.

Lemma NoDup_SIZES : NoDup (map fst (JsObject.entries SIZES)).
Proof.
  unfold JsObject.entries, SIZES. simpl.
  repeat (apply NoDup_cons; split;
          [rewrite ?elem_of_cons, elem_of_nil; intros Hin;
           repeat destruct Hin as [Hin|Hin]; discriminate || done|]).
  apply NoDup_nil_2.
Qed.

(** The metadata after one file: the records before, and one more when the
    file is read, its placeholder generated and it decodes. *)
Lemma processSingleFile_metadata (fullPath baseDir : string) (st : State Image) :
  metadataList _ (processSingleFile fullPath baseDir st)
  = (metadataList _ st ++
     match (buffer ← readFileSync fullPath;
            blurDataUrl ← generatePlaceholder buffer;
            img ← decode buffer;
            Ok (blurDataUrl, img)) with
     | Ok (blurDataUrl, img) =>
         [ImageMetadata.mk (path_basename fullPath)
            (path_relative baseDir (path_dirname fullPath))
            (recorded_all img (path_relative baseDir (path_dirname fullPath))
               (path_parse_name (path_basename fullPath)) SIZES)
            blurDataUrl]
     | Throw _ => []
     end)%list.
Proof.
  unfold OptimizeImages.processSingleFile.
  destruct (readFileSync fullPath) as [buffer|e]; cbn [mbind result_bind];
    [|by rewrite app_nil_r].
  destruct (generatePlaceholder buffer) as [blurDataUrl|e]; cbn [mbind result_bind];
    [|by rewrite app_nil_r].
  destruct (decode buffer) as [img|e] eqn:Hdecode; cbn [mbind result_bind].
  - edestruct (generate_sizes_exact buffer img) as (fs' & ->); [exact Hdecode| |done].
    apply NoDup_SIZES.
  - unfold SIZES, JsObject.entries.
    rewrite (generate_sizes_decode_fails buffer e) by done.
    simpl. by rewrite app_nil_r.
Qed.


Lemma recorded_all_record (img : Image) (relativePath fileNameNoExt blurDataUrl
    originalName : string) :
  optimizer_record
    (ImageMetadata.mk originalName relativePath
       (recorded_all img relativePath fileNameNoExt SIZES) blurDataUrl).
Proof.
  split; [reflexivity|]. simpl. intros size variant Hin.
  rewrite !elem_of_cons, elem_of_nil in Hin.
  destruct Hin as [[= -> ->]|[[= -> ->]|[[= -> ->]|[[= -> ->]|[]]]]];
    by split.
Qed.

(** X27.  What the optimizer writes is what the uploader reads: if every
    record so far has the four variants mobile, tablet, desktop, full in
    this order, each with a local path and no url, then so has every record
    after one more file, whether that file succeeds or fails; in particular
    the metadata stays typed and every variant names its local file. *)
Theorem processSingleFile_records_for_uploader (fullPath baseDir : string)
    (st : State Image) :
  Forall optimizer_record (metadataList _ st) ->
  Forall optimizer_record (metadataList _ (processSingleFile fullPath baseDir st)) /\
  typed_metadata (metadataList _ (processSingleFile fullPath baseDir st)) /\
  paths_present (metadataList _ (processSingleFile fullPath baseDir st)).
Proof.
  intros Hbefore.
  assert (Forall optimizer_record
            (metadataList _ (processSingleFile fullPath baseDir st))) as Hafter.
  { rewrite processSingleFile_metadata. apply Forall_app. split; [done|].
    destruct (_ ← readFileSync fullPath; _) as [[blurDataUrl img]|e];
      [|apply Forall_nil_2].
    apply Forall_singleton, recorded_all_record. }
  split; [done|]. rewrite Forall_forall in Hafter. split.
  - intros meta k Hmeta Hk. destruct (Hafter meta Hmeta) as [Hkeys _].
    by rewrite <- Hkeys.
  - intros meta size variant Hmeta Hin. destruct (Hafter meta Hmeta) as [_ Hpaths].
    by destruct (Hpaths size variant Hin).
Qed.

(** X28.  Processing a source file writes no image file other than its four
    variants in the output directory: every other path holds afterwards
    what it held before, whether the file succeeds or fails. *)
Theorem processSingleFile_writes_only_variants (fullPath baseDir : string)
    (st : State Image) (path : string) :
  (forall sizeName, sizeName ∈ VARIANT_NAMES ->
     path <> path_join
               (path_join outputDir (path_relative baseDir (path_dirname fullPath)))
               (path_parse_name (path_basename fullPath) ++ "-" ++ sizeName ++ ".webp")%string) ->
  files _ (processSingleFile fullPath baseDir st) !! path = files _ st !! path.
Proof.
  intros Hpath. unfold OptimizeImages.processSingleFile.
  destruct (readFileSync fullPath) as [buffer|e]; cbn [mbind result_bind]; [|done].
  destruct (generatePlaceholder buffer) as [blurDataUrl|e]; cbn [mbind result_bind];
    [|done].
  pose proof (generate_sizes_touches buffer
                (path_relative baseDir (path_dirname fullPath))
                (path_join outputDir (path_relative baseDir (path_dirname fullPath)))
                (path_parse_name (path_basename fullPath))
                (JsObject.entries SIZES) path Hpath (files _ st) []) as Hsame.
  destruct (generate_sizes _ _ _ _ _ _ _) as [files' [variants|e]]; exact Hsame.
Qed.

End OptimizerRecords.

(** * The lightbox and the page of one photo *)

Section LightboxFacts.

Import GalleryView Statements.
Local Open Scope nat_scope.




End LightboxFacts.

Section PhotoPageFacts.

Import GalleryServer PhotoPage.

Variable readFile : result string.
Variable JSON_parse : string -> result (list PhotoManifest.t).

Lemma elem_of_categories (photos : list PhotoManifest.t) (photo : PhotoManifest.t) :
  photo ∈ photos -> PhotoManifest.category photo ∈ GalleryPage.categories photos.
Proof.
  intros Hin. unfold GalleryPage.categories, GalleryPage.unique.
  destruct (unique_from (map PhotoManifest.category photos) [] (NoDup_nil_2 (A:=string)))
    as (cats & -> & _ & _ & Hall).
  rewrite (sort_perm GalleryPage.getCategoryTimeValue).
  apply Hall. apply list_elem_of_fmap. eauto.
Qed.

(** X30.  The page of one photo and its metadata agree: for a non-empty
    photo id neither throws; the page answers "not found" exactly when no
    manifest entry has that id, and then the metadata title is the
    not-found title; otherwise the grid it renders contains the photo the
    metadata describes, the category tabs contain that photo's category,
    and the preview image is the photo's desktop url or, without one, its
    top-level url. *)
Theorem photo_page_agrees_with_metadata (photoId : string) :
  photoId <> "" ->
  match PhotoPage readFile JSON_parse photoId with
  | Ok NotFound =>
      (forall photo, photo ∈ readManifest readFile JSON_parse ->
         PhotoManifest.id photo <> photoId) /\
      generateMetadata readFile JSON_parse photoId
      = Ok (mkMetadata "Photo Not Found | The Wedding" None None)
  | Ok (View photos categories) =>
      exists photo,
        photo ∈ photos /\
        PhotoManifest.id photo = photoId /\
        PhotoManifest.category photo ∈ categories /\
        generateMetadata readFile JSON_parse photoId
        = Ok (mkMetadata
                (PhotoManifest.category photo ++ " | Gallery | The Wedding")
                (Some ("Wedding photo from " ++ PhotoManifest.category photo))
                (Some (Components.or_else (Components.variant_url photo "desktop")
                                          (PhotoManifest.url photo))))
  | Throw _ => False
  end.
Proof.
  intros Hid. unfold PhotoPage, generateMetadata.
  rewrite (getImageById_find readFile JSON_parse photoId Hid).
  unfold getAllImages, getImages. simpl.
  destruct (find _ (readManifest readFile JSON_parse)) as [photo|] eqn:Hfind.
  - apply find_some in Hfind as [Hin Hphoto].
    apply list_elem_of_In in Hin. apply bool_decide_eq_true in Hphoto.
    exists photo. split; [|split; [done|split; [by apply elem_of_categories|done]]].
    unfold GalleryPage.sortedPhotos, GalleryPage.byTime.
    by rewrite (sort_perm Statements.photo_time).
  - split; [|done]. intros photo Hin Hphoto.
    apply list_elem_of_In in Hin.
    pose proof (find_none _ _ Hfind photo Hin) as Hno.
    by apply bool_decide_eq_false in Hno.
Qed.

End PhotoPageFacts.

(** * The properties of the scripts, components and pages in the sample environment *)

Ltac sample_paths_present :=
  let meta := fresh "meta" in
  let size := fresh "size" in
  let variant := fresh "variant" in
  let Hmeta := fresh "Hmeta" in
  let Hin := fresh "Hin" in
  intros meta size variant Hmeta Hin;
  unfold Samples.metadataList in Hmeta;
  rewrite !elem_of_cons, elem_of_nil in Hmeta;
  destruct Hmeta as [->|[->|[]]];
  cbn in Hin; rewrite !elem_of_cons, elem_of_nil in Hin;
  destruct Hin as [Hin|[Hin|[Hin|[Hin|[]]]]];
  injection Hin as -> ->; eexists; reflexivity.

(** X1 on the sample photos: every file that exists can be read and every
    variant names its file, so the script returns a manifest. *)
Lemma main_returns_iff_paths_witness :
  exists manifest,
    UploadImages.main Samples.inputDir Samples.path_join Samples.path_basename
      Samples.existsSync Samples.readFileSync nat Samples.uploadFiles
      Samples.metadataList 0%nat = Ok manifest.
Proof.
  apply (main_returns_iff_paths Samples.inputDir Samples.path_join
           Samples.path_basename Samples.existsSync Samples.readFileSync nat
           Samples.uploadFiles Samples.metadataList 0%nat).
  - intros p _. eexists. reflexivity.
  - sample_paths_present.
Defined.

(** X2 on the sample photos: the queue has the four variants of the photo
    whose files are on disk, and none of the other photo. *)
Lemma queue_exactly_once_witness :
  map Statements.job_key Samples.uploadQueue
  = [(0%nat, "mobile"); (0%nat, "tablet"); (0%nat, "desktop"); (0%nat, "full")].
Proof.
  destruct (queue_exactly_once Samples.inputDir Samples.path_join
              Samples.path_basename Samples.existsSync Samples.readFileSync
              Samples.metadataList Samples.uploadQueue) as [Hkeys _];
    [vm_compute; reflexivity | reflexivity].
Defined.

(** X3 on the sample photos with a service on which every upload fails. *)
Lemma no_upload_no_manifest_entry_witness :
  UploadImages.main Samples.inputDir Samples.path_join Samples.path_basename
    Samples.existsSync Samples.readFileSync nat Samples.uploadFiles_failing
    Samples.metadataList 0%nat = Ok [].
Proof.
  apply (no_upload_no_manifest_entry Samples.inputDir Samples.path_join
           Samples.path_basename Samples.existsSync Samples.readFileSync nat
           Samples.uploadFiles_failing Samples.metadataList Samples.uploadQueue 0%nat).
  - intros s files s' responses [= _ <-].
    apply Forall_forall. intros res Hres.
    apply list_elem_of_fmap in Hres as (f & -> & _). reflexivity.
  - vm_compute; reflexivity.
Defined.

(** X4 on the sample photos: one entry, for the photo that was uploaded. *)
Lemma manifest_one_entry_per_uploaded_photo_witness :
  exists manifest,
    UploadImages.main Samples.inputDir Samples.path_join Samples.path_basename
      Samples.existsSync Samples.readFileSync nat Samples.uploadFiles
      Samples.metadataList 0%nat = Ok manifest /\
    map Statements.entry_summary manifest
    = map (fun im => Statements.photo_summary im.2)
          (filter (fun im : nat * ImageMetadata.t =>
                     is_Some (UploadImages.uploadedUrls nat
                                (UploadImages.upload_all nat Samples.uploadFiles
                                   Samples.uploadQueue 0%nat) !! im.1))
                  (UploadImages.indexed Samples.metadataList)).
Proof.
  apply (manifest_one_entry_per_uploaded_photo Samples.inputDir Samples.path_join
           Samples.path_basename Samples.existsSync Samples.readFileSync nat
           Samples.uploadFiles Samples.metadataList Samples.uploadQueue 0%nat).
  - sample_metadata_typed.
  - vm_compute; reflexivity.
Defined.

(** X5 on the sample photos with a service that stores every file: all four
    jobs are recorded. *)
Lemma all_uploads_succeed_witness :
  (forall job, job ∈ Samples.uploadQueue ->
     Statements.recorded
       (UploadImages.uploadedUrls nat
          (UploadImages.upload_all nat Samples.uploadFiles_storing
             Samples.uploadQueue 0%nat)) job) /\
  exists manifest,
    UploadImages.main Samples.inputDir Samples.path_join Samples.path_basename
      Samples.existsSync Samples.readFileSync nat Samples.uploadFiles_storing
      Samples.metadataList 0%nat = Ok manifest /\
    Forall2
      (Statements.entry_of_photo
         (UploadImages.uploadedUrls nat
            (UploadImages.upload_all nat Samples.uploadFiles_storing
               Samples.uploadQueue 0%nat)))
      manifest
      (filter (fun im : nat * ImageMetadata.t =>
                 Statements.sizes_on_disk Samples.inputDir Samples.path_join
                   Samples.existsSync im.2 <> [])
              (UploadImages.indexed Samples.metadataList)).
Proof.
  apply (all_uploads_succeed Samples.inputDir Samples.path_join
           Samples.path_basename Samples.existsSync Samples.readFileSync nat
           Samples.uploadFiles_storing Samples.metadataList Samples.uploadQueue 0%nat).
  - intros s files. eexists _, _. split; [reflexivity|].
    split; [apply length_map|].
    apply Forall_forall. intros res Hres.
    apply list_elem_of_fmap in Hres as (f & -> & _). eexists. reflexivity.
  - sample_metadata_typed.
  - vm_compute; reflexivity.
Defined.

Lemma sample_assembled :
  UploadImages.construct_manifest Samples.metadataList Samples.uploadedUrls
  = Ok Samples.assembled.
Proof. vm_compute; reflexivity. Qed.

Lemma sample_entry : Samples.entry_a ∈ Samples.assembled.
Proof. unfold Samples.entry_a, Samples.assembled. simpl. left. Qed.

Lemma sample_urls_nonempty : Statements.urls_nonempty Samples.uploadedUrls.
Proof.
  intros idx uploadedVariants k d Hidx Hk.
  unfold Samples.uploadedUrls in Hidx.
  apply lookup_singleton_Some in Hidx as [_ <-].
  cbn in Hk. repeat case_decide; try discriminate Hk;
    injection Hk as <-; discriminate.
Qed.

(** C1 on the assembled sample entries: at a phone's width, and above the
    desktop breakpoint on an entry with a full variant and on an entry with
    a desktop variant and no full one, which gets its desktop variant. *)
Lemma getResponsiveVariant_stated_policy_witness :
  Gallery.getResponsiveVariant Samples.entry_a 390
  = Statements.first_present ["tablet"; "desktop"; "full"] Samples.entry_a /\
  Gallery.getResponsiveVariant Samples.entry_a 2000
  = Statements.first_present ["full"; "desktop"] Samples.entry_a /\
  Gallery.getResponsiveVariant Samples.entry_without_full 2000
  = Statements.first_present ["full"; "desktop"] Samples.entry_without_full /\
  Gallery.r_url (Gallery.getResponsiveVariant Samples.entry_without_full 2000)
  = "https://cdn.example/f/photos-optimized/Ceremony/Afternoon/a-desktop.webp" /\
  Gallery.r_url (Gallery.getResponsiveVariant Samples.entry_a 2000) <> "".
Proof.
  destruct (getResponsiveVariant_stated_policy Samples.metadataList
              Samples.uploadedUrls Samples.assembled Samples.entry_a 390
              sample_urls_nonempty sample_assembled sample_entry)
    as (Hlow & _ & _ & _).
  destruct (getResponsiveVariant_stated_policy Samples.metadataList
              Samples.uploadedUrls Samples.assembled Samples.entry_a 2000
              sample_urls_nonempty sample_assembled sample_entry)
    as (_ & _ & Hhigh & Hurl).
  destruct (getResponsiveVariant_stated_policy Samples.metadataList
              Samples.uploadedUrls_without_full Samples.assembled_without_full
              Samples.entry_without_full 2000)
    as (_ & _ & Hdesktop & _).
  { intros idx uploadedVariants k d Hidx Hk.
    unfold Samples.uploadedUrls_without_full in Hidx.
    apply lookup_singleton_Some in Hidx as [_ <-].
    cbn in Hk. repeat case_decide; try discriminate Hk;
      injection Hk as <-; discriminate. }
  { vm_compute; reflexivity. }
  { unfold Samples.entry_without_full, Samples.assembled_without_full. simpl. left. }
  split; [apply Hlow; vm_compute; discriminate|].
  split; [apply Hhigh; reflexivity|].
  split; [apply Hdesktop; reflexivity|].
  split; [reflexivity | exact Hurl].
Defined.

(** X6 on the assembled sample entry. *)
Lemma default_copy_is_a_variant_witness :
  exists k v,
    JsObject.get (PhotoManifest.variants Samples.entry_a) k = Some v /\
    ImageVariant.url v = Some (PhotoManifest.url Samples.entry_a) /\
    ImageVariant.width v = PhotoManifest.width Samples.entry_a /\
    ImageVariant.height v = PhotoManifest.height Samples.entry_a.
Proof.
  apply (default_copy_is_a_variant Samples.metadataList Samples.uploadedUrls
           Samples.assembled Samples.entry_a sample_assembled sample_entry).
Defined.

(** X7 on the assembled sample entry, at width 2000. *)
Lemma selector_on_assembled_entry_witness :
  Gallery.getResponsiveVariant Samples.entry_a 2000
  = Gallery.first_usable Gallery.stated_preference_above_desktop Samples.entry_a.
Proof.
  apply (selector_on_assembled_entry Samples.metadataList Samples.uploadedUrls
           Samples.assembled Samples.entry_a 2000 sample_assembled sample_entry).
  reflexivity.
Defined.

(** X8 on the assembled sample entry, at a phone's width. *)
Lemma selector_url_nonempty_witness :
  Gallery.r_url (Gallery.getResponsiveVariant Samples.entry_a 390) <> "".
Proof.
  apply (selector_url_nonempty Samples.metadataList Samples.uploadedUrls
           Samples.assembled Samples.entry_a 390); [|apply sample_assembled
                                                    |apply sample_entry].
  intros idx uploadedVariants k d Hidx Hk.
  unfold Samples.uploadedUrls in Hidx.
  apply lookup_singleton_Some in Hidx as [_ <-].
  cbn in Hk. repeat case_decide; try discriminate Hk;
    injection Hk as <-; discriminate.
Defined.

(** X9 on the sample manifest, for the id of its second entry. *)
Lemma getImageById_sound_complete_witness :
  (GalleryServer.getImageById Samples.manifest_file Samples.manifest_parse "key-b"
   = GalleryServer.Null <->
   forall photo,
     photo ∈ GalleryServer.readManifest Samples.manifest_file Samples.manifest_parse ->
     PhotoManifest.id photo <> "key-b") /\
  (forall photo,
     GalleryServer.getImageById Samples.manifest_file Samples.manifest_parse "key-b"
     = GalleryServer.One photo ->
     PhotoManifest.id photo = "key-b" /\
     exists before after,
       GalleryServer.readManifest Samples.manifest_file Samples.manifest_parse
       = (before ++ photo :: after)%list /\
       forall other, other ∈ before -> PhotoManifest.id other <> "key-b") /\
  (forall photos,
     GalleryServer.getImageById Samples.manifest_file Samples.manifest_parse "key-b"
     <> GalleryServer.Many photos).
Proof.
  apply (getImageById_sound_complete Samples.manifest_file Samples.manifest_parse
           "key-b").
  discriminate.
Defined.

(** X10 on the sample manifest, whose two ids are distinct. *)
Lemma getImageById_round_trip_witness :
  GalleryServer.getImageById Samples.manifest_file Samples.manifest_parse
    (PhotoManifest.id Samples.photo_b) = GalleryServer.One Samples.photo_b.
Proof.
  apply (getImageById_round_trip Samples.manifest_file Samples.manifest_parse
           Samples.photo_b).
  - apply (bool_decide_unpack _). vm_compute. exact I.
  - right. left.
  - discriminate.
Defined.

(** X11 on the sample manifest. *)
Lemma getImageById_agrees_with_sibling_witness :
  GalleryServer.getImageById Samples.manifest_file Samples.manifest_parse "key-a"
  = match GalleryServer.getBridalPartyPhoto Samples.manifest_file
            Samples.manifest_parse "key-a" with
    | Some photo => GalleryServer.One photo
    | None => GalleryServer.Null
    end.
Proof.
  apply (getImageById_agrees_with_sibling Samples.manifest_file
           Samples.manifest_parse "key-a").
  discriminate.
Defined.

(** X14: after a grid item has marked the thumbnail of a photo, the hero
    image finds a loaded rendition of it. *)
Lemma cache_shared_across_components_witness :
  exists r,
    Components.findCachedVariant
      (ImageCache.markImageLoaded ImageCache.loadedImages_init
         (Components.thumbnailUrl Samples.photo_with_mobile))
      Samples.photo_with_mobile = Some r /\
    ImageCache.isImageLoaded
      (ImageCache.markImageLoaded ImageCache.loadedImages_init
         (Components.thumbnailUrl Samples.photo_with_mobile))
      (Gallery.r_url r) = true.
Proof.
  apply (cache_shared_across_components _ Samples.photo_with_mobile 0
           (Components.thumbnailUrl Samples.photo_with_mobile)).
  - left. reflexivity.
  - vm_compute. reflexivity.
Defined.

(** X16: the hero image loads before mounting and locks its first variant;
    mounting on a narrow window and resizing do not change it. *)
Lemma hero_lock_is_stable_witness :
  Components.shown
    (Components.page_run Samples.photo_with_mobile
       ([Components.Rendered; Components.ImageLoaded]
        ++ [Components.Mounted 390; Components.Resized 1400; Components.Rendered])
       Components.page_init)
  = Some (Components.initial_variant Samples.photo_with_mobile).
Proof.
  apply (hero_lock_is_stable Samples.photo_with_mobile
           [Components.Rendered; Components.ImageLoaded]
           [Components.Mounted 390; Components.Resized 1400; Components.Rendered]
           (Components.initial_variant Samples.photo_with_mobile)).
  vm_compute. reflexivity.
Defined.

(** X19: at width 500 the two selectors differ on an entry with a mobile
    variant. *)
Lemma selector_versions_differ_on_mobile_only_witness :
  (500 <= Gallery.BREAKPOINTS_mobile)%Z /\
  Gallery.with_url (JsObject.get (PhotoManifest.variants Samples.photo_with_mobile)
                      "mobile")
  = Some (GallerySnapshot.getResponsiveVariant Samples.photo_with_mobile 500).
Proof.
  apply (selector_versions_differ_on_mobile_only Samples.photo_with_mobile 500).
  vm_compute. discriminate.
Defined.

(** X22: "Bridal Party 2AM" has time value 2 and "Bridal Party 2PM" 14. *)
Lemma getCategoryTimeValue_24_hour_witness :
  GalleryPage.getCategoryTimeValue "Bridal Party 2AM" = 2%Z /\
  GalleryPage.getCategoryTimeValue "Bridal Party 2PM" = 14%Z.
Proof.
  apply (getCategoryTimeValue_24_hour "Bridal Party " 2 "AM" "PM").
  - lia.
  - reflexivity.
  - left.
  - left.
Defined.

(** X24 on two photos of different categories, with no category selected. *)
Lemma categoryBoundaries_are_changes_witness :
  (forall c i,
     (c, i) ∈ GalleryView.categoryBoundaries None [Samples.photo_a; Samples.photo_b] <->
     exists p, [Samples.photo_a; Samples.photo_b] !! i = Some p /\
               PhotoManifest.category p = c /\
               c <> Statements.prev_category [Samples.photo_a; Samples.photo_b] i) /\
  StronglySorted (fun a b : string * nat => (a.2 < b.2)%nat)
    (GalleryView.categoryBoundaries None [Samples.photo_a; Samples.photo_b]).
Proof.
  apply (categoryBoundaries_are_changes None [Samples.photo_a; Samples.photo_b]).
  reflexivity.
Defined.

(** X27 on the sample image library, from the empty metadata. *)
Lemma processSingleFile_records_for_uploader_witness :
  Statements.typed_metadata
    (OptimizeImages.metadataList _
       (OptimizeImages.processSingleFile Samples.Image Samples.image_width
          Samples.image_height Samples.decode Samples.resize Samples.webp
          Samples.generatePlaceholder Samples.readFileSync "photos-optimized"
          Samples.path_join Samples.path_relative Samples.path_dirname
          Samples.path_basename Samples.path_parse_name
          "raw/Reception/Evening/a.jpg" "raw"
          (OptimizeImages.mkState _ ∅ []))).
Proof.
  apply (processSingleFile_records_for_uploader Samples.Image Samples.image_width
           Samples.image_height Samples.decode Samples.resize Samples.webp
           Samples.generatePlaceholder Samples.readFileSync "photos-optimized"
           Samples.path_join Samples.path_relative Samples.path_dirname
           Samples.path_basename Samples.path_parse_name
           "raw/Reception/Evening/a.jpg" "raw" (OptimizeImages.mkState _ ∅ [])).
  apply Forall_nil_2.
Defined.

(** X28 on the sample image library: the source file is not written. *)
Lemma processSingleFile_writes_only_variants_witness :
  OptimizeImages.files _
    (OptimizeImages.processSingleFile Samples.Image Samples.image_width
       Samples.image_height Samples.decode Samples.resize Samples.webp
       Samples.generatePlaceholder Samples.readFileSync "photos-optimized"
       Samples.path_join Samples.path_relative Samples.path_dirname
       Samples.path_basename Samples.path_parse_name
       "raw/Reception/Evening/a.jpg" "raw"
       (OptimizeImages.mkState _ ∅ [])) !! "raw/Reception/Evening/a.jpg"
  = (∅ : gmap string Samples.Image) !! "raw/Reception/Evening/a.jpg".
Proof.
  apply (processSingleFile_writes_only_variants Samples.Image Samples.image_width
           Samples.image_height Samples.decode Samples.resize Samples.webp
           Samples.generatePlaceholder Samples.readFileSync "photos-optimized"
           Samples.path_join Samples.path_relative Samples.path_dirname
           Samples.path_basename Samples.path_parse_name
           "raw/Reception/Evening/a.jpg" "raw" (OptimizeImages.mkState _ ∅ [])).
  intros sizeName Hname. unfold VARIANT_NAMES in Hname.
  rewrite !elem_of_cons, elem_of_nil in Hname.
  destruct Hname as [->|[->|[->|[->|[]]]]]; vm_compute; discriminate.
Defined.


(** X30 on the sample manifest, for the id of its second entry. *)
Lemma photo_page_agrees_with_metadata_witness :
  match PhotoPage.PhotoPage Samples.manifest_file Samples.manifest_parse "key-b" with
  | Ok PhotoPage.NotFound =>
      (forall photo,
         photo ∈ GalleryServer.readManifest Samples.manifest_file Samples.manifest_parse ->
         PhotoManifest.id photo <> "key-b") /\
      PhotoPage.generateMetadata Samples.manifest_file Samples.manifest_parse "key-b"
      = Ok (PhotoPage.mkMetadata "Photo Not Found | The Wedding" None None)
  | Ok (PhotoPage.View photos categories) =>
      exists photo,
        photo ∈ photos /\
        PhotoManifest.id photo = "key-b" /\
        PhotoManifest.category photo ∈ categories /\
        PhotoPage.generateMetadata Samples.manifest_file Samples.manifest_parse "key-b"
        = Ok (PhotoPage.mkMetadata
                (PhotoManifest.category photo ++ " | Gallery | The Wedding")
                (Some ("Wedding photo from " ++ PhotoManifest.category photo))
                (Some (Components.or_else (Components.variant_url photo "desktop")
                                          (PhotoManifest.url photo))))
  | Throw _ => False
  end.
Proof.
  apply (photo_page_agrees_with_metadata Samples.manifest_file Samples.manifest_parse
           "key-b").
  discriminate.
Defined.
